(** * A growable array over raw storage: [RawMemory<T>] and [Vector<T>]

    Shallow embedding of [advanced-vector/vector.h].

    A block of raw memory is a list of slots; a slot is [None] while it is
    raw (reserved, no object lives there) and [Some x] while an object of
    value [x] lives in it.  Pointers into a block are offsets from its
    start.  [size_t] quantities are natural numbers; the places where the
    machine types of the source matter are written out: the doubling
    [size_ * 2] and the byte count [n * sizeof(T)] handed to [operator new]
    wrap modulo [2^64], and [int num_pos = pos - begin()] in [Emplace] goes
    through a 32-bit signed conversion.  [operator new] throws
    [std::bad_alloc] when the heap does not satisfy a request.

    Next to the state of the vector, every method reports two ghost
    quantities that the C++ program cannot observe but that element
    lifetimes are about: how many destructor calls hit a slot without a
    live object, and which objects were still alive in a block when the
    block was handed back to the heap.  A destructor call on a slot without
    a live object is undefined behaviour in C++.  The model counts such a
    call and lets the run go on, as it does for a type whose destructor does
    nothing, so that what the code destroys too often and what it leaks can
    be stated of one and the same run.  A run has defined behaviour only
    if it is not [Undefined] and its count of stray destructor calls is
    0. *)

From Stdlib Require Import ZArith Lia.
From stdpp Require Import base tactics option list numbers.

Open Scope nat_scope.

(** ** Element types *)

(** What the container needs to know about its template parameter [T].
    Copies and moves have value semantics: a copy that succeeds yields the
    value of its source, a move that succeeds yields the value of its
    source and leaves [moved_from] of it behind.  Whether an operation
    throws is decided by the value it reads. *)
Class Element (T : Type) := {
  (* std::is_nothrow_move_constructible_v<T> *)
  is_nothrow_move_constructible : bool;
  (* std::is_copy_constructible_v<T> *)
  is_copy_constructible : bool;
  (* T(const T&) throws when it copies this value *)
  copy_throws : T -> bool;
  (* T(T&&) throws when it moves from this value *)
  move_throws : T -> bool;
  (* state in which a move leaves its source *)
  moved_from : T -> T;
  (* operator=(const T&) throws when it assigns this value *)
  copy_assign_throws : T -> bool;
  (* operator=(T&&) throws when it assigns from this value *)
  move_assign_throws : T -> bool;
  (* T(): the value-initialised object, or None when T() throws *)
  value_init : option T;
  (* sizeof(T) *)
  sizeof_T : Z;
  (* a noexcept move constructor does not throw *)
  nothrow_move_sound :
    is_nothrow_move_constructible = true -> forall x, move_throws x = false;
  (* an object occupies at least one byte *)
  sizeof_T_pos : (0 < sizeof_T)%Z
}.

(** ** The heap *)

(** [::operator new(bytes)] hands back a block of [bytes] bytes when the
    heap satisfies the request and throws [std::bad_alloc] when it does
    not.  A heap is described by the largest request it satisfies; a
    request is a [size_t]. *)
Class Heap := {
  max_request : Z;
  max_request_size_t : (max_request < 2 ^ 64)%Z
}.

(** ** Results of running code *)

Inductive outcome (A E : Type) : Type :=
| Return (a : A)      (* ran to completion *)
| Throw (e : E)       (* an exception leaves the code *)
| Undefined.          (* the run cannot go on: an assertion of the source
                         fails, an object is read or assigned where none
                         lives, or storage is accessed outside a block *)
Arguments Return {A E} a.
Arguments Throw {A E} e.
Arguments Undefined {A E}.

(** ** Machine integers *)

(* size_t arithmetic: the result reduced modulo 2^64 *)
Definition size_t_wrap (z : Z) : nat := Z.to_nat (z mod 2 ^ 64).

(* conversion of a pointer difference to [int] *)
Definition to_int (z : Z) : Z := ((z + 2 ^ 31) mod 2 ^ 32 - 2 ^ 31)%Z.

(* size_ == 0 ? 1 : size_ * 2 *)
Definition grown_capacity (size : nat) : nat :=
  if size =? 0 then 1 else size_t_wrap (Z.of_nat size * 2).

(** ** Algorithms of <memory> and <algorithm> on blocks *)

Section Algorithms.
Context {T : Type} `{Element T}.

(* a block of raw memory; a slot is None while no object lives in it *)
Local Abbreviation block := (list (option T)).

(* std::destroy_at(b + i).  On a slot with a live object the object's
   lifetime ends.  On a slot without one the call is undefined behaviour:
   it is counted (the number is 1) and the block is left as it is. *)
Definition destroy_at (b : block) (i : nat) : block * nat :=
  match b !! i with
  | Some (Some _) => (<[i := None]> b, 0)
  | _ => (b, 1)
  end.

(* std::destroy_n(b + first, n) *)
Fixpoint destroy_n (b : block) (first n : nat) : block * nat :=
  match n with
  | 0 => (b, 0)
  | S n' =>
      let '(b1, s1) := destroy_at b first in
      let '(b2, s2) := destroy_n b1 (S first) n' in
      (b2, s1 + s2)
  end.

(* the objects still alive in a block *)
Definition live_objects (b : block) : list T := omap id b.

(* std::uninitialized_copy_n(src + first, n, dst + d_first), with
   [d_start] the start of the destination range: constructs copies one by
   one; when a copy throws, destroys the copies made so far and rethrows.
   A throw reports the destination block and the stray destructor calls. *)
Fixpoint uninitialized_copy_from (src : block) (first n : nat)
    (dst : block) (d_start d_first : nat) : outcome block (block * nat) :=
  match n with
  | 0 => Return dst
  | S n' =>
      match src !! first with
      | Some (Some x) =>
          if copy_throws x then
            Throw (destroy_n dst d_start (d_first - d_start))
          else if bool_decide (d_first < length dst) then
            uninitialized_copy_from src (S first) n'
              (<[d_first := Some x]> dst) d_start (S d_first)
          else Undefined
      | _ => Undefined
      end
  end.

Definition uninitialized_copy_n (src : block) (first n : nat)
    (dst : block) (d_first : nat) : outcome block (block * nat) :=
  uninitialized_copy_from src first n dst d_first d_first.

(* std::uninitialized_move_n(src + first, n, dst + d_first): as above with
   move construction; the source block changes too. *)
Fixpoint uninitialized_move_from (src : block) (first n : nat)
    (dst : block) (d_start d_first : nat)
    : outcome (block * block) (block * block * nat) :=
  match n with
  | 0 => Return (src, dst)
  | S n' =>
      match src !! first with
      | Some (Some x) =>
          if move_throws x then
            let '(d, s) := destroy_n dst d_start (d_first - d_start) in
            Throw (src, d, s)
          else if bool_decide (d_first < length dst) then
            uninitialized_move_from (<[first := Some (moved_from x)]> src)
              (S first) n' (<[d_first := Some x]> dst) d_start (S d_first)
          else Undefined
      | _ => Undefined
      end
  end.

Definition uninitialized_move_n (src : block) (first n : nat)
    (dst : block) (d_first : nat)
    : outcome (block * block) (block * block * nat) :=
  uninitialized_move_from src first n dst d_first d_first.

(* std::uninitialized_value_construct_n(b + first, n) *)
Fixpoint uninitialized_value_construct_from (b : block) (start first n : nat)
    : outcome block (block * nat) :=
  match n with
  | 0 => Return b
  | S n' =>
      match value_init with
      | None => Throw (destroy_n b start (first - start))
      | Some x =>
          if bool_decide (first < length b) then
            uninitialized_value_construct_from (<[first := Some x]> b)
              start (S first) n'
          else Undefined
      end
  end.

Definition uninitialized_value_construct_n (b : block) (first n : nat)
    : outcome block (block * nat) :=
  uninitialized_value_construct_from b first first n.

(* std::copy(src + first, src + first + n, dst + d_first): copy
   assignment onto live objects, front to back; a throw leaves the
   destination as far as it got. *)
Fixpoint copy (src : block) (first n : nat) (dst : block) (d_first : nat)
    : outcome block block :=
  match n with
  | 0 => Return dst
  | S n' =>
      match src !! first, dst !! d_first with
      | Some (Some x), Some (Some _) =>
          if copy_assign_throws x then Throw dst
          else copy src (S first) n' (<[d_first := Some x]> dst) (S d_first)
      | _, _ => Undefined
      end
  end.

(* one move assignment b[d] = std::move(b[s]) inside a block *)
Definition move_assign_slot (b : block) (s d : nat) : outcome block block :=
  match b !! s, b !! d with
  | Some (Some x), Some (Some _) =>
      if move_assign_throws x then Throw b
      else Return (<[d := Some x]> (<[s := Some (moved_from x)]> b))
  | _, _ => Undefined
  end.

(* std::move(b + first, b + first + n, b + d_first), front to back *)
Fixpoint move (b : block) (first n d_first : nat) : outcome block block :=
  match n with
  | 0 => Return b
  | S n' =>
      match move_assign_slot b first d_first with
      | Return b' => move b' (S first) n' (S d_first)
      | Throw b' => Throw b'
      | Undefined => Undefined
      end
  end.

(* std::move_backward(b + last - n, b + last, b + d_last), back to front *)
Fixpoint move_backward (b : block) (last n d_last : nat) {struct n}
    : outcome block block :=
  match n with
  | 0 => Return b
  | S n' =>
      match last, d_last with
      | S last', S d_last' =>
          match move_assign_slot b last' d_last' with
          | Return b' => move_backward b' last' n' d_last'
          | Throw b' => Throw b'
          | Undefined => Undefined
          end
      | _, _ => Undefined
      end
  end.

End Algorithms.

(** ** RawMemory<T> *)

Record RawMemory (T : Type) : Type := mkRawMemory {
  buffer_ : list (option T);
  capacity_ : nat
}.
Arguments mkRawMemory {T} _ _.
Arguments buffer_ {T} _.
Arguments capacity_ {T} _.

(** ** Vector<T> *)

Record Vector (T : Type) : Type := mkVector {
  data_ : RawMemory T;
  size_ : nat
}.
Arguments mkVector {T} _ _.
Arguments data_ {T} _.
Arguments size_ {T} _.

(* what a call did to element lifetimes behind the back of the program *)
Record effects (T : Type) : Type := mkEffects {
  (* destructor calls on slots without a live object *)
  stray_destroys : nat;
  (* objects alive in a block at the moment it was deallocated *)
  leaked : list T
}.
Arguments mkEffects {T} _ _.
Arguments stray_destroys {T} _.
Arguments leaked {T} _.

Section Container.
Context {T : Type} `{Element T} `{Heap}.

Definition no_effects : effects T := mkEffects 0 [].

(* RawMemory::Allocate: n != 0 ? operator new(n * sizeof(T)) : nullptr.
   The byte count is a size_t product and wraps modulo 2^64; the block
   obtained has room for as many objects as its bytes hold, whatever
   number was asked for.  None stands for std::bad_alloc. *)
Definition Allocate (n : nat) : option (list (option T)) :=
  if n =? 0 then Some []
  else
    let bytes := ((Z.of_nat n * sizeof_T) mod 2 ^ 64)%Z in
    if (bytes <=? max_request)%Z
    then Some (replicate (Z.to_nat (bytes / sizeof_T)) None)
    else None.

(* RawMemory(): null block, capacity 0 *)
Definition RawMemory_default : RawMemory T := mkRawMemory [] 0.

(* explicit RawMemory(size_t capacity): capacity_ is what was asked for;
   None when Allocate throws *)
Definition RawMemory_new (capacity : nat) : option (RawMemory T) :=
  match Allocate capacity with
  | Some b => Some (mkRawMemory b capacity)
  | None => None
  end.

(* RawMemory::Swap; the pair is (this, other) after the call *)
Definition RawMemory_Swap (this other : RawMemory T)
    : RawMemory T * RawMemory T :=
  (mkRawMemory (buffer_ other) (capacity_ other),
   mkRawMemory (buffer_ this) (capacity_ this)).

(* RawMemory(RawMemory&& other); the pair is (this, other) *)
Definition RawMemory_move (other : RawMemory T) : RawMemory T * RawMemory T :=
  (mkRawMemory (buffer_ other) (capacity_ other), mkRawMemory [] 0).

(* ~RawMemory(): the block goes back to the heap, whatever lives in it *)
Definition RawMemory_release (m : RawMemory T) : list T :=
  live_objects (buffer_ m).

(* Vector() *)
Definition Vector_default : Vector T := mkVector RawMemory_default 0.

Definition Size (v : Vector T) : nat := size_ v.
Definition Capacity (v : Vector T) : nat := capacity_ (data_ v).

(* the vector with another block behind the same capacity field *)
Definition with_buffer (v : Vector T) (b : list (option T)) (n : nat)
    : Vector T :=
  mkVector (mkRawMemory b (capacity_ (data_ v))) n.

(* ~Vector() *)
Definition Vector_destroy (v : Vector T) : effects T :=
  let '(b, s) := destroy_n (buffer_ (data_ v)) 0 (size_ v) in
  mkEffects s (live_objects b).

(* explicit Vector(size_t size) *)
Definition Vector_sized (size : nat) : outcome (Vector T * effects T) (effects T) :=
  match RawMemory_new size with
  | None => Throw no_effects      (* std::bad_alloc *)
  | Some data =>
      match uninitialized_value_construct_n (buffer_ data) 0 size with
      | Return b =>
          Return (mkVector (mkRawMemory b (capacity_ data)) size, no_effects)
      | Throw (b, s) => Throw (mkEffects s (live_objects b))
      | Undefined => Undefined
      end
  end.

(* Vector(const Vector& other) *)
Definition Vector_copy (other : Vector T)
    : outcome (Vector T * effects T) (effects T) :=
  match RawMemory_new (size_ other) with
  | None => Throw no_effects      (* std::bad_alloc *)
  | Some data =>
      match uninitialized_copy_n (buffer_ (data_ other)) 0 (size_ other)
              (buffer_ data) 0 with
      | Return b =>
          Return (mkVector (mkRawMemory b (capacity_ data)) (size_ other),
                  no_effects)
      | Throw (b, s) => Throw (mkEffects s (live_objects b))
      | Undefined => Undefined
      end
  end.

(* Vector(Vector&& other); the pair is (this, other) *)
Definition Vector_move (other : Vector T) : Vector T * Vector T :=
  let '(d, od) := RawMemory_move (data_ other) in
  (mkVector d (size_ other), mkVector od 0).

(* Vector::Swap; the pair is (this, other) after the call *)
Definition Swap (this other : Vector T) : Vector T * Vector T :=
  let '(d, od) := RawMemory_Swap (data_ this) (data_ other) in
  (mkVector d (size_ other), mkVector od (size_ this)).

(* The relocation that Reserve, EmplaceBack and Emplace share: n elements
   from the old block at [first] into the new block at [d_first], by move
   when the type's move constructor is noexcept or the type cannot be
   copied, by copy otherwise.  The old block is returned as well. *)
Definition takes_move_path : bool :=
  is_nothrow_move_constructible || negb is_copy_constructible.

Definition relocate_n (old : list (option T)) (first n : nat)
    (new : list (option T)) (d_first : nat)
    : outcome (list (option T) * list (option T))
              (list (option T) * list (option T) * nat) :=
  if takes_move_path then uninitialized_move_n old first n new d_first
  else
    match uninitialized_copy_n old first n new d_first with
    | Return new' => Return (old, new')
    | Throw (new', s) => Throw (old, new', s)
    | Undefined => Undefined
    end.

(* Vector::Reserve *)
Definition Reserve (v : Vector T) (new_capacity : nat)
    : outcome (Vector T * effects T) (Vector T * effects T) :=
  if new_capacity <=? capacity_ (data_ v) then Return (v, no_effects)
  else
    match RawMemory_new new_capacity with
    | None => Throw (v, no_effects)      (* std::bad_alloc *)
    | Some new_data =>
        match relocate_n (buffer_ (data_ v)) 0 (size_ v) (buffer_ new_data) 0 with
        | Return (old, new) =>
            let '(old', s) := destroy_n old 0 (size_ v) in
            let '(d, nd) :=
              RawMemory_Swap (mkRawMemory old' (capacity_ (data_ v)))
                             (mkRawMemory new (capacity_ new_data)) in
            Return (mkVector d (size_ v), mkEffects s (RawMemory_release nd))
        | Throw (old, new, s) =>
            Throw (with_buffer v old (size_ v), mkEffects s (live_objects new))
        | Undefined => Undefined
        end
    end.

(* Vector::PopBack *)
Definition PopBack (v : Vector T) : outcome (Vector T * effects T) (Vector T * effects T) :=
  if size_ v =? 0 then Undefined
  else
    let '(b, s) := destroy_at (buffer_ (data_ v)) (size_ v - 1) in
    Return (with_buffer v b (size_ v - 1), mkEffects s []).

(* Vector::Resize *)
Definition Resize (v : Vector T) (new_size : nat)
    : outcome (Vector T * effects T) (Vector T * effects T) :=
  if new_size <? size_ v then
    let '(b, s) := destroy_n (buffer_ (data_ v)) new_size (size_ v - new_size) in
    Return (with_buffer v b new_size, mkEffects s [])
  else
    match Reserve v new_size with
    | Return (v1, e1) =>
        match uninitialized_value_construct_n (buffer_ (data_ v1)) (size_ v1)
                (new_size - size_ v1) with
        | Return b => Return (with_buffer v1 b new_size, e1)
        | Throw (b, s) =>
            Throw (with_buffer v1 b (size_ v1),
                   mkEffects (stray_destroys e1 + s) (leaked e1))
        | Undefined => Undefined
        end
    | Throw r => Throw r
    | Undefined => Undefined
    end.

(* Vector::EmplaceBack(args...).  [arg] is what T(args...) evaluates to:
   the constructed value, or None when the constructor throws.  The
   returned number is the index of the slot the returned reference
   designates. *)
Definition EmplaceBack (v : Vector T) (arg : option T)
    : outcome (nat * Vector T * effects T) (Vector T * effects T) :=
  let emplaced :=
    if size_ v =? Capacity v then
      match RawMemory_new (grown_capacity (size_ v)) with
      | None => Throw (v, no_effects)      (* std::bad_alloc *)
      | Some new_data =>
          match arg with
          | None => Throw (v, mkEffects 0 (RawMemory_release new_data))
          | Some x =>
              if bool_decide (size_ v < length (buffer_ new_data)) then
                let nb := <[size_ v := Some x]> (buffer_ new_data) in
                match relocate_n (buffer_ (data_ v)) 0 (size_ v) nb 0 with
                | Return (old, new) =>
                    let '(old', s) := destroy_n old 0 (size_ v) in
                    let '(d, nd) :=
                      RawMemory_Swap (mkRawMemory old' (capacity_ (data_ v)))
                                     (mkRawMemory new (capacity_ new_data)) in
                    Return (mkVector d (size_ v),
                            mkEffects s (RawMemory_release nd))
                | Throw (old, new, s) =>
                    (* catch (...) { std::destroy_n(new_data.GetAddress(), size_); throw; } *)
                    let '(new', s') := destroy_n new 0 (size_ v) in
                    Throw (with_buffer v old (size_ v),
                           mkEffects (s + s') (live_objects new'))
                | Undefined => Undefined
                end
              else Undefined
          end
      end
    else
      match arg with
      | None => Throw (v, no_effects)
      | Some x =>
          if bool_decide (size_ v < length (buffer_ (data_ v))) then
            Return (with_buffer v (<[size_ v := Some x]> (buffer_ (data_ v)))
                      (size_ v), no_effects)
          else Undefined
      end in
  match emplaced with
  | Return (v1, e) =>
      (* ++size_; return data_[size_ - 1]; *)
      let v2 := mkVector (data_ v1) (size_ v1 + 1) in
      if bool_decide (size_ v2 - 1 < capacity_ (data_ v2)) then
        Return (size_ v2 - 1, v2, e)
      else Undefined
  | Throw r => Throw r
  | Undefined => Undefined
  end.

(* PushBack(const T& value) and PushBack(T&& value) *)
Definition PushBack (v : Vector T) (value : T) :=
  EmplaceBack v (if copy_throws value then None else Some value).
Definition PushBack_rvalue (v : Vector T) (value : T) :=
  EmplaceBack v (if move_throws value then None else Some value).

(* Vector::operator=(const Vector& rhs), for an object [rhs] other than
   [*this] (on [a = a] the source does nothing).  [rhs] is const and is
   not changed. *)
Definition copy_assign (this rhs : Vector T)
    : outcome (Vector T * effects T) (Vector T * effects T) :=
  if capacity_ (data_ this) <? size_ rhs then
    (* Vector rhs_copy(rhs); Swap(rhs_copy); *)
    match Vector_copy rhs with
    | Return (rhs_copy, e) =>
        let '(this', rhs_copy') := Swap this rhs_copy in
        let e' := Vector_destroy rhs_copy' in
        Return (this', mkEffects (stray_destroys e + stray_destroys e')
                                 (leaked e ++ leaked e'))
    | Throw e => Throw (this, e)
    | Undefined => Undefined
    end
  else if size_ rhs <? size_ this then
    match copy (buffer_ (data_ rhs)) 0 (size_ rhs) (buffer_ (data_ this)) 0 with
    | Return b =>
        let '(b', s) := destroy_n b (size_ rhs) (size_ this - size_ rhs) in
        Return (with_buffer this b' (size_ rhs), mkEffects s [])
    | Throw b => Throw (with_buffer this b (size_ this), no_effects)
    | Undefined => Undefined
    end
  else
    match copy (buffer_ (data_ rhs)) 0 (size_ this) (buffer_ (data_ this)) 0 with
    | Return b =>
        match uninitialized_copy_n (buffer_ (data_ rhs)) (size_ this)
                (size_ rhs - size_ this) b (size_ this) with
        | Return b' => Return (with_buffer this b' (size_ rhs), no_effects)
        | Throw (b', s) =>
            Throw (with_buffer this b' (size_ this), mkEffects s [])
        | Undefined => Undefined
        end
    | Throw b => Throw (with_buffer this b (size_ this), no_effects)
    | Undefined => Undefined
    end.

(* Vector::operator=(Vector&& rhs), for an object [rhs] other than
   [*this]; the pair is (this, rhs) after the call *)
Definition move_assign (this rhs : Vector T) : Vector T * Vector T :=
  let '(d, rd) := RawMemory_Swap (data_ this) (data_ rhs) in
  (mkVector d (size_ rhs), mkVector rd 0).

(* Vector::Emplace(pos, args...).  [pos] is the offset [pos - begin()] of
   the iterator, [arg] what T(args...) evaluates to.  The returned number
   is the offset of the returned iterator from [begin()]. *)
Definition Emplace (v : Vector T) (pos : nat) (arg : option T)
    : outcome (nat * Vector T * effects T) (Vector T * effects T) :=
  (* assert((begin() <= pos) && (pos <= end())); *)
  if bool_decide (pos <= size_ v) then
    let num_pos := to_int (Z.of_nat pos) in
    if (num_pos <? 0)%Z then Undefined
    else
      let n := Z.to_nat num_pos in
      let emplaced :=
        if size_ v =? Capacity v then
          match RawMemory_new (grown_capacity (size_ v)) with
          | None => Throw (v, no_effects)      (* std::bad_alloc *)
          | Some new_data =>
              match arg with
              | None => Throw (v, mkEffects 0 (RawMemory_release new_data))
              | Some x =>
                  if bool_decide (n < length (buffer_ new_data)) then
                    let nb := <[n := Some x]> (buffer_ new_data) in
                    let relocated :=
                      if takes_move_path then
                        match uninitialized_move_n (buffer_ (data_ v)) 0 n nb 0 with
                        | Return (old, nb1) =>
                            match uninitialized_move_n old n (size_ v - n) nb1 (n + 1) with
                            | Return r => Return r
                            | Throw r => Throw r
                            | Undefined => Undefined
                            end
                        | Throw r => Throw r
                        | Undefined => Undefined
                        end
                      else
                        match uninitialized_copy_n (buffer_ (data_ v)) 0 n nb 0 with
                        | Return nb1 =>
                            match uninitialized_copy_n (buffer_ (data_ v)) n
                                    (size_ v - n) nb1 (n + 1) with
                            | Return nb2 => Return (buffer_ (data_ v), nb2)
                            | Throw (nb2, s) =>
                                (* catch (...) { std::destroy_n(new_data.GetAddress(), num_pos); throw; } *)
                                let '(nb3, s') := destroy_n nb2 0 n in
                                Throw (buffer_ (data_ v), nb3, s + s')
                            | Undefined => Undefined
                            end
                        | Throw (nb1, s) =>
                            (* catch (...) { std::destroy_at(new_data.GetAddress() + num_pos); throw; } *)
                            let '(nb2, s') := destroy_at nb1 n in
                            Throw (buffer_ (data_ v), nb2, s + s')
                        | Undefined => Undefined
                        end in
                    match relocated with
                    | Return (old, new) =>
                        let '(old', s) := destroy_n old 0 (size_ v) in
                        let '(d, nd) :=
                          RawMemory_Swap (mkRawMemory old' (capacity_ (data_ v)))
                                         (mkRawMemory new (capacity_ new_data)) in
                        Return (mkVector d (size_ v),
                                mkEffects s (RawMemory_release nd))
                    | Throw (old, new, s) =>
                        Throw (with_buffer v old (size_ v),
                               mkEffects s (live_objects new))
                    | Undefined => Undefined
                    end
                  else Undefined
              end
          end
        else if pos =? size_ v then
          (* new (end()) T(std::forward<Args>(args)...); *)
          match arg with
          | None => Throw (v, no_effects)
          | Some x =>
              if bool_decide (size_ v < length (buffer_ (data_ v))) then
                Return (with_buffer v (<[size_ v := Some x]> (buffer_ (data_ v)))
                          (size_ v), no_effects)
              else Undefined
          end
        else
          match arg with
          | None => Throw (v, no_effects)
          | Some temporary_value =>
              (* new (end()) T(std::forward<T>(data_[0])); *)
              if bool_decide (0 < capacity_ (data_ v)) then
                match buffer_ (data_ v) !! 0 with
                | Some (Some x0) =>
                    if move_throws x0 then Throw (v, no_effects)
                    else if bool_decide (size_ v < length (buffer_ (data_ v))) then
                      let b1 := <[size_ v := Some x0]>
                                  (<[0 := Some (moved_from x0)]> (buffer_ (data_ v))) in
                      (* std::move_backward(begin() + num_pos, end() - 1, end()); *)
                      match move_backward b1 (size_ v - 1) (size_ v - 1 - n) (size_ v) with
                      | Return b2 =>
                          (* *(begin() + num_pos) = std::forward<T>(temporary_value); *)
                          match b2 !! n with
                          | Some (Some _) =>
                              if move_assign_throws temporary_value then
                                Throw (with_buffer v b2 (size_ v), no_effects)
                              else
                                Return (with_buffer v (<[n := Some temporary_value]> b2)
                                          (size_ v), no_effects)
                          | _ => Undefined
                          end
                      | Throw b2 =>
                          (* catch (...) { std::destroy_at(end()); throw; } *)
                          let '(b3, s) := destroy_at b2 (size_ v) in
                          Throw (with_buffer v b3 (size_ v), mkEffects s [])
                      | Undefined => Undefined
                      end
                    else Undefined
                | _ => Undefined
                end
              else Undefined
          end in
      match emplaced with
      | Return (v1, e) =>
          (* ++size_; return begin() + num_pos; *)
          Return (n, mkVector (data_ v1) (size_ v1 + 1), e)
      | Throw r => Throw r
      | Undefined => Undefined
      end
  else Undefined.

(* Insert(pos, const T& value) and Insert(pos, T&& value) *)
Definition Insert (v : Vector T) (pos : nat) (value : T) :=
  Emplace v pos (if copy_throws value then None else Some value).
Definition Insert_rvalue (v : Vector T) (pos : nat) (value : T) :=
  Emplace v pos (if move_throws value then None else Some value).

(* Vector::Erase(pos), [pos] the offset of the iterator from begin() *)
Definition Erase (v : Vector T) (pos : nat)
    : outcome (nat * Vector T * effects T) (Vector T * effects T) :=
  if bool_decide (pos <= size_ v) then
    (* std::move(begin() + num_pos + 1, end(), begin() + num_pos); *)
    if bool_decide (pos + 1 <= size_ v) then
      match move (buffer_ (data_ v)) (pos + 1) (size_ v - (pos + 1)) pos with
      | Return b =>
          match PopBack (with_buffer v b (size_ v)) with
          | Return (v', e) => Return (pos, v', e)
          | Throw r => Throw r
          | Undefined => Undefined
          end
      | Throw b => Throw (with_buffer v b (size_ v), no_effects)
      | Undefined => Undefined
      end
    else Undefined
  else Undefined.

(* RawMemory::operator[]: the object in slot [index]; never throws *)
Definition RawMemory_subscript (m : RawMemory T) (index : nat)
    : outcome T Empty_set :=
  (* assert(index < capacity_); return buffer_[index]; *)
  if bool_decide (index < capacity_ m) then
    match buffer_ m !! index with
    | Some (Some x) => Return x
    | _ => Undefined
    end
  else Undefined.

(* Vector::operator[]: the element at [index]; never throws *)
Definition Vector_subscript (v : Vector T) (index : nat)
    : outcome T Empty_set :=
  (* assert(index < size_); return data_[index]; *)
  if bool_decide (index < size_ v) then RawMemory_subscript (data_ v) index
  else Undefined.

End Container.

(** ** The abstract view of a vector and its invariant *)

Section View.
Context {T : Type} `{Element T} `{Heap}.

(* the elements of the vector, in order *)
Definition contents (v : Vector T) : list T :=
  live_objects (take (size_ v) (buffer_ (data_ v))).

(* The invariant of the data model: the block has [capacity_] slots,
   [0 <= size_ <= capacity_], the slots [0, size_) hold live objects and
   the slots [size_, capacity_) are raw. *)
Definition Inv (v : Vector T) : Prop :=
  length (buffer_ (data_ v)) = capacity_ (data_ v) /\
  size_ v <= capacity_ (data_ v) /\
  (forall i, i < size_ v -> exists x, buffer_ (data_ v) !! i = Some (Some x)) /\
  (forall i, size_ v <= i -> i < capacity_ (data_ v) ->
             buffer_ (data_ v) !! i = Some None).

(* the vector that holds [xs] in a block of [c] slots *)
Definition vec (xs : list T) (c : nat) : Vector T :=
  mkVector (mkRawMemory ((Some <$> xs) ++ replicate (c - length xs) None) c)
           (length xs).

(* operator new satisfies the request for a block of [n] objects: the
   byte count [n * sizeof(T)] is within what the heap gives, so it does not
   wrap either *)
Definition allocates (n : nat) : Prop :=
  (Z.of_nat n * sizeof_T <= max_request)%Z.

(* no relocation of an element of [xs] throws, under the relocation policy
   of the element type *)
Definition relocatable (xs : list T) : Prop :=
  Forall (fun x => (if takes_move_path then move_throws x else copy_throws x)
                   = false) xs.

(* appending the elements of [xs] one by one with EmplaceBack, each from
   arguments that construct it without throwing; the result is the final
   vector and the capacity seen after each append, None when an append
   does not return *)
Fixpoint push_all (v : Vector T) (xs : list T) : option (Vector T * list nat) :=
  match xs with
  | [] => Some (v, [])
  | x :: xs' =>
      match EmplaceBack v (Some x) with
      | Return (_, v', _) =>
          match push_all v' xs' with
          | Some (v'', caps) => Some (v'', Capacity v' :: caps)
          | None => None
          end
      | _ => None
      end
  end.

(* the old block after its elements were relocated *)
Definition relocated_from (xs : list T) : list T :=
  if takes_move_path then moved_from <$> xs else xs.

(* the slots [pos, pos + length xs] after std::move_backward has moved
   [xs] one slot up, onto the object [z] behind it *)
Definition shifted_up (xs : list T) (z : T) : list T :=
  match xs with
  | [] => z
  | x :: _ => moved_from x
  end :: xs.

(* the slots [pos, pos + length xs] after std::move has moved [xs] one
   slot down, onto the object [y] in front of it *)
Definition shifted_down (y : T) (xs : list T) : list T :=
  xs ++ [match list.last xs with
         | None => y
         | Some l => moved_from l
         end].

(* Copy assignment as the specification words it: copy-and-swap when the
   source's size exceeds this array's capacity; otherwise, in place, assign
   over the overlapping prefix, destroy the trailing excess when the source
   is shorter, copy-construct the extra trailing elements into spare
   capacity when it is longer, and update size last. *)
Definition copy_assign_spec (this rhs : Vector T)
    : outcome (Vector T * effects T) (Vector T * effects T) :=
  if capacity_ (data_ this) <? size_ rhs then
    match Vector_copy rhs with
    | Return (full_copy, e) =>
        let '(this', old) := Swap this full_copy in
        let e' := Vector_destroy old in
        Return (this', mkEffects (stray_destroys e + stray_destroys e')
                                 (leaked e ++ leaked e'))
    | Throw e => Throw (this, e)
    | Undefined => Undefined
    end
  else
    let overlap := Nat.min (size_ this) (size_ rhs) in
    match copy (buffer_ (data_ rhs)) 0 overlap (buffer_ (data_ this)) 0 with
    | Return b =>
        let '(b1, s1) := destroy_n b (size_ rhs) (size_ this - size_ rhs) in
        match uninitialized_copy_n (buffer_ (data_ rhs)) overlap
                (size_ rhs - size_ this) b1 overlap with
        | Return b2 => Return (with_buffer this b2 (size_ rhs), mkEffects s1 [])
        | Throw (b2, s2) =>
            Throw (with_buffer this b2 (size_ this), mkEffects (s1 + s2) [])
        | Undefined => Undefined
        end
    | Throw b => Throw (with_buffer this b (size_ this), no_effects)
    | Undefined => Undefined
    end.

(* which slots of a block hold a live object *)
Definition occupancy (b : list (option T)) : list bool :=
  (fun s => match s with Some _ => true | None => false end) <$> b.

End View.

(* capacity after [k] appends to an empty vector under doubling: the least
   power of two that is at least [k] *)
Definition doubled_capacity (k : nat) : nat :=
  if k =? 0 then 0 else 2 ^ Nat.log2_up k.

(** ** Element types used as test subjects *)

(* a heap that satisfies every request of up to 2^40 bytes *)
Definition roomy_heap : Heap := {|
  max_request := 2 ^ 40;
  max_request_size_t := eq_refl
|}.

(* a heap that has 16 bytes to give *)
Definition cramped_heap : Heap := {|
  max_request := 16;
  max_request_size_t := eq_refl
|}.

(* [int]: trivially copyable, nothing throws, a move is a copy *)
Definition int_element : Element nat := {|
  is_nothrow_move_constructible := true;
  is_copy_constructible := true;
  copy_throws := fun _ => false;
  move_throws := fun _ => false;
  moved_from := fun x => x;
  copy_assign_throws := fun _ => false;
  move_assign_throws := fun _ => false;
  value_init := Some 0;
  sizeof_T := 4;
  nothrow_move_sound := fun _ _ => eq_refl;
  sizeof_T_pos := eq_refl
|}.

(* a copyable type whose copy throws on the value 13 and whose move
   constructor is not noexcept: relocated by copy *)
Definition throwing_copy_element : Element nat := {|
  is_nothrow_move_constructible := false;
  is_copy_constructible := true;
  copy_throws := fun x => x =? 13;
  move_throws := fun x => x =? 13;
  moved_from := fun _ => 0;
  copy_assign_throws := fun x => x =? 13;
  move_assign_throws := fun x => x =? 13;
  value_init := Some 0;
  sizeof_T := 4;
  nothrow_move_sound := fun e _ => match Bool.diff_false_true e with end;
  sizeof_T_pos := eq_refl
|}.

(* a move-only type whose move constructor throws on the value 13:
   relocated by move, because it cannot be copied *)
Definition move_only_element : Element nat := {|
  is_nothrow_move_constructible := false;
  is_copy_constructible := false;
  copy_throws := fun _ => true;
  move_throws := fun x => x =? 13;
  moved_from := fun _ => 0;
  copy_assign_throws := fun _ => true;
  move_assign_throws := fun x => x =? 13;
  value_init := Some 0;
  sizeof_T := 4;
  nothrow_move_sound := fun e _ => match Bool.diff_false_true e with end;
  sizeof_T_pos := eq_refl
|}.

(* a type without a usable default constructor: T() throws *)
Definition no_default_element : Element nat := {|
  is_nothrow_move_constructible := true;
  is_copy_constructible := true;
  copy_throws := fun _ => false;
  move_throws := fun _ => false;
  moved_from := fun x => x;
  copy_assign_throws := fun _ => false;
  move_assign_throws := fun _ => false;
  value_init := None;
  sizeof_T := 4;
  nothrow_move_sound := fun _ _ => eq_refl;
  sizeof_T_pos := eq_refl
|}.

(** * Properties *)

(* bounds checks that the run has passed *)
Ltac in_block :=
  repeat match goal with
         | H : bool_decide _ = true |- _ => apply bool_decide_eq_true_1 in H
         end;
  first [ assumption | lia ].

Section AlgorithmFacts.
Context {T : Type} `{Element T}.
Implicit Types (b pre post hole : list (option T)) (xs ys : list T).

Lemma live_objects_raw n : live_objects (replicate n (@None T)) = [].
Proof. induction n as [|n IH]; [done|]. exact IH. Qed.

Lemma live_objects_live xs : live_objects (Some <$> xs) = xs.
Proof.
  unfold live_objects. induction xs as [|x xs IH]; [done|].
  cbn. by rewrite IH.
Qed.

Lemma live_objects_cons x b : live_objects (Some x :: b) = x :: live_objects b.
Proof. done. Qed.

Lemma live_objects_app b1 b2 :
  live_objects (b1 ++ b2) = live_objects b1 ++ live_objects b2.
Proof. apply omap_app. Qed.

Lemma lookup_after pre (s : option T) post :
  (pre ++ s :: post) !! length pre = Some s.
Proof. by rewrite list_lookup_middle. Qed.

Lemma insert_after pre (s s' : option T) post :
  <[length pre := s']> (pre ++ s :: post) = pre ++ s' :: post.
Proof.
  rewrite insert_app_r_alt by lia. by rewrite Nat.sub_diag.
Qed.

Lemma destroy_at_live pre x post :
  destroy_at (pre ++ Some x :: post) (length pre) = (pre ++ None :: post, 0).
Proof.
  unfold destroy_at. by rewrite lookup_after, insert_after.
Qed.

Lemma snoc_app {A} (l : list A) a l' : l ++ a :: l' = (l ++ [a]) ++ l'.
Proof. by rewrite <- app_assoc. Qed.

Lemma destroy_n_live xs : forall pre post,
  destroy_n (pre ++ (Some <$> xs) ++ post) (length pre) (length xs)
  = (pre ++ replicate (length xs) None ++ post, 0).
Proof.
  induction xs as [|x xs IH]; intros pre post; [done|].
  cbn [destroy_n length fmap list_fmap app].
  rewrite destroy_at_live.
  rewrite (snoc_app pre None).
  replace (S (length pre)) with (length (pre ++ [@None T])) by (rewrite length_app; cbn; lia).
  rewrite IH. cbn. by rewrite <- app_assoc.
Qed.

(* every copy in the batch succeeds *)
Lemma uninitialized_copy_from_ok xs : forall spre spost dpre hole dpost d_start,
  Forall (fun x => copy_throws x = false) xs ->
  length hole = length xs ->
  uninitialized_copy_from (spre ++ (Some <$> xs) ++ spost) (length spre)
    (length xs) (dpre ++ hole ++ dpost) d_start (length dpre)
  = Return (dpre ++ (Some <$> xs) ++ dpost).
Proof.
  induction xs as [|x xs IH]; intros spre spost dpre hole dpost d_start Hok Hlen.
  - destruct hole; [done | discriminate].
  - destruct hole as [|h hole]; [discriminate|].
    apply Forall_cons_1 in Hok as [Hx Hok].
    cbn [length fmap list_fmap app uninitialized_copy_from].
    rewrite lookup_after, Hx.
    rewrite bool_decide_true by (rewrite length_app; cbn; lia).
    rewrite insert_after.
    rewrite (snoc_app spre), (snoc_app dpre).
    replace (S (length spre)) with (length (spre ++ [Some x]))
      by (rewrite length_app; cbn; lia).
    replace (S (length dpre)) with (length (dpre ++ [Some x]))
      by (rewrite length_app; cbn; lia).
    rewrite (IH _ _ _ hole) by (done || (cbn in Hlen; lia)).
    by rewrite <- app_assoc.
Qed.

(* the copy of [x] throws after the copies of [xs1] were made: the copies
   are destroyed again, nothing else is touched *)
Lemma uninitialized_copy_from_throw xs1 : forall x xs2 ys spre spost dpre hole dpost,
  Forall (fun x => copy_throws x = false) xs1 ->
  copy_throws x = true ->
  length xs1 < length hole ->
  uninitialized_copy_from (spre ++ (Some <$> xs1 ++ x :: xs2) ++ spost)
    (length spre) (length (xs1 ++ x :: xs2))
    (dpre ++ (Some <$> ys) ++ hole ++ dpost)
    (length dpre) (length dpre + length ys)
  = Throw (dpre ++ replicate (length ys + length xs1) None
                ++ drop (length xs1) hole ++ dpost, 0).
Proof.
  induction xs1 as [|a xs1 IH];
    intros x xs2 ys spre spost dpre hole dpost Hok Hx Hlen.
  - cbn [length app fmap list_fmap uninitialized_copy_from].
    rewrite lookup_after, Hx.
    replace (length dpre + length ys - length dpre) with (length ys) by lia.
    rewrite destroy_n_live. rewrite Nat.add_0_r. by rewrite drop_0.
  - apply Forall_cons_1 in Hok as [Ha Hok].
    destruct hole as [|h hole]; [cbn in Hlen; lia|].
    cbn [length app fmap list_fmap uninitialized_copy_from].
    rewrite lookup_after, Ha.
    rewrite bool_decide_true by (rewrite !length_app, length_fmap; cbn; lia).
    replace (dpre ++ (Some <$> ys) ++ (h :: hole) ++ dpost)
      with ((dpre ++ (Some <$> ys)) ++ h :: hole ++ dpost)
      by (by rewrite <- app_assoc).
    replace (length dpre + length ys) with (length (dpre ++ (Some <$> ys)))
      by (by rewrite length_app, length_fmap).
    rewrite insert_after.
    rewrite (snoc_app spre).
    replace (S (length spre)) with (length (spre ++ [Some a]))
      by (rewrite length_app; cbn; lia).
    replace ((dpre ++ (Some <$> ys)) ++ Some a :: hole ++ dpost)
      with (dpre ++ (Some <$> (ys ++ [a])) ++ hole ++ dpost)
      by (rewrite fmap_app, <- !app_assoc; done).
    replace (S (length (dpre ++ (Some <$> ys))))
      with (length dpre + length (ys ++ [a]))
      by (rewrite !length_app, length_fmap; cbn; lia).
    rewrite IH by (done || (cbn in Hlen; lia)).
    rewrite length_app. cbn [length drop].
    by replace (length ys + 1 + length xs1) with (length ys + S (length xs1)) by lia.
Qed.

(* every move in the batch succeeds *)
Lemma uninitialized_move_from_ok xs : forall spre spost dpre hole dpost d_start,
  Forall (fun x => move_throws x = false) xs ->
  length hole = length xs ->
  uninitialized_move_from (spre ++ (Some <$> xs) ++ spost) (length spre)
    (length xs) (dpre ++ hole ++ dpost) d_start (length dpre)
  = Return (spre ++ (Some <$> (moved_from <$> xs)) ++ spost,
            dpre ++ (Some <$> xs) ++ dpost).
Proof.
  induction xs as [|x xs IH]; intros spre spost dpre hole dpost d_start Hok Hlen.
  - destruct hole; [done | discriminate].
  - destruct hole as [|h hole]; [discriminate|].
    apply Forall_cons_1 in Hok as [Hx Hok].
    cbn [length fmap list_fmap app uninitialized_move_from].
    rewrite lookup_after, Hx.
    rewrite bool_decide_true by (rewrite length_app; cbn; lia).
    rewrite !insert_after.
    rewrite (snoc_app spre), (snoc_app dpre).
    replace (S (length spre)) with (length (spre ++ [Some (moved_from x)]))
      by (rewrite length_app; cbn; lia).
    replace (S (length dpre)) with (length (dpre ++ [Some x]))
      by (rewrite length_app; cbn; lia).
    rewrite (IH _ _ _ hole) by (done || (cbn in Hlen; lia)).
    by rewrite <- !app_assoc.
Qed.

(* every copy assignment in the batch succeeds *)
Lemma copy_ok xs : forall spre spost dpre ys dpost,
  Forall (fun x => copy_assign_throws x = false) xs ->
  length ys = length xs ->
  copy (spre ++ (Some <$> xs) ++ spost) (length spre) (length xs)
    (dpre ++ (Some <$> ys) ++ dpost) (length dpre)
  = Return (dpre ++ (Some <$> xs) ++ dpost).
Proof.
  induction xs as [|x xs IH]; intros spre spost dpre ys dpost Hok Hlen.
  - destruct ys; [done | discriminate].
  - destruct ys as [|y ys]; [discriminate|].
    apply Forall_cons_1 in Hok as [Hx Hok].
    cbn [length fmap list_fmap app copy].
    rewrite !lookup_after, Hx, insert_after.
    rewrite (snoc_app spre), (snoc_app dpre).
    replace (S (length spre)) with (length (spre ++ [Some x]))
      by (rewrite length_app; cbn; lia).
    replace (S (length dpre)) with (length (dpre ++ [Some x]))
      by (rewrite length_app; cbn; lia).
    rewrite (IH _ _ _ ys) by (done || (cbn in Hlen; lia)).
    by rewrite <- app_assoc.
Qed.

(* value construction of a batch *)
Lemma uninitialized_value_construct_from_ok x n : forall pre hole post start,
  value_init = Some x ->
  length hole = n ->
  uninitialized_value_construct_from (pre ++ hole ++ post) start (length pre) n
  = Return (pre ++ replicate n (Some x) ++ post).
Proof.
  induction n as [|n IH]; intros pre hole post start Hx Hlen.
  - destruct hole; [done | discriminate].
  - destruct hole as [|h hole]; [discriminate|].
    cbn [uninitialized_value_construct_from app]. rewrite Hx.
    rewrite bool_decide_true by (rewrite length_app; cbn; lia).
    rewrite insert_after, (snoc_app pre).
    replace (S (length pre)) with (length (pre ++ [Some x]))
      by (rewrite length_app; cbn; lia).
    rewrite (IH _ hole) by (done || (cbn in Hlen; lia)).
    by rewrite <- app_assoc.
Qed.

End AlgorithmFacts.
Section ContainerFacts.
Context {T : Type} `{Element T} `{Heap}.
Implicit Types (v : Vector T) (xs ys : list T) (c : nat).

(** *** Requests the heap satisfies *)

Lemma allocates_mono (m n : nat) : m <= n -> allocates n -> allocates m.
Proof.
  unfold allocates. intros Hle Hn. pose proof sizeof_T_pos. nia.
Qed.

Lemma allocates_size_t (n : nat) : allocates n -> (Z.of_nat n < 2 ^ 64)%Z.
Proof.
  unfold allocates. intros Hn.
  pose proof sizeof_T_pos. pose proof max_request_size_t. nia.
Qed.

Lemma allocates_doubling (n : nat) :
  allocates (Nat.max 1 (2 * n)) -> (Z.of_nat n * 2 < 2 ^ 64)%Z.
Proof. intros Hn. apply allocates_size_t in Hn. lia. Qed.

Lemma Allocate_ok (n : nat) : allocates n -> Allocate n = Some (replicate n None).
Proof.
  unfold allocates, Allocate. intros Hn.
  destruct (Nat.eqb_spec n 0) as [->|Hn0]; [done|].
  pose proof sizeof_T_pos as Hpos. pose proof max_request_size_t as Hmax.
  rewrite Z.mod_small by nia.
  rewrite (proj2 (Z.leb_le _ _) Hn).
  by rewrite Z.div_mul, Nat2Z.id by lia.
Qed.

Lemma RawMemory_new_ok (n : nat) :
  allocates n -> RawMemory_new n = Some (mkRawMemory (replicate n None) n).
Proof. intros Hn. unfold RawMemory_new. by rewrite Allocate_ok. Qed.

(* a block handed out by Allocate has at most the slots asked for *)
Lemma Allocate_length (n : nat) b : Allocate n = Some b -> length b <= n.
Proof.
  unfold Allocate. intros Hb. pose proof sizeof_T_pos as Hpos.
  destruct (n =? 0); [simplify_eq; cbn; lia|].
  destruct (_ <=? _)%Z; simplify_eq. rewrite length_replicate.
  apply Nat2Z.inj_le. rewrite Z2Nat.id by (apply Z.div_pos; [|done];
    by apply Z.mod_pos_bound).
  apply Z.div_le_upper_bound; [done|].
  pose proof (Z.mod_le (Z.of_nat n * sizeof_T) (2 ^ 64)). nia.
Qed.

(* a block handed out by Allocate is raw *)
Lemma Allocate_raw (n : nat) b :
  Allocate n = Some b -> b = replicate (length b) None.
Proof.
  unfold Allocate. intros Hb. repeat case_match; simplify_eq; [done|].
  by rewrite length_replicate.
Qed.

(** *** The abstract view *)

Lemma contents_vec xs c : contents (vec xs c) = xs.
Proof.
  unfold contents, vec; cbn.
  rewrite take_app_length' by (by rewrite length_fmap).
  apply live_objects_live.
Qed.

Lemma Inv_vec xs c : length xs <= c -> Inv (vec xs c).
Proof.
  intros Hc. unfold Inv, vec; cbn. repeat split.
  - rewrite length_app, length_fmap, length_replicate. lia.
  - done.
  - intros i Hi. destruct (lookup_lt_is_Some_2 xs i Hi) as [x Hx].
    exists x. rewrite lookup_app_l by (by rewrite length_fmap).
    by rewrite list_lookup_fmap, Hx.
  - intros i Hi Hic. rewrite lookup_app_r by (rewrite length_fmap; lia).
    rewrite length_fmap. apply lookup_replicate_2. lia.
Qed.

Lemma all_live (b : list (option T)) :
  Forall is_Some b -> b = Some <$> live_objects b.
Proof.
  induction 1 as [|s b [x ->] _ IH]; [done|].
  cbn. f_equal. exact IH.
Qed.

Lemma all_raw (b : list (option T)) :
  Forall (fun s => s = None) b -> b = replicate (length b) None.
Proof.
  induction 1 as [|s b -> _ IH]; [done|].
  cbn. f_equal. exact IH.
Qed.

(* a vector that satisfies the invariant is determined by its elements
   and its capacity *)
Lemma Inv_is_vec v :
  Inv v ->
  v = vec (contents v) (Capacity v) /\ length (contents v) = size_ v /\
  size_ v <= Capacity v.
Proof.
  destruct v as [[b c] n]. unfold Inv, contents, vec, Capacity; cbn.
  intros (Hlen & Hn & Hlive & Hraw).
  assert (Htake : take n b = Some <$> live_objects (take n b)).
  { apply all_live, Forall_lookup. intros i s Hs.
    apply lookup_take_Some in Hs as [Hs Hi].
    destruct (Hlive i Hi) as [x Hx]. rewrite Hx in Hs.
    injection Hs as <-. by eexists. }
  assert (Hdrop : drop n b = replicate (c - n) None).
  { rewrite <- Hlen, <- length_drop. apply all_raw, Forall_lookup.
    intros i s Hs. rewrite lookup_drop in Hs.
    assert (n + i < c) by (rewrite <- Hlen; by eapply lookup_lt_Some).
    rewrite Hraw in Hs by lia. by injection Hs. }
  assert (Hsize : length (live_objects (take n b)) = n).
  { rewrite <- (length_fmap Some), <- Htake, length_take. lia. }
  split; [|done].
  change (omap id (take n b)) with (live_objects (take n b)).
  rewrite Hsize, <- Htake, <- Hdrop, take_drop. done.
Qed.

Lemma Inv_iff v :
  Inv v <-> exists xs c, v = vec xs c /\ length xs <= c.
Proof.
  split.
  - intros Hv. destruct (Inv_is_vec v Hv) as (Heq & Hlen & Hc).
    exists (contents v), (Capacity v). split; [done | lia].
  - intros (xs & c & -> & Hc). by apply Inv_vec.
Qed.


(** *** Machine integers in range *)

Lemma size_t_wrap_small (z : Z) :
  (0 <= z < 2 ^ 64)%Z -> size_t_wrap z = Z.to_nat z.
Proof. intros Hz. unfold size_t_wrap. by rewrite Z.mod_small. Qed.

Lemma to_int_small (z : Z) :
  (- 2 ^ 31 <= z < 2 ^ 31)%Z -> to_int z = z.
Proof. intros Hz. unfold to_int. rewrite Z.mod_small; lia. Qed.

Lemma grown_capacity_small (n : nat) :
  (Z.of_nat n * 2 < 2 ^ 64)%Z -> grown_capacity n = Nat.max 1 (2 * n).
Proof.
  intros Hn. unfold grown_capacity.
  destruct (Nat.eqb_spec n 0) as [->|Hn0]; [done|].
  rewrite size_t_wrap_small by lia. lia.
Qed.

(** *** Relocation into a fresh block *)

Lemma raw_split (n k : nat) :
  k <= n -> replicate n (@None T) = replicate k None ++ replicate (n - k) None.
Proof. intros Hk. rewrite <- replicate_add. f_equal. lia. Qed.

Lemma insert_raw (n i : nat) (s : option T) :
  i < n ->
  <[i := s]> (replicate n None)
  = replicate i None ++ s :: replicate (n - S i) None.
Proof.
  intros Hi. rewrite (raw_split n i) by lia.
  replace (n - i) with (S (n - S i)) by lia. cbn [replicate].
  rewrite <- (length_replicate i (@None T)) at 1.
  by rewrite insert_after.
Qed.

Lemma length_relocated_from xs : length (relocated_from xs) = length xs.
Proof. unfold relocated_from. destruct takes_move_path; by rewrite ?length_fmap. Qed.

Lemma relocate_n_ok xs spre spost dpre hole dpost :
  relocatable xs ->
  length hole = length xs ->
  relocate_n (spre ++ (Some <$> xs) ++ spost) (length spre) (length xs)
             (dpre ++ hole ++ dpost) (length dpre)
  = Return (spre ++ (Some <$> relocated_from xs) ++ spost,
            dpre ++ (Some <$> xs) ++ dpost).
Proof.
  unfold relocatable, relocate_n, relocated_from,
    uninitialized_move_n, uninitialized_copy_n.
  intros Hok Hlen. destruct takes_move_path.
  - by apply uninitialized_move_from_ok.
  - by rewrite (uninitialized_copy_from_ok xs _ _ _ hole).
Qed.

(* relocation out of a vector: source range at the start of the block *)
Lemma relocate_n_front xs spost hole dpost :
  relocatable xs ->
  length hole = length xs ->
  relocate_n ((Some <$> xs) ++ spost) 0 (length xs) (hole ++ dpost) 0
  = Return ((Some <$> relocated_from xs) ++ spost, (Some <$> xs) ++ dpost).
Proof. intros. by apply (relocate_n_ok xs [] spost [] hole dpost). Qed.

Lemma destroy_n_front xs post :
  destroy_n ((Some <$> xs) ++ post) 0 (length xs)
  = (replicate (length xs) None ++ post, 0).
Proof. apply (destroy_n_live xs [] post). Qed.

Lemma destroy_n_behind ys xs post :
  destroy_n ((Some <$> ys) ++ (Some <$> xs) ++ post) (length ys) (length xs)
  = ((Some <$> ys) ++ replicate (length xs) None ++ post, 0).
Proof. rewrite <- (length_fmap Some ys). apply destroy_n_live. Qed.

Lemma uninitialized_copy_n_behind xs ys zs spost hole dpost :
  Forall (fun x => copy_throws x = false) xs ->
  length hole = length xs ->
  length ys = length zs ->
  uninitialized_copy_n ((Some <$> ys) ++ (Some <$> xs) ++ spost) (length ys)
    (length xs) ((Some <$> zs) ++ hole ++ dpost) (length ys)
  = Return ((Some <$> zs) ++ (Some <$> xs) ++ dpost).
Proof.
  intros Hok Hhole Hlen. unfold uninitialized_copy_n.
  rewrite Hlen at 2 3. rewrite <- (length_fmap Some ys), <- (length_fmap Some zs).
  by apply uninitialized_copy_from_ok.
Qed.

Lemma live_objects_raw_app n m :
  live_objects (replicate n (@None T) ++ replicate m None) = [].
Proof. by rewrite live_objects_app, !live_objects_raw. Qed.

(** *** Reserve *)

Lemma Reserve_noop v c :
  c <= Capacity v -> Reserve v c = Return (v, no_effects).
Proof.
  intros Hc. unfold Reserve, Capacity in *.
  by rewrite (proj2 (Nat.leb_le _ _) Hc).
Qed.

Lemma Reserve_grow xs c c' :
  length xs <= c -> c < c' -> allocates c' -> relocatable xs ->
  Reserve (vec xs c) c' = Return (vec xs c', no_effects).
Proof.
  intros Hc Hc' Halloc Hok. unfold Reserve, vec; cbn [data_ size_ buffer_ capacity_].
  rewrite (proj2 (Nat.leb_gt _ _) Hc').
  rewrite RawMemory_new_ok by done; cbn [buffer_ capacity_].
  rewrite (raw_split c' (length xs)) by lia.
  rewrite relocate_n_front by (done || by rewrite length_replicate).
  rewrite <- (length_relocated_from xs), destroy_n_front, length_relocated_from.
  unfold RawMemory_Swap, RawMemory_release; cbn [buffer_ capacity_].
  by rewrite live_objects_raw_app.
Qed.


(** *** EmplaceBack *)

Lemma vec_snoc xs x c :
  length xs < c ->
  mkVector (mkRawMemory ((Some <$> xs) ++ Some x :: replicate (c - S (length xs)) None) c)
           (length xs + 1)
  = vec (xs ++ [x]) c.
Proof.
  intros Hc. unfold vec. rewrite fmap_app, length_app, <- app_assoc. cbn.
  by replace (c - (length xs + 1)) with (c - S (length xs)) by lia.
Qed.

Lemma insert_behind xs (s s' : option T) post :
  <[length xs := s']> ((Some <$> xs) ++ s :: post) = (Some <$> xs) ++ s' :: post.
Proof. rewrite <- (length_fmap Some xs). apply insert_after. Qed.

Lemma lookup_behind xs (s : option T) post :
  ((Some <$> xs) ++ s :: post) !! length xs = Some s.
Proof. rewrite <- (length_fmap Some xs). apply lookup_after. Qed.

(* no growth: the element goes into the next free slot *)
Lemma EmplaceBack_in_place xs c x :
  length xs < c ->
  EmplaceBack (vec xs c) (Some x)
  = Return (length xs, vec (xs ++ [x]) c, no_effects).
Proof.
  intros Hc. unfold EmplaceBack, Capacity, vec, with_buffer;
    cbn [data_ size_ buffer_ capacity_].
  rewrite (proj2 (Nat.eqb_neq (length xs) c)) by lia.
  rewrite bool_decide_true
    by (rewrite length_app, length_fmap, length_replicate; lia).
  cbn [data_ size_ buffer_ capacity_].
  rewrite bool_decide_true by lia.
  replace (c - length xs) with (S (c - S (length xs))) by lia. cbn [replicate].
  rewrite insert_behind.
  replace (length xs + 1 - 1) with (length xs) by lia.
  by rewrite vec_snoc.
Qed.

(* growth: the block is replaced by one of [grown_capacity] slots *)
Lemma EmplaceBack_grow xs x :
  relocatable xs ->
  allocates (Nat.max 1 (2 * length xs)) ->
  EmplaceBack (vec xs (length xs)) (Some x)
  = Return (length xs, vec (xs ++ [x]) (Nat.max 1 (2 * length xs)), no_effects).
Proof.
  intros Hok Halloc. pose proof (allocates_doubling _ Halloc) as Hsmall.
  unfold EmplaceBack, Capacity, vec, with_buffer;
    cbn [data_ size_ buffer_ capacity_].
  rewrite Nat.eqb_refl, grown_capacity_small by done.
  set (c' := Nat.max 1 (2 * length xs)).
  assert (Hc' : length xs < c') by lia.
  rewrite RawMemory_new_ok by done; cbn [buffer_ capacity_].
  rewrite bool_decide_true by (rewrite length_replicate; lia).
  rewrite insert_raw by done.
  rewrite relocate_n_front by (done || by rewrite length_replicate).
  rewrite <- (length_relocated_from xs), destroy_n_front, length_relocated_from.
  unfold RawMemory_Swap, RawMemory_release; cbn [buffer_ capacity_ data_ size_].
  rewrite live_objects_raw_app.
  rewrite bool_decide_true by lia.
  replace (length xs + 1 - 1) with (length xs) by lia.
  by rewrite vec_snoc.
Qed.


Lemma relocatable_app xs ys : relocatable (xs ++ ys) -> relocatable xs.
Proof. unfold relocatable. rewrite Forall_app. tauto. Qed.

Lemma EmplaceBack_ok xs c x :
  length xs <= c ->
  (length xs = c -> relocatable xs /\ allocates (Nat.max 1 (2 * c))) ->
  EmplaceBack (vec xs c) (Some x)
  = Return (length xs,
            vec (xs ++ [x]) (if length xs =? c then Nat.max 1 (2 * c) else c),
            no_effects).
Proof.
  intros Hc Hgrow. destruct (Nat.eqb_spec (length xs) c) as [Heq|Hne].
  - destruct (Hgrow Heq) as [Hok Hsmall]. subst c.
    by apply EmplaceBack_grow.
  - apply EmplaceBack_in_place. lia.
Qed.

(** *** Doubling *)

Lemma doubled_capacity_ge k : k <= doubled_capacity k.
Proof.
  unfold doubled_capacity. destruct (Nat.eqb_spec k 0) as [->|Hk]; [done|].
  destruct (decide (k = 1)) as [->|Hk1]; [done|].
  apply Nat.log2_up_spec. lia.
Qed.

Lemma doubled_capacity_step k :
  (if k =? doubled_capacity k then Nat.max 1 (2 * doubled_capacity k)
   else doubled_capacity k) = doubled_capacity (S k).
Proof.
  destruct (decide (k = 0)) as [->|Hk0]; [done|].
  destruct (decide (k = 1)) as [->|Hk1]; [done|].
  unfold doubled_capacity.
  rewrite (proj2 (Nat.eqb_neq k 0)), (proj2 (Nat.eqb_neq (S k) 0)) by lia.
  destruct (Nat.log2_up_spec k) as [Hlo Hhi]; [lia|].
  set (j := Nat.log2_up k) in *.
  assert (Hj : 0 < j).
  { destruct j; [|lia]. cbn in Hhi. lia. }
  destruct (Nat.eqb_spec k (2 ^ j)) as [Heq|Hne].
  - rewrite (Nat.log2_up_unique (S k) (S j)).
    + rewrite Nat.pow_succ_r'. lia.
    + lia.
    + cbn [Nat.pred]. rewrite Nat.pow_succ_r'. lia.
  - rewrite (Nat.log2_up_unique (S k) j); [done | done | lia].
Qed.

Lemma doubled_capacity_mono k k' :
  k <= k' -> doubled_capacity k <= doubled_capacity k'.
Proof.
  intros Hk. unfold doubled_capacity.
  destruct (Nat.eqb_spec k 0) as [->|Hk0]; [lia|].
  rewrite (proj2 (Nat.eqb_neq k' 0)) by lia.
  apply Nat.pow_le_mono_r; [lia|]. by apply Nat.log2_up_le_mono.
Qed.

Lemma push_all_doubling xs : forall ys,
  relocatable (ys ++ xs) ->
  allocates (doubled_capacity (length (ys ++ xs))) ->
  push_all (vec ys (doubled_capacity (length ys))) xs
  = Some (vec (ys ++ xs) (doubled_capacity (length (ys ++ xs))),
          doubled_capacity <$> seq (S (length ys)) (length xs)).
Proof.
  induction xs as [|x xs IH]; intros ys Hok Halloc.
  - cbn. by rewrite app_nil_r.
  - cbn [push_all].
    assert (Hlen : length (ys ++ x :: xs) = S (length ys + length xs))
      by (rewrite length_app; cbn; lia).
    rewrite EmplaceBack_ok; first last.
    + intros Heq. split; [by eapply relocatable_app|].
      pose proof (doubled_capacity_step (length ys)) as Hstep.
      rewrite (proj2 (Nat.eqb_eq _ _) Heq) in Hstep. rewrite Hstep.
      eapply allocates_mono; [|exact Halloc].
      apply doubled_capacity_mono. lia.
    + apply doubled_capacity_ge.
    + rewrite doubled_capacity_step.
      replace (S (length ys)) with (length (ys ++ [x]))
        by (rewrite length_app; cbn; lia).
      rewrite IH; rewrite <- ?app_assoc; [|done..].
      unfold Capacity, vec; cbn [data_ capacity_]. done.
Qed.


(** *** A copy that throws during Reserve *)

Lemma first_throw (f : T -> bool) xs :
  Exists (fun x => f x = true) xs ->
  exists xs1 x xs2,
    xs = xs1 ++ x :: xs2 /\ Forall (fun x => f x = false) xs1 /\ f x = true.
Proof.
  induction xs as [|a xs IH]; intros Hex; [by apply Exists_nil in Hex|].
  destruct (f a) eqn:Ha.
  - by exists [], a, xs.
  - apply Exists_cons in Hex as [Hex|Hex]; [congruence|].
    destruct (IH Hex) as (xs1 & x & xs2 & -> & Hok & Hx).
    exists (a :: xs1), x, xs2. split; [done|]. split; [|done].
    by apply Forall_cons.
Qed.

Lemma with_buffer_same v : with_buffer v (buffer_ (data_ v)) (size_ v) = v.
Proof. by destruct v as [[b c] n]. Qed.

Lemma Reserve_copy_throws xs c c' :
  takes_move_path = false ->
  length xs <= c -> c < c' -> allocates c' ->
  Exists (fun x => copy_throws x = true) xs ->
  Reserve (vec xs c) c' = Throw (vec xs c, no_effects).
Proof.
  intros Hpath Hc Hc' Halloc Hex.
  destruct (first_throw _ _ Hex) as (xs1 & x & xs2 & -> & Hok & Hx).
  unfold Reserve. rewrite (proj2 (Nat.leb_gt c' (capacity_ (data_ (vec _ c))))) by done.
  unfold relocate_n, uninitialized_copy_n. rewrite Hpath.
  unfold vec at 1 2 3; cbn [data_ size_ buffer_ capacity_].
  rewrite RawMemory_new_ok by done; cbn [buffer_ capacity_].
  pose proof (uninitialized_copy_from_throw xs1 x xs2 [] [] 
                (replicate (c - length (xs1 ++ x :: xs2)) None) []
                (replicate c' None) [] Hok Hx) as Hthrow.
  cbn [app length fmap list_fmap Nat.add] in Hthrow.
  rewrite !app_nil_r in Hthrow.
  rewrite Hthrow.
  - rewrite live_objects_app, live_objects_raw, drop_replicate, live_objects_raw.
    by rewrite with_buffer_same.
  - rewrite length_replicate. rewrite length_app in Hc. cbn in Hc. lia.
Qed.

(** [C5, amended] Reserve(c) with c <= capacity changes nothing: same
    size, same elements, same capacity.  With c > capacity, when operator
    new satisfies the request for c * sizeof(T) bytes (so the byte count
    does not wrap) and no element operation fails during the relocation, it
    returns a vector of capacity exactly c with the same size and the same
    elements in the same order, and the result satisfies the invariant
    again. *)
Theorem Reserve_capacity_and_contents (v : Vector T) (c : nat) :
  Inv v ->
  (c <= Capacity v -> Reserve v c = Return (v, no_effects)) /\
  (Capacity v < c -> allocates c -> relocatable (contents v) ->
   exists v', Reserve v c = Return (v', no_effects) /\
              Capacity v' = c /\ Size v' = Size v /\
              contents v' = contents v /\ Inv v').
Proof.
  intros Hv. split; [apply Reserve_noop|].
  intros Hc Halloc Hok. destruct (Inv_is_vec v Hv) as (Heq & Hlen & Hcap).
  exists (vec (contents v) c). split; [|split; [|split; [|split]]].
  - rewrite Heq at 1. apply Reserve_grow; [lia | done | done | done].
  - done.
  - unfold Size, vec; cbn. done.
  - apply contents_vec.
  - apply Inv_vec. lia.
Qed.

(** [C6, amended] When Reserve has to grow, has obtained the new block
    (operator new satisfies the request for c * sizeof(T) bytes, so the
    byte count does not wrap) and relocates by copy, a copy that throws
    leaves the vector exactly as it was (same block, size and capacity,
    nothing leaked, no stray destructor call) and the exception reaches the
    caller.  When the move path is taken because the move constructor is
    noexcept, Reserve returns. *)
Theorem Reserve_strong_guarantee (v : Vector T) (c : nat) :
  Inv v -> Capacity v < c -> allocates c ->
  (takes_move_path = false ->
   Exists (fun x => copy_throws x = true) (contents v) ->
   Reserve v c = Throw (v, no_effects)) /\
  (is_nothrow_move_constructible = true ->
   exists v', Reserve v c = Return (v', no_effects) /\
              contents v' = contents v /\ Capacity v' = c).
Proof.
  intros Hv Hc Halloc. destruct (Inv_is_vec v Hv) as (Heq & Hlen & Hcap). split.
  - intros Hpath Hex. rewrite Heq at 1 2.
    apply Reserve_copy_throws; [done | lia | done | done | done].
  - intros Hnothrow. exists (vec (contents v) c).
    split; [|split; [apply contents_vec | done]].
    rewrite Heq at 1. apply Reserve_grow; [lia | done | done |].
    unfold relocatable, takes_move_path. rewrite Hnothrow. cbn.
    apply Forall_forall. intros x _. by apply nothrow_move_sound.
Qed.

(** [C7] EmplaceBack keeps the capacity while size < capacity and, when
    size == capacity, replaces the block by one of max(1, 2 * size) slots;
    so appending the elements of a list one by one to a default-constructed
    vector shows, after the k-th append, the least power of two that is at
    least k: 1, 2, 4, 4, 8, 8, 8, 8, 16, ...  Where the block is replaced,
    operator new is taken to satisfy the request for the new block. *)
Theorem EmplaceBack_capacity_doubling :
  (forall (v : Vector T) (x : T),
     Inv v ->
     (Size v = Capacity v ->
      relocatable (contents v) /\ allocates (Nat.max 1 (2 * Size v))) ->
     exists v', EmplaceBack v (Some x) = Return (Size v, v', no_effects) /\
                Inv v' /\ contents v' = contents v ++ [x] /\
                Capacity v' = (if Size v =? Capacity v
                               then Nat.max 1 (2 * Size v) else Capacity v)) /\
  (forall xs : list T,
     relocatable xs -> allocates (doubled_capacity (length xs)) ->
     exists v', push_all Vector_default xs
                = Some (v', doubled_capacity <$> seq 1 (length xs)) /\
                contents v' = xs /\
                Capacity v' = doubled_capacity (length xs)).
Proof.
  split.
  - intros v x Hv Hgrow. destruct (Inv_is_vec v Hv) as (Heq & Hlen & Hcap).
    unfold Size in *.
    exists (vec (contents v ++ [x])
                (if size_ v =? Capacity v then Nat.max 1 (2 * size_ v)
                 else Capacity v)).
    split; [|split; [|split]].
    + rewrite Heq at 1. rewrite EmplaceBack_ok; rewrite ?Hlen; [| lia |].
      * destruct (Nat.eqb_spec (size_ v) (Capacity v)) as [<-|]; done.
      * intros Hfull. destruct (Hgrow Hfull) as [Hok Hsmall].
        split; [done|]. rewrite <- Hfull. done.
    + apply Inv_vec. rewrite length_app, Hlen. cbn.
      destruct (Nat.eqb_spec (size_ v) (Capacity v)); lia.
    + apply contents_vec.
    + done.
  - intros xs Hok Hsmall.
    exists (vec xs (doubled_capacity (length xs))).
    split; [|split; [apply contents_vec | done]].
    apply (push_all_doubling xs []); done.
Qed.


(** *** Copy construction and copy assignment *)

Lemma Vector_copy_ok xs c :
  allocates (length xs) ->
  Forall (fun x => copy_throws x = false) xs ->
  Vector_copy (vec xs c) = Return (vec xs (length xs), no_effects).
Proof.
  intros Halloc Hok. unfold Vector_copy, uninitialized_copy_n, vec;
    cbn [data_ size_ buffer_ capacity_].
  rewrite RawMemory_new_ok by done; cbn [buffer_ capacity_].
  pose proof (uninitialized_copy_from_ok xs [] (replicate (c - length xs) None)
                [] (replicate (length xs) None) [] 0 Hok) as Hcopy.
  cbn [app length] in Hcopy. rewrite !app_nil_r in Hcopy.
  rewrite Hcopy by apply length_replicate.
  by rewrite Nat.sub_diag, app_nil_r.
Qed.

Lemma Vector_destroy_vec xs c : Vector_destroy (vec xs c) = no_effects.
Proof.
  unfold Vector_destroy, vec; cbn [data_ size_ buffer_ capacity_].
  rewrite destroy_n_front. by rewrite live_objects_raw_app.
Qed.

(* the source does not fit: copy and swap *)
Lemma copy_assign_swap xs c ys c' :
  allocates (length ys) ->
  Forall (fun x => copy_throws x = false) ys ->
  c < length ys ->
  copy_assign (vec xs c) (vec ys c') = Return (vec ys (length ys), no_effects).
Proof.
  intros Halloc Hok Hc. unfold copy_assign.
  rewrite (proj2 (Nat.ltb_lt (capacity_ (data_ (vec xs c))) (size_ (vec ys c'))))
    by done.
  rewrite Vector_copy_ok by done.
  unfold Swap, RawMemory_Swap.
  cbn [data_ size_ buffer_ capacity_ vec].
  change (mkVector (mkRawMemory ((Some <$> xs) ++ replicate (c - length xs) None) c)
                   (length xs)) with (vec xs c).
  by rewrite Vector_destroy_vec.
Qed.

(* the source fits and is shorter: assign, then destroy the excess *)
Lemma copy_assign_shrink xs c ys c' :
  Forall (fun x => copy_assign_throws x = false) ys ->
  length xs <= c -> length ys < length xs ->
  copy_assign (vec xs c) (vec ys c') = Return (vec ys c, no_effects).
Proof.
  intros Hok Hc Hlen. unfold copy_assign, vec, with_buffer;
    cbn [data_ size_ buffer_ capacity_].
  rewrite (proj2 (Nat.ltb_ge c (length ys))) by lia.
  rewrite (proj2 (Nat.ltb_lt (length ys) (length xs))) by done.
  rewrite <- (take_drop (length ys) xs) at 1. rewrite fmap_app, <- app_assoc.
  pose proof (copy_ok ys [] (replicate (c' - length ys) None) []
                (take (length ys) xs)
                ((Some <$> drop (length ys) xs) ++ replicate (c - length xs) None)
                Hok) as Hcopy.
  cbn [app length] in Hcopy. rewrite Hcopy by (rewrite length_take; lia).
  replace (length xs - length ys) with (length (drop (length ys) xs))
    by (by rewrite length_drop).
  rewrite destroy_n_behind, length_drop.
  rewrite <- replicate_add.
  by replace (length xs - length ys + (c - length xs)) with (c - length ys) by lia.
Qed.

(* the source fits and is not shorter: assign, then construct the rest *)
Lemma copy_assign_extend_split xs c ys1 ys2 c' :
  Forall (fun x => copy_assign_throws x = false) ys1 ->
  Forall (fun x => copy_throws x = false) ys2 ->
  length ys1 = length xs -> length (ys1 ++ ys2) <= c ->
  copy_assign (vec xs c) (vec (ys1 ++ ys2) c')
  = Return (vec (ys1 ++ ys2) c, no_effects).
Proof.
  intros Hassign Hcopy Hlen Hc. rewrite length_app in Hc.
  unfold copy_assign, vec, with_buffer; cbn [data_ size_ buffer_ capacity_].
  rewrite length_app.
  rewrite (proj2 (Nat.ltb_ge c (length ys1 + length ys2))) by lia.
  rewrite (proj2 (Nat.ltb_ge (length ys1 + length ys2) (length xs))) by lia.
  rewrite fmap_app, <- app_assoc, <- Hlen.
  pose proof (copy_ok ys1 []
                ((Some <$> ys2) ++ replicate (c' - (length ys1 + length ys2)) None)
                [] xs (replicate (c - length ys1) None) Hassign) as Hprefix.
  cbn [app length] in Hprefix. rewrite Hprefix by done. clear Hprefix.
  replace (length ys1 + length ys2 - length ys1) with (length ys2) by lia.
  rewrite (raw_split (c - length ys1) (length ys2)) by lia.
  rewrite (uninitialized_copy_n_behind ys2 ys1 ys1)
    by (done || apply length_replicate).
  rewrite <- app_assoc.
  by replace (c - length ys1 - length ys2) with (c - (length ys1 + length ys2)) by lia.
Qed.

Lemma copy_assign_extend xs c ys c' :
  Forall (fun x => copy_assign_throws x = false) ys ->
  Forall (fun x => copy_throws x = false) ys ->
  length xs <= length ys -> length ys <= c ->
  copy_assign (vec xs c) (vec ys c') = Return (vec ys c, no_effects).
Proof.
  intros Hassign Hcopy Hlen Hc.
  rewrite <- (take_drop (length xs) ys) in *.
  apply copy_assign_extend_split.
  - by apply Forall_app in Hassign as [? _].
  - by apply Forall_app in Hcopy as [_ ?].
  - rewrite length_take. rewrite length_app, length_take, length_drop in Hlen. lia.
  - done.
Qed.


Lemma copy_assign_refines_spec (a b : Vector T) :
  copy_assign a b = copy_assign_spec a b.
Proof.
  unfold copy_assign, copy_assign_spec.
  destruct (capacity_ (data_ a) <? size_ b); [done|].
  destruct (Nat.ltb_spec (size_ b) (size_ a)) as [Hlt|Hge].
  - rewrite Nat.min_r by lia.
    replace (size_ b - size_ a) with 0 by lia.
    destruct (copy _ _ _ _ _); [|done..].
    by destruct (destroy_n _ _ _).
  - rewrite Nat.min_l by lia.
    replace (size_ a - size_ b) with 0 by lia. cbn [destroy_n].
    destruct (copy _ _ _ _ _); [|done..].
    by destruct (uninitialized_copy_n _ _ _ _ _) as [|[]|].
Qed.

Lemma copy_assign_swap_throw (a b : Vector T) r :
  Capacity a < size_ b -> copy_assign a b = Throw r -> r.1 = a.
Proof.
  unfold copy_assign, Capacity. intros Hc.
  rewrite (proj2 (Nat.ltb_lt _ _) Hc).
  destruct (Vector_copy b) as [[w e]|e|]; [|by intros [= <-]|done].
  by destruct (Swap a w).
Qed.

(** [C8] Copy assignment [a = b] between two different vectors, when no
    copy of an element of [b] throws: [a] ends with the size and the
    elements of [b], in order, and satisfies the invariant; the capacity
    becomes [b]'s size when [b] did not fit and is kept otherwise.  [b] is
    read only.  The code is, outcome for outcome, the strategy that the
    specification describes ([copy_assign_spec]); and in the copy-and-swap
    case an exception leaves [a] as it was.  Where [b] does not fit,
    operator new is taken to satisfy the request for the block of the
    copy. *)
Theorem copy_assign_correct :
  (forall a b : Vector T, copy_assign a b = copy_assign_spec a b) /\
  (forall a b : Vector T,
     Inv a -> Inv b ->
     (Capacity a < Size b -> allocates (Size b)) ->
     Forall (fun x => copy_throws x = false /\ copy_assign_throws x = false)
            (contents b) ->
     exists a', copy_assign a b = Return (a', no_effects) /\
                Inv a' /\ Size a' = Size b /\ contents a' = contents b /\
                Capacity a' = (if Capacity a <? Size b then Size b
                               else Capacity a)) /\
  (forall (a b : Vector T) r,
     Capacity a < Size b -> copy_assign a b = Throw r -> r.1 = a).
Proof.
  split; [exact copy_assign_refines_spec|]. split; [|exact copy_assign_swap_throw].
  intros a b Ha Hb Halloc Hok.
  destruct (Inv_is_vec a Ha) as (Heqa & Hlena & Hcapa).
  destruct (Inv_is_vec b Hb) as (Heqb & Hlenb & Hcapb).
  unfold Size in Halloc. rewrite <- Hlenb in Halloc.
  assert (Hcopy : Forall (fun x => copy_throws x = false) (contents b))
    by (apply Forall_forall; intros x Hx;
        by destruct (proj1 (Forall_forall _ _) Hok x Hx)).
  assert (Hassign : Forall (fun x => copy_assign_throws x = false) (contents b))
    by (apply Forall_forall; intros x Hx;
        by destruct (proj1 (Forall_forall _ _) Hok x Hx)).
  unfold Size. rewrite <- Hlenb.
  exists (vec (contents b)
              (if Capacity a <? length (contents b) then length (contents b)
               else Capacity a)).
  split; [|split; [|split; [|split]]].
  - rewrite Heqa, Heqb at 1.
    destruct (Nat.ltb_spec (Capacity a) (length (contents b))) as [Hbig|Hfits].
    + apply copy_assign_swap; [by apply Halloc | done | done].
    + destruct (Nat.ltb_spec (length (contents b)) (length (contents a)))
        as [Hshort|Hlong].
      * apply copy_assign_shrink; [done | lia | done].
      * by apply copy_assign_extend.
  - apply Inv_vec. destruct (Nat.ltb_spec (Capacity a) (length (contents b))); lia.
  - done.
  - apply contents_vec.
  - done.
Qed.


(** *** What EmplaceBack and Emplace hand back *)

(* a batch construction that returns has written its destination range
   and nothing else *)
Lemma uninitialized_copy_from_frame (src : list (option T)) n :
  forall first dst d_start d_first d j,
  uninitialized_copy_from src first n dst d_start d_first = Return d ->
  j < d_first \/ d_first + n <= j -> d !! j = dst !! j.
Proof.
  induction n as [|n IH]; intros first dst d_start d_first d j Hret Hj.
  - by injection Hret as <-.
  - cbn [uninitialized_copy_from] in Hret.
    repeat case_match; simplify_eq.
    erewrite IH; [| eassumption | lia].
    apply list_lookup_insert_ne. lia.
Qed.

Lemma uninitialized_move_from_frame n :
  forall (src : list (option T)) first dst d_start d_first s d j,
  uninitialized_move_from src first n dst d_start d_first = Return (s, d) ->
  j < d_first \/ d_first + n <= j -> d !! j = dst !! j.
Proof.
  induction n as [|n IH]; intros src first dst d_start d_first s d j Hret Hj.
  - by injection Hret as <- <-.
  - cbn [uninitialized_move_from] in Hret.
    repeat case_match; simplify_eq.
    erewrite IH; [| eassumption | lia].
    apply list_lookup_insert_ne. lia.
Qed.

Lemma relocate_n_frame (old new : list (option T)) first n d_first s d j :
  relocate_n old first n new d_first = Return (s, d) ->
  j < d_first \/ d_first + n <= j -> d !! j = new !! j.
Proof.
  unfold relocate_n, uninitialized_move_n, uninitialized_copy_n.
  intros Hret Hj. destruct takes_move_path.
  - by eapply uninitialized_move_from_frame.
  - destruct (uninitialized_copy_from _ _ _ _ _ _) as [d'|[]|] eqn:Hcopy;
      simplify_eq.
    by eapply uninitialized_copy_from_frame.
Qed.

Lemma lookup_placed (b : list (option T)) i (s : option T) :
  i < length b -> <[i := s]> b !! i = Some s.
Proof. intros Hi. by apply list_lookup_insert_eq. Qed.

Lemma EmplaceBack_returns (v : Vector T) arg i v' e :
  EmplaceBack v arg = Return (i, v', e) ->
  i = size_ v' - 1 /\ size_ v' = size_ v + 1 /\
  is_Some arg /\ buffer_ (data_ v') !! i = Some arg.
Proof.
  unfold EmplaceBack, with_buffer, RawMemory_Swap. intros Hret.
  repeat case_match; simplify_eq; cbn [size_ data_ buffer_];
    (split; [done|]); (split; [done|]); (split; [done|]);
    replace (size_ v + 1 - 1) with (size_ v) by lia.
  - erewrite relocate_n_frame; [| eassumption | lia].
    apply lookup_placed. in_block.
  - apply lookup_placed. in_block.
Qed.

Lemma Emplace_returns (v : Vector T) pos arg i v' e :
  (Z.of_nat pos < 2 ^ 31)%Z ->
  Emplace v pos arg = Return (i, v', e) ->
  i = pos /\ size_ v' = size_ v + 1 /\
  is_Some arg /\ buffer_ (data_ v') !! i = Some arg.
Proof.
  intros Hpos. unfold Emplace, with_buffer, RawMemory_Swap,
    uninitialized_move_n, uninitialized_copy_n.
  rewrite to_int_small, Nat2Z.id by lia.
  intros Hret.
  repeat case_match; simplify_eq; cbn [size_ data_ buffer_];
    (split; [done|]); (split; [done|]); (split; [done|]).
  - erewrite uninitialized_move_from_frame; [| eassumption | lia].
    erewrite uninitialized_move_from_frame; [| eassumption | lia].
    apply lookup_placed. in_block.
  - erewrite uninitialized_copy_from_frame; [| eassumption | lia].
    erewrite uninitialized_copy_from_frame; [| eassumption | lia].
    apply lookup_placed. in_block.
  - match goal with H : (_ =? _) = true |- _ => apply Nat.eqb_eq in H; subst end.
    apply lookup_placed. in_block.
  - apply lookup_placed. by eapply lookup_lt_Some.
Qed.

(** *** Emplace where the source gets it right *)

Lemma vec_insert xs1 x xs2 c :
  length xs1 + length xs2 < c ->
  mkVector
    (mkRawMemory ((Some <$> xs1) ++ Some x :: (Some <$> xs2)
                    ++ replicate (c - S (length xs1) - length xs2) None) c)
    (length (xs1 ++ xs2) + 1)
  = vec (xs1 ++ x :: xs2) c.
Proof.
  intros Hc. unfold vec. rewrite fmap_app, !length_app, <- app_assoc. cbn.
  replace (c - (length xs1 + S (length xs2)))
    with (c - S (length xs1) - length xs2) by lia.
  by replace (length xs1 + length xs2 + 1)
    with (length xs1 + S (length xs2)) by lia.
Qed.

(* the batch algorithms on blocks given by their shape *)
Lemma uninitialized_move_n_shape xs spre spost dpre hole dpost
    (src dst : list (option T)) first n d_first :
  Forall (fun x => move_throws x = false) xs ->
  src = spre ++ (Some <$> xs) ++ spost -> first = length spre ->
  n = length xs ->
  dst = dpre ++ hole ++ dpost -> d_first = length dpre ->
  length hole = length xs ->
  uninitialized_move_n src first n dst d_first
  = Return (spre ++ (Some <$> (moved_from <$> xs)) ++ spost,
            dpre ++ (Some <$> xs) ++ dpost).
Proof.
  intros Hok -> -> -> -> -> Hlen. by apply uninitialized_move_from_ok.
Qed.

Lemma uninitialized_copy_n_shape xs spre spost dpre hole dpost
    (src dst : list (option T)) first n d_first :
  Forall (fun x => copy_throws x = false) xs ->
  src = spre ++ (Some <$> xs) ++ spost -> first = length spre ->
  n = length xs ->
  dst = dpre ++ hole ++ dpost -> d_first = length dpre ->
  length hole = length xs ->
  uninitialized_copy_n src first n dst d_first
  = Return (dpre ++ (Some <$> xs) ++ dpost).
Proof.
  intros Hok -> -> -> -> -> Hlen. by apply uninitialized_copy_from_ok.
Qed.

Lemma destroy_n_shape xs pre post (b : list (option T)) first n :
  b = pre ++ (Some <$> xs) ++ post -> first = length pre -> n = length xs ->
  destroy_n b first n = (pre ++ replicate (length xs) None ++ post, 0).
Proof. intros -> -> ->. apply destroy_n_live. Qed.

(* growth: the new element first, then prefix and suffix around it.  The
   split of the elements is at what [int num_pos] makes of the position. *)
Lemma Emplace_grow_at pos xs1 xs2 x :
  relocatable (xs1 ++ xs2) ->
  pos <= length (xs1 ++ xs2) ->
  to_int (Z.of_nat pos) = Z.of_nat (length xs1) ->
  allocates (Nat.max 1 (2 * length (xs1 ++ xs2))) ->
  Emplace (vec (xs1 ++ xs2) (length (xs1 ++ xs2))) pos (Some x)
  = Return (length xs1,
            vec (xs1 ++ x :: xs2) (Nat.max 1 (2 * length (xs1 ++ xs2))),
            no_effects).
Proof.
  intros Hok Hpos Hint Halloc. pose proof (allocates_doubling _ Halloc) as Hsmall.
  match goal with |- _ = ?r => set (result := r) end.
  unfold Emplace, Capacity, vec; cbn [data_ size_ buffer_ capacity_].
  rewrite Hint, Nat2Z.id.
  rewrite bool_decide_true by done.
  replace (Z.of_nat (length xs1) <? 0)%Z with false by lia.
  rewrite Nat.eqb_refl, grown_capacity_small by done.
  set (c' := Nat.max 1 (2 * length (xs1 ++ xs2))).
  assert (Hc' : length xs1 + length xs2 < c')
    by (subst c'; rewrite length_app; lia).
  rewrite RawMemory_new_ok by done; cbn [buffer_ capacity_].
  rewrite bool_decide_true by (rewrite length_replicate; lia).
  rewrite insert_raw by lia.
  rewrite Nat.sub_diag, app_nil_r.
  assert (Hlen2 : length (xs1 ++ xs2) - length xs1 = length xs2)
    by (rewrite length_app; lia).
  assert (Hraw : replicate (c' - S (length xs1)) (@None T)
                 = replicate (length xs2) None
                   ++ replicate (c' - S (length xs1) - length xs2) None)
    by (apply raw_split; lia).
  unfold relocatable in Hok. apply Forall_app in Hok as [Hok1 Hok2].
  destruct takes_move_path.
  - rewrite (uninitialized_move_n_shape xs1 [] (Some <$> xs2) []
               (replicate (length xs1) None)
               (Some x :: replicate (c' - S (length xs1)) None));
      [| done | by rewrite fmap_app | done | done | done | done
       | apply length_replicate ].
    cbn [app].
    rewrite (uninitialized_move_n_shape xs2 (Some <$> (moved_from <$> xs1)) []
               ((Some <$> xs1) ++ [Some x])
               (replicate (length xs2) None)
               (replicate (c' - S (length xs1) - length xs2) None));
      [| done | by rewrite app_nil_r | by rewrite !length_fmap | done
       | by rewrite Hraw, <- app_assoc
       | rewrite length_app, length_fmap; cbn; lia
       | apply length_replicate ].
    rewrite (destroy_n_shape ((moved_from <$> xs1) ++ (moved_from <$> xs2)) [] []);
      [| by rewrite fmap_app, !app_nil_r | done
       | by rewrite !length_app, !length_fmap ].
    unfold RawMemory_Swap, RawMemory_release; cbn [buffer_ capacity_ data_ size_ app].
    rewrite app_nil_r, live_objects_raw.
    rewrite <- app_assoc. cbn [app]. by rewrite vec_insert by done.
  - rewrite (uninitialized_copy_n_shape xs1 [] (Some <$> xs2) []
               (replicate (length xs1) None)
               (Some x :: replicate (c' - S (length xs1)) None));
      [| done | by rewrite fmap_app | done | done | done | done
       | apply length_replicate ].
    cbn [app].
    rewrite (uninitialized_copy_n_shape xs2 (Some <$> xs1) []
               ((Some <$> xs1) ++ [Some x])
               (replicate (length xs2) None)
               (replicate (c' - S (length xs1) - length xs2) None));
      [| done | by rewrite fmap_app, app_nil_r | by rewrite !length_fmap | done
       | by rewrite Hraw, <- app_assoc
       | rewrite length_app, length_fmap; cbn; lia
       | apply length_replicate ].
    rewrite (destroy_n_shape (xs1 ++ xs2) [] []);
      [| by rewrite !app_nil_r | done | done ].
    unfold RawMemory_Swap, RawMemory_release; cbn [buffer_ capacity_ data_ size_ app].
    rewrite app_nil_r, live_objects_raw.
    rewrite <- app_assoc. cbn [app]. by rewrite vec_insert by done.
Qed.


Lemma Emplace_grow_split xs1 xs2 x :
  relocatable (xs1 ++ xs2) ->
  (Z.of_nat (length xs1) < 2 ^ 31)%Z ->
  allocates (Nat.max 1 (2 * length (xs1 ++ xs2))) ->
  Emplace (vec (xs1 ++ xs2) (length (xs1 ++ xs2))) (length xs1) (Some x)
  = Return (length xs1,
            vec (xs1 ++ x :: xs2) (Nat.max 1 (2 * length (xs1 ++ xs2))),
            no_effects).
Proof.
  intros Hok Hpos Halloc. apply Emplace_grow_at; try done.
  - rewrite length_app. lia.
  - apply to_int_small. lia.
Qed.

(** *** A copy that throws while EmplaceBack grows *)

Lemma destroy_n_raw n : forall pre post,
  destroy_n (pre ++ replicate n (@None T) ++ post) (length pre) n
  = (pre ++ replicate n None ++ post, n).
Proof.
  induction n as [|n IH]; intros pre post; [done|].
  cbn [destroy_n replicate app]. unfold destroy_at. rewrite lookup_after.
  rewrite (snoc_app pre None).
  replace (S (length pre)) with (length (pre ++ [@None T]))
    by (rewrite length_app; cbn; lia).
  by rewrite IH.
Qed.

Lemma destroy_n_raw_front n (post : list (option T)) :
  destroy_n (replicate n None ++ post) 0 n = (replicate n None ++ post, n).
Proof. apply (destroy_n_raw n [] post). Qed.

Lemma raw_prefix_restored k n (post : list (option T)) :
  k <= n ->
  replicate k None ++ drop k (replicate n None ++ post)
  = replicate n None ++ post.
Proof.
  intros Hk. rewrite <- (take_drop k (replicate n None ++ post)) at 2.
  f_equal. rewrite take_app_le by (rewrite length_replicate; lia).
  rewrite take_replicate. f_equal. lia.
Qed.

Lemma EmplaceBack_copy_throws xs x :
  takes_move_path = false ->
  Exists (fun y => copy_throws y = true) xs ->
  allocates (Nat.max 1 (2 * length xs)) ->
  EmplaceBack (vec xs (length xs)) (Some x)
  = Throw (vec xs (length xs), mkEffects (length xs) [x]).
Proof.
  intros Hpath Hex Halloc. pose proof (allocates_doubling _ Halloc) as Hsmall.
  destruct (first_throw _ _ Hex) as (xs1 & y & xs2 & Hxs & Hok & Hy).
  match goal with |- _ = ?r => set (result := r) end.
  unfold EmplaceBack, Capacity, relocate_n, uninitialized_copy_n.
  rewrite Hpath.
  unfold vec; cbn [data_ size_ buffer_ capacity_].
  rewrite Nat.eqb_refl, grown_capacity_small by done.
  set (c' := Nat.max 1 (2 * length xs)).
  rewrite RawMemory_new_ok by done; cbn [buffer_ capacity_].
  rewrite bool_decide_true by (rewrite length_replicate; lia).
  rewrite insert_raw by lia.
  set (nb := replicate (length xs) None ++ Some x :: replicate (c' - S (length xs)) None).
  pose proof (uninitialized_copy_from_throw xs1 y xs2 [] []
                (replicate (length xs - length xs) None) [] nb [] Hok Hy)
    as Hthrow.
  cbn [app length fmap list_fmap Nat.add] in Hthrow.
  rewrite !app_nil_r, <- Hxs in Hthrow.
  rewrite Hthrow; first last.
  { subst nb. rewrite length_app, length_replicate, Hxs, length_app. cbn. lia. }
  subst nb. rewrite raw_prefix_restored
    by (rewrite Hxs, length_app; lia).
  rewrite (destroy_n_raw_front (length xs)).
  cbn [app Nat.add]. unfold with_buffer; cbn [data_ size_ buffer_ capacity_].
  by rewrite live_objects_app, live_objects_cons, !live_objects_raw.
Qed.


(** *** A copy that throws while Emplace grows *)

Lemma uninitialized_copy_n_throws xs1 x xs2 spre spost dpre m dpost
    (src dst : list (option T)) first n d_first :
  Forall (fun y => copy_throws y = false) xs1 ->
  copy_throws x = true ->
  src = spre ++ (Some <$> xs1 ++ x :: xs2) ++ spost -> first = length spre ->
  n = length (xs1 ++ x :: xs2) ->
  dst = dpre ++ replicate m None ++ dpost -> d_first = length dpre ->
  length xs1 < m ->
  uninitialized_copy_n src first n dst d_first = Throw (dst, 0).
Proof.
  intros Hok Hx -> -> -> -> -> Hm. unfold uninitialized_copy_n.
  pose proof (uninitialized_copy_from_throw xs1 x xs2 [] spre spost dpre
                (replicate m None) dpost Hok Hx) as Hthrow.
  cbn [app length fmap list_fmap Nat.add] in Hthrow.
  rewrite Nat.add_0_r in Hthrow.
  rewrite Hthrow by (rewrite length_replicate; lia).
  rewrite drop_replicate.
  rewrite (app_assoc (replicate (length xs1) None)), <- replicate_add.
  by replace (length xs1 + (m - length xs1)) with m by lia.
Qed.

Lemma destroy_at_behind_raw n x (post : list (option T)) :
  destroy_at (replicate n None ++ Some x :: post) n
  = (replicate n None ++ None :: post, 0).
Proof.
  rewrite <- (length_replicate n (@None T)) at 2. apply destroy_at_live.
Qed.

(* the copy of the prefix throws: the new element is destroyed *)
Lemma Emplace_prefix_copy_throws xs1 xs2 x :
  takes_move_path = false ->
  Exists (fun y => copy_throws y = true) xs1 ->
  (Z.of_nat (length xs1) < 2 ^ 31)%Z ->
  allocates (Nat.max 1 (2 * length (xs1 ++ xs2))) ->
  Emplace (vec (xs1 ++ xs2) (length (xs1 ++ xs2))) (length xs1) (Some x)
  = Throw (vec (xs1 ++ xs2) (length (xs1 ++ xs2)), no_effects).
Proof.
  intros Hpath Hex Hpos Halloc. pose proof (allocates_doubling _ Halloc) as Hsmall.
  destruct (first_throw _ _ Hex) as (ys1 & y & ys2 & Hxs1 & Hok & Hy).
  match goal with |- _ = ?r => set (result := r) end.
  unfold Emplace, Capacity. rewrite Hpath.
  unfold vec; cbn [data_ size_ buffer_ capacity_].
  rewrite to_int_small, Nat2Z.id by lia.
  rewrite bool_decide_true by (rewrite length_app; lia).
  replace (Z.of_nat (length xs1) <? 0)%Z with false by lia.
  rewrite Nat.eqb_refl, grown_capacity_small by done.
  set (c' := Nat.max 1 (2 * length (xs1 ++ xs2))).
  assert (Hc' : length xs1 + length xs2 < c')
    by (subst c'; rewrite length_app; lia).
  rewrite RawMemory_new_ok by done; cbn [buffer_ capacity_].
  rewrite bool_decide_true by (rewrite length_replicate; lia).
  rewrite insert_raw by lia.
  rewrite (uninitialized_copy_n_throws ys1 y ys2 []
             ((Some <$> xs2) ++ replicate (length (xs1 ++ xs2) - length (xs1 ++ xs2)) None)
             [] (length xs1)
             (Some x :: replicate (c' - S (length xs1)) None));
    [| done | done | by rewrite <- Hxs1, fmap_app, <- app_assoc | done
     | by rewrite Hxs1 | done | done
     | rewrite Hxs1, length_app; cbn; lia ].
  rewrite destroy_at_behind_raw.
  unfold with_buffer; cbn [data_ size_ buffer_ capacity_ Nat.add].
  rewrite live_objects_app, live_objects_raw.
  change (None :: replicate (c' - S (length xs1)) (@None T))
    with (replicate (S (c' - S (length xs1))) (@None T)).
  by rewrite live_objects_raw.
Qed.

(* the copy of the suffix throws: the copied prefix is destroyed, the new
   element is not *)
Lemma Emplace_suffix_copy_throws xs1 xs2 x :
  takes_move_path = false ->
  Forall (fun y => copy_throws y = false) xs1 ->
  Exists (fun y => copy_throws y = true) xs2 ->
  (Z.of_nat (length xs1) < 2 ^ 31)%Z ->
  allocates (Nat.max 1 (2 * length (xs1 ++ xs2))) ->
  Emplace (vec (xs1 ++ xs2) (length (xs1 ++ xs2))) (length xs1) (Some x)
  = Throw (vec (xs1 ++ xs2) (length (xs1 ++ xs2)), mkEffects 0 [x]).
Proof.
  intros Hpath Hok1 Hex Hpos Halloc.
  pose proof (allocates_doubling _ Halloc) as Hsmall.
  destruct (first_throw _ _ Hex) as (ys1 & y & ys2 & Hxs2 & Hok & Hy).
  match goal with |- _ = ?r => set (result := r) end.
  unfold Emplace, Capacity. rewrite Hpath.
  unfold vec; cbn [data_ size_ buffer_ capacity_].
  rewrite to_int_small, Nat2Z.id by lia.
  rewrite bool_decide_true by (rewrite length_app; lia).
  replace (Z.of_nat (length xs1) <? 0)%Z with false by lia.
  rewrite Nat.eqb_refl, grown_capacity_small by done.
  set (c' := Nat.max 1 (2 * length (xs1 ++ xs2))).
  assert (Hc' : length xs1 + length xs2 < c')
    by (subst c'; rewrite length_app; lia).
  rewrite RawMemory_new_ok by done; cbn [buffer_ capacity_].
  rewrite bool_decide_true by (rewrite length_replicate; lia).
  rewrite insert_raw by lia.
  rewrite (uninitialized_copy_n_shape xs1 []
             ((Some <$> xs2) ++ replicate (length (xs1 ++ xs2) - length (xs1 ++ xs2)) None)
             [] (replicate (length xs1) None)
             (Some x :: replicate (c' - S (length xs1)) None));
    [| done | by rewrite fmap_app, <- app_assoc | done | done | done | done
     | apply length_replicate ].
  cbn [app].
  rewrite (uninitialized_copy_n_throws ys1 y ys2 (Some <$> xs1)
             (replicate (length (xs1 ++ xs2) - length (xs1 ++ xs2)) None)
             ((Some <$> xs1) ++ [Some x]) (c' - S (length xs1)) []);
    [| done | done | by rewrite <- Hxs2, fmap_app, <- app_assoc
     | by rewrite length_fmap
     | by rewrite <- Hxs2, length_app; lia
     | by rewrite app_nil_r, <- app_assoc
     | rewrite length_app, length_fmap; cbn; lia
     | rewrite Hxs2, length_app in Hc'; cbn in Hc'; lia ].
  rewrite destroy_n_front.
  unfold with_buffer; cbn [data_ size_ buffer_ capacity_ Nat.add].
  by rewrite live_objects_app, live_objects_cons, !live_objects_raw.
Qed.


(** *** Emplace in the middle without growth *)

Lemma move_assign_slot_behind pre y z post :
  move_assign_throws y = false ->
  move_assign_slot (pre ++ Some y :: Some z :: post) (length pre) (S (length pre))
  = Return (pre ++ Some (moved_from y) :: Some y :: post).
Proof.
  intros Hy. unfold move_assign_slot.
  rewrite lookup_after.
  rewrite (snoc_app pre (Some y)).
  replace (S (length pre)) with (length (pre ++ [Some y]))
    by (rewrite length_app; cbn; lia).
  rewrite lookup_after, Hy.
  rewrite <- (snoc_app pre (Some y)), insert_after.
  rewrite (snoc_app pre (Some (moved_from y))).
  replace (length (pre ++ [Some y])) with (length (pre ++ [Some (moved_from y)]))
    by (rewrite !length_app; done).
  rewrite insert_after. by rewrite <- app_assoc.
Qed.

Lemma shifted_up_snoc xs y z :
  shifted_up (xs ++ [y]) z = shifted_up xs (moved_from y) ++ [y].
Proof. by destruct xs. Qed.

Lemma move_backward_up xs : forall pre z post,
  Forall (fun x => move_assign_throws x = false) xs ->
  move_backward (pre ++ (Some <$> xs) ++ Some z :: post)
    (length pre + length xs) (length xs) (S (length pre + length xs))
  = Return (pre ++ (Some <$> shifted_up xs z) ++ post).
Proof.
  induction xs as [|y xs IH] using rev_ind; intros pre z post Hok.
  { done. }
  apply Forall_app in Hok as [Hok Hy]. apply Forall_cons_1 in Hy as [Hy _].
  rewrite length_app. cbn [length].
  replace (length xs + 1) with (S (length xs)) by lia.
  replace (length pre + S (length xs)) with (S (length pre + length xs)) by lia.
  cbn [move_backward].
  rewrite fmap_app, <- app_assoc. cbn [fmap list_fmap app].
  rewrite (app_assoc pre).
  replace (length pre + length xs) with (length (pre ++ (Some <$> xs)))
    by (by rewrite length_app, length_fmap).
  rewrite move_assign_slot_behind by done.
  rewrite <- app_assoc, length_app, length_fmap.
  rewrite IH by done.
  rewrite shifted_up_snoc, fmap_app, <- app_assoc. done.
Qed.


Lemma move_backward_shape xs pre z post (b : list (option T)) last n d_last :
  Forall (fun x => move_assign_throws x = false) xs ->
  b = pre ++ (Some <$> xs) ++ Some z :: post ->
  last = length pre + length xs -> n = length xs -> d_last = S last ->
  move_backward b last n d_last
  = Return (pre ++ (Some <$> shifted_up xs z) ++ post).
Proof. intros Hok -> -> -> ->. by apply move_backward_up. Qed.

(* No growth, position before the end.  [x0] is the first element of the
   vector: the source constructs the new last slot from [data_[0]], moves
   the elements in [pos, size - 1) one slot up and assigns the new value
   to slot [pos].  The old last element [z] is overwritten. *)
Lemma Emplace_in_place_middle xs x0 pre mid z t c :
  xs !! 0 = Some x0 ->
  <[0 := moved_from x0]> xs = pre ++ mid ++ [z] ->
  length xs < c ->
  (Z.of_nat (length pre) < 2 ^ 31)%Z ->
  move_throws x0 = false ->
  Forall (fun x => move_assign_throws x = false) mid ->
  move_assign_throws t = false ->
  Emplace (vec xs c) (length pre) (Some t)
  = Return (length pre, vec (pre ++ t :: mid ++ [x0]) c, no_effects).
Proof.
  intros Hx0 Hxs Hc Hpos Hmove Hmid Ht.
  assert (Hn : length xs = length pre + length mid + 1).
  { rewrite <- (length_insert xs 0 (moved_from x0)), Hxs, !length_app. cbn. lia. }
  match goal with |- _ = ?r => set (result := r) end.
  unfold Emplace, Capacity, vec, with_buffer; cbn [data_ size_ buffer_ capacity_].
  rewrite to_int_small, Nat2Z.id by lia.
  rewrite bool_decide_true by lia.
  replace (Z.of_nat (length pre) <? 0)%Z with false by lia.
  rewrite (proj2 (Nat.eqb_neq (length xs) c)) by lia.
  rewrite (proj2 (Nat.eqb_neq (length pre) (length xs))) by lia.
  rewrite bool_decide_true by lia.
  rewrite lookup_app_l by (rewrite length_fmap; lia).
  rewrite list_lookup_fmap, Hx0. cbn [fmap option_fmap option_map].
  rewrite Hmove.
  rewrite bool_decide_true
    by (rewrite length_app, length_fmap, length_replicate; lia).
  rewrite insert_app_l by (rewrite length_fmap; lia).
  rewrite <- (list_fmap_insert Some xs 0 (moved_from x0)), Hxs.
  replace (c - length xs) with (S (c - S (length xs))) by lia. cbn [replicate].
  replace (length xs) with (length (pre ++ mid ++ [z])) at 1
    by (rewrite !length_app; cbn; lia).
  rewrite insert_behind.
  rewrite (move_backward_shape mid (Some <$> pre) z
             (Some x0 :: replicate (c - S (length xs)) None));
    [| done | by rewrite !fmap_app, <- !app_assoc
     | rewrite length_fmap; lia | lia | lia ].
  unfold shifted_up. cbn [fmap list_fmap app].
  rewrite lookup_behind, Ht, insert_behind.
  cbn [data_ size_].
  subst result. f_equal. f_equal. f_equal.
  unfold vec. rewrite !fmap_app, !length_app. cbn [fmap list_fmap app length].
  rewrite !length_app. cbn [length].
  rewrite <- !app_assoc. cbn [app].
  replace (c - (length pre + S (length mid + 1))) with (c - S (length xs)) by lia.
  replace (length xs + 1) with (length pre + S (length mid + 1)) by lia.
  by rewrite fmap_app, <- app_assoc.
Qed.


(* the same for a type whose move leaves the source as it was, such as
   [int]: inserting [t] before the [mid ++ [z]] tail of the vector yields
   [pre ++ t :: mid ++ [x0]], not [pre ++ t :: mid ++ [z]] *)
Lemma Emplace_in_place_middle_plain pre mid z x0 t c :
  (pre ++ mid ++ [z]) !! 0 = Some x0 ->
  moved_from x0 = x0 ->
  length (pre ++ mid ++ [z]) < c ->
  (Z.of_nat (length pre) < 2 ^ 31)%Z ->
  move_throws x0 = false ->
  Forall (fun x => move_assign_throws x = false) mid ->
  move_assign_throws t = false ->
  Emplace (vec (pre ++ mid ++ [z]) c) (length pre) (Some t)
  = Return (length pre, vec (pre ++ t :: mid ++ [x0]) c, no_effects).
Proof.
  intros Hx0 Hplain Hc Hpos Hmove Hmid Ht.
  apply (Emplace_in_place_middle _ x0 pre mid z); try done.
  rewrite Hplain. by apply list_insert_id.
Qed.

(* no growth, position at the end *)
Lemma Emplace_in_place_end xs c t :
  length xs < c ->
  (Z.of_nat (length xs) < 2 ^ 31)%Z ->
  Emplace (vec xs c) (length xs) (Some t)
  = Return (length xs, vec (xs ++ [t]) c, no_effects).
Proof.
  intros Hc Hpos.
  match goal with |- _ = ?r => set (result := r) end.
  unfold Emplace, Capacity, vec, with_buffer; cbn [data_ size_ buffer_ capacity_].
  rewrite to_int_small, Nat2Z.id by lia.
  rewrite bool_decide_true by lia.
  replace (Z.of_nat (length xs) <? 0)%Z with false by lia.
  rewrite (proj2 (Nat.eqb_neq (length xs) c)) by lia.
  rewrite Nat.eqb_refl.
  rewrite bool_decide_true
    by (rewrite length_app, length_fmap, length_replicate; lia).
  replace (c - length xs) with (S (c - S (length xs))) by lia. cbn [replicate].
  rewrite insert_behind. cbn [data_ size_].
  subst result. by rewrite vec_snoc.
Qed.

(* no growth, position at the end, whatever [int num_pos] makes of the
   position: the element is constructed at [end()], the iterator handed
   back is [begin() + num_pos] *)
Lemma Emplace_at_end_truncates xs c t :
  length xs < c ->
  (0 <= to_int (Z.of_nat (length xs)))%Z ->
  Emplace (vec xs c) (length xs) (Some t)
  = Return (Z.to_nat (to_int (Z.of_nat (length xs))), vec (xs ++ [t]) c,
            no_effects).
Proof.
  intros Hc Hpos.
  match goal with |- _ = ?r => set (result := r) end.
  unfold Emplace, Capacity, vec, with_buffer; cbn [data_ size_ buffer_ capacity_].
  rewrite bool_decide_true by lia.
  replace (to_int (Z.of_nat (length xs)) <? 0)%Z with false by lia.
  rewrite (proj2 (Nat.eqb_neq (length xs) c)) by lia.
  rewrite Nat.eqb_refl.
  rewrite bool_decide_true
    by (rewrite length_app, length_fmap, length_replicate; lia).
  replace (c - length xs) with (S (c - S (length xs))) by lia. cbn [replicate].
  rewrite insert_behind. cbn [data_ size_].
  subst result. by rewrite vec_snoc.
Qed.

(** [X25] A call of EmplaceBack that returns hands back a reference to
    slot [size - 1] of the updated vector, and that slot holds the object
    constructed from the arguments.  A call of Emplace (so also of Insert)
    at a position that fits [int] (below 2^31) and that returns hands back
    the iterator [begin() + position] of the updated vector, and the slot
    it points to holds the object constructed from the arguments.  In
    both cases the size has grown by one. *)
Theorem emplace_return_values :
  (forall (v : Vector T) (arg : option T) i v' e,
     EmplaceBack v arg = Return (i, v', e) ->
     i = Size v' - 1 /\ Size v' = Size v + 1 /\
     is_Some arg /\ buffer_ (data_ v') !! i = Some arg) /\
  (forall (v : Vector T) (pos : nat) (arg : option T) i v' e,
     (Z.of_nat pos < 2 ^ 31)%Z ->
     Emplace v pos arg = Return (i, v', e) ->
     i = pos /\ Size v' = Size v + 1 /\
     is_Some arg /\ buffer_ (data_ v') !! i = Some arg).
Proof. split; [exact EmplaceBack_returns | exact Emplace_returns]. Qed.

(** *** Erase, PopBack, Resize and the constructors *)

Lemma move_assign_slot_ahead pre y x post :
  move_assign_throws x = false ->
  move_assign_slot (pre ++ Some y :: Some x :: post) (S (length pre)) (length pre)
  = Return (pre ++ Some x :: Some (moved_from x) :: post).
Proof.
  intros Hx. unfold move_assign_slot.
  rewrite (lookup_after pre (Some y)).
  rewrite (snoc_app pre (Some y)).
  replace (S (length pre)) with (length (pre ++ [Some y]))
    by (rewrite length_app; cbn; lia).
  rewrite lookup_after, Hx, insert_after.
  rewrite <- (snoc_app pre (Some y)). by rewrite insert_after.
Qed.

Lemma shifted_down_cons y x xs :
  shifted_down y (x :: xs) = x :: shifted_down (moved_from x) xs.
Proof.
  unfold shifted_down. cbn [app]. f_equal. f_equal.
  destruct xs as [|x' xs]; [reflexivity|]. rewrite last_cons_cons.
  destruct (list.last (x' :: xs)) eqn:Hlast; [done|].
  by apply last_None in Hlast.
Qed.

Lemma move_down xs : forall pre y post,
  Forall (fun x => move_assign_throws x = false) xs ->
  move (pre ++ Some y :: (Some <$> xs) ++ post)
    (S (length pre)) (length xs) (length pre)
  = Return (pre ++ (Some <$> shifted_down y xs) ++ post).
Proof.
  induction xs as [|x xs IH]; intros pre y post Hok; [done|].
  apply Forall_cons_1 in Hok as [Hx Hok].
  cbn [length move fmap list_fmap app].
  rewrite move_assign_slot_ahead by done.
  rewrite (snoc_app pre (Some x)).
  replace (S (length pre)) with (length (pre ++ [Some x]))
    by (rewrite length_app; cbn; lia).
  rewrite IH by done.
  rewrite shifted_down_cons. cbn [fmap list_fmap app].
  by rewrite <- app_assoc.
Qed.

Lemma move_shape xs pre y post (b : list (option T)) first n d_first :
  Forall (fun x => move_assign_throws x = false) xs ->
  b = pre ++ Some y :: (Some <$> xs) ++ post ->
  first = S (length pre) -> n = length xs -> d_first = length pre ->
  move b first n d_first = Return (pre ++ (Some <$> shifted_down y xs) ++ post).
Proof. intros Hok -> -> -> ->. by apply move_down. Qed.

Lemma destroy_at_behind xs x (post : list (option T)) :
  destroy_at ((Some <$> xs) ++ Some x :: post) (length xs)
  = ((Some <$> xs) ++ None :: post, 0).
Proof. rewrite <- (length_fmap Some xs). apply destroy_at_live. Qed.

Lemma PopBack_removes_last xs x c :
  length xs < c ->
  PopBack (vec (xs ++ [x]) c) = Return (vec xs c, no_effects).
Proof.
  intros Hc. unfold PopBack, vec, with_buffer; cbn [data_ size_ buffer_ capacity_].
  rewrite length_app. cbn [length].
  rewrite (proj2 (Nat.eqb_neq (length xs + 1) 0)) by lia.
  replace (length xs + 1 - 1) with (length xs) by lia.
  rewrite fmap_app, <- app_assoc. cbn [fmap list_fmap app].
  rewrite destroy_at_behind.
  change (None :: replicate (c - (length xs + 1)) (@None T))
    with (replicate (S (c - (length xs + 1))) (@None T)).
  by replace (S (c - (length xs + 1))) with (c - length xs) by lia.
Qed.

(* Erase(begin() + length pre) removes the element at that position *)
Lemma Erase_removes pre y post c :
  length (pre ++ y :: post) <= c ->
  Forall (fun x => move_assign_throws x = false) post ->
  Erase (vec (pre ++ y :: post) c) (length pre)
  = Return (length pre, vec (pre ++ post) c, no_effects).
Proof.
  intros Hc Hok. rewrite length_app in Hc. cbn [length] in Hc.
  match goal with |- _ = ?r => set (result := r) end.
  unfold Erase, vec; cbn [data_ size_ buffer_ capacity_].
  rewrite length_app. cbn [length].
  rewrite !bool_decide_true by lia.
  rewrite (move_shape post (Some <$> pre) y
             (replicate (c - (length pre + S (length post))) None));
    [| done | by rewrite fmap_app, <- app_assoc
     | rewrite length_fmap; lia | lia | by rewrite length_fmap ].
  unfold shifted_down.
  set (l := match list.last post with Some l => moved_from l | None => y end).
  unfold with_buffer; cbn [data_ size_ buffer_ capacity_].
  match goal with
  | |- context [PopBack ?w] => replace w with (vec ((pre ++ post) ++ [l]) c)
  end.
  - rewrite PopBack_removes_last by (rewrite length_app; lia). done.
  - unfold vec. rewrite !fmap_app, !length_app, <- !app_assoc. cbn [length].
    f_equal; [|lia]. f_equal. do 3 f_equal. f_equal. lia.
Qed.


Lemma uninitialized_value_construct_n_shape d pre hole post
    (b : list (option T)) first n :
  value_init = Some d ->
  b = pre ++ hole ++ post -> first = length pre -> length hole = n ->
  uninitialized_value_construct_n b first n
  = Return (pre ++ replicate n (Some d) ++ post).
Proof.
  intros Hd -> -> Hn. by apply uninitialized_value_construct_from_ok.
Qed.

Lemma Resize_shrink xs c k :
  length xs <= c -> k < length xs ->
  Resize (vec xs c) k = Return (vec (take k xs) c, no_effects).
Proof.
  intros Hc Hk.
  match goal with |- _ = ?r => set (result := r) end.
  unfold Resize, vec, with_buffer; cbn [data_ size_ buffer_ capacity_].
  rewrite (proj2 (Nat.ltb_lt k (length xs))) by done.
  rewrite (destroy_n_shape (drop k xs) (Some <$> take k xs)
             (replicate (c - length xs) None));
    [| by rewrite app_assoc, <- fmap_app, take_drop
     | rewrite length_fmap, length_take; lia
     | rewrite length_drop; lia ].
  subst result. unfold vec. rewrite length_take, length_drop.
  rewrite <- replicate_add.
  replace (k `min` length xs) with k by lia.
  by replace (length xs - k + (c - length xs)) with (c - k) by lia.
Qed.

Lemma Resize_grow xs c k d :
  length xs <= c -> length xs <= k -> (c < k -> allocates k) ->
  relocatable xs -> value_init = Some d ->
  Resize (vec xs c) k
  = Return (vec (xs ++ replicate (k - length xs) d) (Nat.max c k), no_effects).
Proof.
  intros Hc Hk Halloc Hok Hd.
  match goal with |- _ = ?r => set (result := r) end.
  unfold Resize.
  rewrite (proj2 (Nat.ltb_ge k (size_ (vec xs c)))) by done.
  assert (Hres : Reserve (vec xs c) k = Return (vec xs (Nat.max c k), no_effects)).
  { destruct (decide (k <= c)) as [Hle|Hgt].
    - rewrite Reserve_noop by done. by rewrite Nat.max_l.
    - rewrite Reserve_grow by (done || lia || apply Halloc; lia).
      by rewrite Nat.max_r by lia. }
  rewrite Hres. unfold vec, with_buffer; cbn [data_ size_ buffer_ capacity_].
  rewrite (uninitialized_value_construct_n_shape d (Some <$> xs)
             (replicate (k - length xs) None)
             (replicate (Nat.max c k - k) None));
    [| done
     | rewrite <- replicate_add; do 2 f_equal; lia
     | by rewrite length_fmap
     | apply length_replicate ].
  subst result. unfold vec.
  rewrite fmap_app, fmap_replicate, length_app, length_replicate, <- app_assoc.
  by replace (length xs + (k - length xs)) with k by lia.
Qed.

Lemma Vector_sized_ok n d :
  allocates n -> value_init = Some d ->
  Vector_sized n = Return (vec (replicate n d) n, no_effects).
Proof.
  intros Halloc Hd. unfold Vector_sized, uninitialized_value_construct_n.
  rewrite RawMemory_new_ok by done; cbn [buffer_ capacity_].
  pose proof (uninitialized_value_construct_from_ok d n []
                (replicate n None) [] 0 Hd) as Hctor.
  cbn [app length] in Hctor. rewrite !app_nil_r in Hctor.
  rewrite Hctor by apply length_replicate.
  unfold vec. by rewrite fmap_replicate, length_replicate, Nat.sub_diag, app_nil_r.
Qed.

Lemma Swap_exchanges (a b : Vector T) : Swap a b = (b, a).
Proof. by destruct a as [[? ?] ?], b as [[? ?] ?]. Qed.

Lemma Vector_move_empties (b : Vector T) : Vector_move b = (b, Vector_default).
Proof. by destruct b as [[? ?] ?]. Qed.

Lemma Vector_default_is_empty : @Vector_default T = vec [] 0.
Proof. done. Qed.

End ContainerFacts.

(** ** The container at [int] *)

Section IntVector.
#[local] Existing Instance int_element.
#[local] Existing Instance roomy_heap.

(** [C1] A vector of ints built by three PushBack calls holds [1,2,4] in a
    block of four slots.  Insert(begin() + 1, 3) takes the path without
    growth: the new last slot is constructed from [data_[0]], not from the
    last element, and the shift then overwrites the old last element.  The
    result is [1,3,2,1]; the 4 is gone. *)
Theorem Insert_in_place_loses_last_element :
  push_all Vector_default [1; 2; 4] = Some (vec [1; 2; 4] 4, [1; 2; 4]) /\
  Insert (vec [1; 2; 4] 4) 1 3 = Return (1, vec [1; 3; 2; 1] 4, no_effects) /\
  contents (vec [1; 3; 2; 1] 4) <> [1; 3; 2; 4].
Proof. split; [reflexivity|]. split; [reflexivity|]. discriminate. Qed.

(** [C4] Move assignment gives [a] the block and the size of [b]; [b]
    receives the block of [a] and size 0, not the previous size of [a]. *)
Theorem move_assign_zeroes_source_size :
  (forall a b : Vector nat,
     move_assign a b = (b, mkVector (data_ a) 0)) /\
  move_assign (vec [1; 2] 2) (vec [5; 6; 7] 4)
  = (vec [5; 6; 7] 4, mkVector (mkRawMemory [Some 1; Some 2] 2) 0).
Proof.
  split; [|reflexivity]. by intros [[ba ca] na] [[bb cb] nb].
Qed.

(** [C9] Two vectors that satisfy the invariant; after the move assignment
    [a = std::move(b)] the source [b] has size 0 over a block whose slots
    0 and 1 still hold live objects: the invariant is broken. *)
Theorem move_assign_breaks_invariant :
  Inv (vec [1; 2] 2) /\ Inv (vec [5; 6; 7] 4) /\
  ~ Inv (move_assign (vec [1; 2] 2) (vec [5; 6; 7] 4)).2.
Proof.
  split; [apply Inv_vec; cbn; lia|]. split; [apply Inv_vec; cbn; lia|].
  intros (_ & _ & _ & Hraw). specialize (Hraw 0). cbn in Hraw.
  discriminate Hraw; lia.
Qed.

(* the examples of the specification for Erase and Resize *)
Example Erase_example :
  Erase (vec [1; 3; 2; 4] 4) 1 = Return (1, vec [1; 2; 4] 4, no_effects).
Proof. reflexivity. Qed.

Example Resize_example :
  Resize (vec [1; 2] 2) 4 = Return (vec [1; 2; 0; 0] 4, no_effects) /\
  Resize (vec [1; 2; 3] 4) 1 = Return (vec [1] 4, no_effects).
Proof. split; reflexivity. Qed.

Lemma Reserve_capacity_and_contents_witness :
  Inv (vec [1; 2; 3] 3) /\
  Reserve (vec [1; 2; 3] 3) 2 = Return (vec [1; 2; 3] 3, no_effects) /\
  exists v', Reserve (vec [1; 2; 3] 3) 5 = Return (v', no_effects) /\
             Capacity v' = 5 /\ Size v' = 3 /\
             contents v' = [1; 2; 3] /\ Inv v'.
Proof.
  assert (Hv : Inv (vec [1; 2; 3] 3)) by (apply Inv_vec; cbn; lia).
  split; [exact Hv|].
  destruct (Reserve_capacity_and_contents (vec [1; 2; 3] 3) 2 Hv) as [Hnoop _].
  destruct (Reserve_capacity_and_contents (vec [1; 2; 3] 3) 5 Hv) as [_ Hgrow].
  split; [apply Hnoop; cbn; lia|].
  apply Hgrow; [cbn; lia | by vm_compute |]. repeat constructor.
Defined.

Lemma EmplaceBack_capacity_doubling_witness :
  (exists v', EmplaceBack (vec [1; 2] 2) (Some 3) = Return (2, v', no_effects) /\
              Inv v' /\ contents v' = [1; 2; 3] /\ Capacity v' = 4) /\
  (exists v', push_all Vector_default [1; 2; 3; 4; 5]
              = Some (v', [1; 2; 4; 4; 8]) /\
              contents v' = [1; 2; 3; 4; 5] /\ Capacity v' = 8).
Proof.
  destruct (@EmplaceBack_capacity_doubling nat int_element roomy_heap)
    as [Hone Hall].
  split.
  - apply (Hone (vec [1; 2] 2) 3).
    + apply Inv_vec; cbn; lia.
    + intros _. split; [repeat constructor | by vm_compute].
  - apply (Hall [1; 2; 3; 4; 5]); [repeat constructor | by vm_compute].
Defined.

Lemma copy_assign_correct_witness :
  (exists a', copy_assign (vec [1; 2] 2) (vec [5; 6; 7] 4) = Return (a', no_effects) /\
              Inv a' /\ Size a' = 3 /\ contents a' = [5; 6; 7] /\ Capacity a' = 3) /\
  (exists a', copy_assign (vec [1; 2; 8; 9] 5) (vec [5; 6; 7] 4) = Return (a', no_effects) /\
              Inv a' /\ Size a' = 3 /\ contents a' = [5; 6; 7] /\ Capacity a' = 5).
Proof.
  destruct (@copy_assign_correct nat int_element roomy_heap) as (_ & Hok & _).
  split.
  - apply (Hok (vec [1; 2] 2) (vec [5; 6; 7] 4));
      [apply Inv_vec; cbn; lia | apply Inv_vec; cbn; lia
      | intros _; by vm_compute | repeat constructor].
  - apply (Hok (vec [1; 2; 8; 9] 5) (vec [5; 6; 7] 4));
      [apply Inv_vec; cbn; lia | apply Inv_vec; cbn; lia
      | intros _; by vm_compute | repeat constructor].
Defined.

(* the runs of the next two statements, for any number [c] that is 2^62
   and any number [n] that is 2^32 *)
Lemma Reserve_of_2_62_ints (c : nat) :
  Z.of_nat c = (2 ^ 62)%Z ->
  Inv (vec [1] 1) /\
  Capacity (vec [1] 1) < c /\
  relocatable (contents (vec [1] 1)) /\
  Allocate c = Some [] /\
  Reserve (vec [1] 1) c = Undefined.
Proof.
  intros Hc.
  assert (Hblock : Allocate c = Some []).
  { unfold Allocate. rewrite (proj2 (Nat.eqb_neq c 0)) by lia. by rewrite Hc. }
  split; [apply Inv_vec; cbn; lia|]. split; [cbn; lia|].
  split; [repeat constructor|]. split; [done|].
  unfold Reserve, RawMemory_new. rewrite Hblock.
  cbn [vec data_ size_ buffer_ capacity_ length].
  by rewrite (proj2 (Nat.leb_gt c 1)) by lia.
Qed.

Lemma Emplace_at_2_32 (n : nat) :
  Z.of_nat n = (2 ^ 32)%Z ->
  (Inv (vec (replicate n 7) (S n)) /\ Size (vec (replicate n 7) (S n)) = n /\
   exists v', Emplace (vec (replicate n 7) (S n)) n (Some 9)
              = Return (0, v', no_effects) /\
              contents v' = replicate n 7 ++ [9] /\
              contents v' !! 0 = Some 7 /\
              contents v' !! n = Some 9) /\
  (Inv (vec (replicate n 7) n) /\ Size (vec (replicate n 7) n) = n /\
   exists v', Emplace (vec (replicate n 7) n) n (Some 9)
              = Return (0, v', no_effects) /\
              contents v' = 9 :: replicate n 7).
Proof.
  intros Hn.
  assert (Hsize : length (replicate n 7) = n) by apply length_replicate.
  split.
  - split; [apply Inv_vec; lia|].
    split; [by unfold Size, vec; cbn [size_]|].
    exists (vec (replicate n 7 ++ [9]) (S n)).
    pose proof (Emplace_at_end_truncates (replicate n 7) (S n) 9) as Hret.
    rewrite Hsize, Hn in Hret.
    split; [apply Hret; [lia | done]|].
    rewrite contents_vec. split; [done|]. split.
    + rewrite lookup_app_l by lia. apply lookup_replicate_2. lia.
    + rewrite lookup_app_r by lia. by rewrite Hsize, Nat.sub_diag.
  - split; [apply Inv_vec; lia|].
    split; [by unfold Size, vec; cbn [size_]|].
    exists (vec (9 :: replicate n 7) (Nat.max 1 (2 * n))).
    split; [|apply contents_vec].
    pose proof (Emplace_grow_at n [] (replicate n 7) 9) as Hret.
    cbn [app length] in Hret. rewrite Hsize, Hn in Hret.
    apply Hret; [| lia | done |].
    + apply Forall_forall. by intros x _.
    + unfold allocates. cbn [sizeof_T max_request int_element roomy_heap]. lia.
Qed.

(** [C5, as stated, fails] Reserve(2^62) on the vector [1] of ints: the
    byte count 2^62 * 4 wraps to 0, operator new hands back a block without
    room for a single int, and the relocation of the element writes
    outside that block. *)
Lemma Reserve_request_can_wrap :
  Inv (vec [1] 1) /\
  Capacity (vec [1] 1) < Z.to_nat (2 ^ 62) /\
  relocatable (contents (vec [1] 1)) /\
  Allocate (Z.to_nat (2 ^ 62)) = Some [] /\
  Reserve (vec [1] 1) (Z.to_nat (2 ^ 62)) = Undefined.
Proof.
  apply Reserve_of_2_62_ints. apply Z2Nat.id. lia.
Qed.

(** [C10] A vector of 2^32 ints with room for one more.  Emplace at
    [end()] constructs the new element 9 at index 2^32, as intended, but
    [int num_pos = pos - begin()] turns the position 2^32 into 0: the
    iterator handed back is [begin() + 0], which designates the first
    element 7 and not the element just inserted.  On a full vector of
    2^32 ints the same call goes through the growth path, which uses
    [num_pos] for the position as well: the new element is put in front of
    all the others instead of behind them. *)
Theorem Emplace_returns_truncated_position :
  let n := Z.to_nat (2 ^ 32) in
  let v := vec (replicate n 7) (S n) in
  let full := vec (replicate n 7) n in
  (Inv v /\ Size v = n /\
   exists v', Emplace v n (Some 9) = Return (0, v', no_effects) /\
              contents v' = replicate n 7 ++ [9] /\
              contents v' !! 0 = Some 7 /\
              contents v' !! n = Some 9) /\
  (Inv full /\ Size full = n /\
   exists v', Emplace full n (Some 9) = Return (0, v', no_effects) /\
              contents v' = 9 :: replicate n 7).
Proof.
  cbv zeta. apply Emplace_at_2_32. apply Z2Nat.id. lia.
Qed.

Lemma emplace_return_values_witness :
  (2 = Size (vec [1; 2; 3] 4) - 1 /\ Size (vec [1; 2; 3] 4) = Size (vec [1; 2] 2) + 1 /\
   is_Some (Some 3) /\
   buffer_ (data_ (vec [1; 2; 3] 4)) !! 2 = Some (Some 3)) /\
  (1 = 1 /\ Size (vec [1; 3; 2; 4] 6) = Size (vec [1; 2; 4] 3) + 1 /\
   is_Some (Some 3) /\
   buffer_ (data_ (vec [1; 3; 2; 4] 6)) !! 1 = Some (Some 3)).
Proof.
  destruct (@emplace_return_values nat int_element roomy_heap) as [Hback Hat].
  split.
  - apply (Hback (vec [1; 2] 2) (Some 3) 2 (vec [1; 2; 3] 4) no_effects).
    reflexivity.
  - apply (Hat (vec [1; 2; 4] 3) 1 (Some 3) 1 (vec [1; 3; 2; 4] 6) no_effects).
    + cbn; lia.
    + reflexivity.
Defined.

End IntVector.

(** ** The container at a type whose copy constructor throws *)

Section ThrowingCopy.
#[local] Existing Instance throwing_copy_element.
#[local] Existing Instance roomy_heap.

(** [C2] Insert into a full vector [1,2,13] at position 1 of a type that
    is relocated by copy and whose copy of 13 throws.  The new element 3 is
    constructed in the new block, the prefix [1] is copied, the copy of
    the suffix throws at 13.  The handler destroys the [num_pos] slots
    before the position and rethrows: the new element is still alive when
    the new block is deallocated.  The vector itself is unchanged.  When
    the copy of the prefix throws instead, the new element is destroyed. *)
Theorem Emplace_suffix_throw_leaks_new_element :
  Insert (vec [1; 2; 13] 3) 1 3
  = Throw (vec [1; 2; 13] 3, mkEffects 0 [3]) /\
  Insert (vec [13; 2; 1] 3) 1 3 = Throw (vec [13; 2; 1] 3, no_effects).
Proof. split; reflexivity. Qed.

(** [C3] PushBack onto a full vector [1,13] of the same type.  The new
    element 3 is constructed at index 2 of the new block, 1 is copied, the
    copy of 13 throws and std::uninitialized_copy_n destroys the copy of
    1.  The handler then runs std::destroy_n over the slots [0, 2), none
    of which holds a live object, and leaves the new element at index 2
    alive.  The vector itself is unchanged. *)
Theorem PushBack_throw_destroys_raw_slots_and_leaks :
  PushBack (vec [1; 13] 2) 3 = Throw (vec [1; 13] 2, mkEffects 2 [3]).
Proof. reflexivity. Qed.

(* No growth, position before the end, and the final assignment of the
   temporary throws: only std::move_backward sits inside the try block, so
   the object constructed at [end()] stays alive behind the last element. *)
Lemma Emplace_assignment_throw_leaves_live_slot :
  Emplace (vec [1; 2; 4] 4) 1 (Some 13)
  = Throw (mkVector (mkRawMemory [Some 0; Some 0; Some 2; Some 1] 4) 3,
           no_effects).
Proof. reflexivity. Qed.

End ThrowingCopy.

(** ** The container at a move-only type whose move constructor throws *)

Section MoveOnly.
#[local] Existing Instance move_only_element.
#[local] Existing Instance roomy_heap.

(** [C6, as stated, fails] A type that cannot be copied is relocated by
    move whether or not its move constructor is noexcept.  Reserve on
    [1,13] moves 1, the move of 13 throws: Reserve fails on the move path,
    and the first element is left moved-from. *)
Lemma Reserve_move_path_can_throw :
  takes_move_path = true /\
  Inv (vec [1; 13] 2) /\
  Reserve (vec [1; 13] 2) 4 = Throw (vec [0; 13] 2, no_effects).
Proof.
  split; [reflexivity|]. split; [apply Inv_vec; cbn; lia | reflexivity].
Qed.

End MoveOnly.

Lemma Reserve_strong_guarantee_witness :
  @Reserve nat throwing_copy_element roomy_heap (vec [1; 13] 2) 5
  = Throw (vec [1; 13] 2, no_effects) /\
  exists v', @Reserve nat int_element roomy_heap (vec [1; 2] 2) 5
             = Return (v', no_effects) /\
             contents v' = [1; 2] /\ Capacity v' = 5.
Proof.
  assert (Hv : forall xs : list nat, length xs <= 2 -> Inv (vec xs 2))
    by (intros xs Hxs; by apply Inv_vec).
  assert (Hc : forall xs : list nat, Capacity (vec xs 2) < 5) by (intros; cbn; lia).
  split.
  - apply (proj1 (@Reserve_strong_guarantee nat throwing_copy_element roomy_heap
                    (vec [1; 13] 2) 5 (Hv [1; 13] (le_n 2)) (Hc [1; 13])
                    ltac:(by vm_compute))).
    + reflexivity.
    + apply Exists_cons_tl, Exists_cons_hd. reflexivity.
  - apply (proj2 (@Reserve_strong_guarantee nat int_element roomy_heap
                    (vec [1; 2] 2) 5 (Hv [1; 2] (le_n 2)) (Hc [1; 2])
                    ltac:(by vm_compute))).
    reflexivity.
Defined.

(** * Further properties of the container *)

Section Coverage.
Context {T : Type} `{Element T} `{Heap}.
Implicit Types (v : Vector T) (xs ys : list T) (c : nat).

(** *** Construction and destruction *)

Lemma Vector_sized_throws n :
  value_init = None -> 0 < n -> Vector_sized n = Throw no_effects.
Proof.
  intros Hd Hn. unfold Vector_sized, uninitialized_value_construct_n,
    RawMemory_new.
  destruct (Allocate n) as [b|] eqn:Hb; [|done]. cbn [buffer_ capacity_].
  destruct n as [|n]; [lia|].
  cbn [uninitialized_value_construct_from]. rewrite Hd, Nat.sub_diag.
  cbn [destroy_n]. unfold no_effects. f_equal. f_equal.
  rewrite (Allocate_raw _ _ Hb). apply live_objects_raw.
Qed.

(** [X1] Vector(size): when operator new satisfies the request for
    size * sizeof(T) bytes (so the byte count does not wrap) and T() yields
    a value, the result holds [size] copies of that value in a block of
    exactly [size] slots and satisfies the invariant; when T() throws, an
    empty request still yields the empty vector and any other request
    propagates an exception with nothing left alive in the block, whatever
    operator new does. *)
Theorem Vector_sized_value_constructs (n : nat) :
  (forall d, value_init = Some d -> allocates n ->
     exists v, Vector_sized n = Return (v, no_effects) /\
               Size v = n /\ Capacity v = n /\
               contents v = replicate n d /\ Inv v) /\
  (value_init = None ->
     Vector_sized n = if n =? 0 then Return (Vector_default, no_effects)
                      else Throw no_effects).
Proof.
  split.
  - intros d Hd Halloc. exists (vec (replicate n d) n).
    split; [by apply Vector_sized_ok|].
    split; [unfold Size, vec; cbn [size_]; apply length_replicate|].
    split; [done|]. split; [apply contents_vec|].
    apply Inv_vec. by rewrite length_replicate.
  - intros Hd. destruct (Nat.eqb_spec n 0) as [->|Hn].
    + unfold Vector_sized, RawMemory_new, Allocate. by cbn.
    + apply Vector_sized_throws; [done | lia].
Qed.

Lemma Vector_copy_throws xs c :
  allocates (length xs) ->
  Exists (fun x => copy_throws x = true) xs ->
  Vector_copy (vec xs c) = Throw no_effects.
Proof.
  intros Halloc Hex.
  destruct (first_throw _ _ Hex) as (xs1 & x & xs2 & Hxs & Hok & Hx).
  unfold Vector_copy, vec; cbn [data_ size_ buffer_ capacity_].
  rewrite RawMemory_new_ok by done; cbn [buffer_ capacity_].
  rewrite (uninitialized_copy_n_throws xs1 x xs2 []
             (replicate (c - length xs) None) [] (length xs) []);
    [| done | done | by rewrite Hxs | done | by rewrite Hxs
     | by rewrite app_nil_r | done
     | rewrite Hxs, length_app; cbn; lia ].
  unfold no_effects. f_equal. f_equal. apply live_objects_raw.
Qed.

(** [X2] Vector(const Vector&), when operator new satisfies the request
    for the block of the copy: when no copy throws, the copy holds the
    elements of the source in order in a block of exactly [size] slots
    (the spare capacity of the source is not copied); when a copy throws,
    the copies made so far are destroyed and nothing is left alive. *)
Theorem Vector_copy_deep_copies (v : Vector T) :
  Inv v -> allocates (Size v) ->
  (Forall (fun x => copy_throws x = false) (contents v) ->
   exists w, Vector_copy v = Return (w, no_effects) /\
             contents w = contents v /\ Size w = Size v /\
             Capacity w = Size v /\ Inv w) /\
  (Exists (fun x => copy_throws x = true) (contents v) ->
   Vector_copy v = Throw no_effects).
Proof.
  intros Hv Halloc. destruct (Inv_is_vec v Hv) as (Heq & Hlen & Hcap).
  unfold Size in Halloc. rewrite <- Hlen in Halloc. split.
  - intros Hok. exists (vec (contents v) (length (contents v))).
    split; [rewrite Heq at 1; by apply Vector_copy_ok|].
    split; [apply contents_vec|]. unfold Size, Capacity, vec; cbn.
    split; [done|]. split; [done|]. by apply Inv_vec.
  - intros Hex. rewrite Heq. by apply Vector_copy_throws.
Qed.

(** [X3] ~Vector on a vector that satisfies the invariant runs no
    destructor on a raw slot and leaves no object alive in the block it
    deallocates. *)
Theorem Vector_destroy_releases_everything (v : Vector T) :
  Inv v -> Vector_destroy v = no_effects.
Proof.
  intros Hv. destruct (Inv_is_vec v Hv) as (Heq & _ & _).
  rewrite Heq. apply Vector_destroy_vec.
Qed.

(** [X4] Vector(Vector&&): the new vector is the source as it was and the
    source becomes the default vector (size 0, capacity 0, no block); both
    satisfy the invariant, so destroying the two afterwards destroys every
    element once: nothing is leaked and no raw slot is touched. *)
Theorem Vector_move_transfers (b : Vector T) :
  Inv b ->
  Vector_move b = (b, Vector_default) /\
  Inv (Vector_move b).1 /\ Inv (Vector_move b).2 /\
  Size (Vector_move b).2 = 0 /\ Capacity (Vector_move b).2 = 0 /\
  Vector_destroy (Vector_move b).1 = no_effects /\
  Vector_destroy (Vector_move b).2 = no_effects.
Proof.
  intros Hb. rewrite Vector_move_empties. cbn [fst snd].
  destruct (Inv_is_vec b Hb) as (Heq & _ & _).
  split; [done|]. split; [done|].
  split; [apply (Inv_vec [] 0); cbn; lia|]. split; [done|]. split; [done|].
  split; [rewrite Heq; apply Vector_destroy_vec | done].
Qed.

(** *** PopBack *)

Lemma snoc_take_last xs :
  0 < length xs ->
  exists x, xs = take (length xs - 1) xs ++ [x].
Proof.
  intros Hn. destruct xs as [|a xs] using rev_ind; [cbn in Hn; lia|].
  exists a. rewrite length_app. cbn [length].
  replace (length xs + 1 - 1) with (length xs) by lia.
  by rewrite take_app_length.
Qed.

(** [X5] PopBack on a non-empty vector destroys the last element and
    keeps the others and the capacity; on an empty vector its assertion
    fails. *)
Theorem PopBack_drops_last (v : Vector T) :
  Inv v ->
  (0 < Size v ->
   exists v', PopBack v = Return (v', no_effects) /\
              contents v' = take (Size v - 1) (contents v) /\
              Capacity v' = Capacity v /\ Inv v') /\
  (Size v = 0 -> PopBack v = Undefined).
Proof.
  intros Hv. destruct (Inv_is_vec v Hv) as (Heq & Hlen & Hcap).
  unfold Size. split.
  - intros Hn. rewrite <- Hlen in *.
    destruct (snoc_take_last (contents v) Hn) as [x Hx].
    set (ys := take (length (contents v) - 1) (contents v)) in *.
    assert (Hys : length ys < Capacity v).
    { rewrite Hx, length_app in Hcap. cbn in Hcap. lia. }
    exists (vec ys (Capacity v)).
    split; [rewrite Heq, Hx at 1; by apply PopBack_removes_last|].
    split; [apply contents_vec|]. split; [done|]. apply Inv_vec. lia.
  - intros Hz. unfold PopBack. by rewrite Hz.
Qed.

(** [X6] EmplaceBack followed by PopBack gives back the elements and the
    size the vector had; only the capacity may have grown.  Where the block
    is replaced, operator new is taken to satisfy the request for the new
    block. *)
Theorem EmplaceBack_PopBack_round_trip (v : Vector T) (x : T) :
  Inv v ->
  (Size v = Capacity v ->
   relocatable (contents v) /\ allocates (Nat.max 1 (2 * Size v))) ->
  exists v1 v2,
    EmplaceBack v (Some x) = Return (Size v, v1, no_effects) /\
    PopBack v1 = Return (v2, no_effects) /\
    contents v2 = contents v /\ Size v2 = Size v /\
    Capacity v <= Capacity v2 /\ Inv v2.
Proof.
  intros Hv Hgrow. destruct (Inv_is_vec v Hv) as (Heq & Hlen & Hcap).
  unfold Size in *.
  set (c' := if length (contents v) =? Capacity v
             then Nat.max 1 (2 * Capacity v) else Capacity v).
  assert (Hc' : length (contents v) < c' /\ Capacity v <= c').
  { subst c'. destruct (Nat.eqb_spec (length (contents v)) (Capacity v)); lia. }
  exists (vec (contents v ++ [x]) c'), (vec (contents v) c').
  split; [|split; [|split; [|split; [|split]]]].
  - rewrite Heq at 1. rewrite <- Hlen. apply EmplaceBack_ok; [lia|].
    intros Hfull. rewrite Hlen in Hfull. destruct (Hgrow Hfull) as [Hok Hsmall].
    split; [done|]. by rewrite <- Hfull.
  - apply PopBack_removes_last. lia.
  - apply contents_vec.
  - by unfold vec; cbn.
  - unfold Capacity at 2, vec; cbn. lia.
  - apply Inv_vec. lia.
Qed.


(** *** Resize *)

(** [X7] Resize to a smaller size destroys the trailing elements: the
    first [new_size] elements stay, in order, and the capacity is kept. *)
Theorem Resize_truncates (v : Vector T) (new_size : nat) :
  Inv v -> new_size < Size v ->
  exists v', Resize v new_size = Return (v', no_effects) /\
             contents v' = take new_size (contents v) /\
             Size v' = new_size /\ Capacity v' = Capacity v /\ Inv v'.
Proof.
  intros Hv Hk. destruct (Inv_is_vec v Hv) as (Heq & Hlen & Hcap).
  unfold Size in *. rewrite <- Hlen in *.
  exists (vec (take new_size (contents v)) (Capacity v)).
  split; [rewrite Heq at 1; apply Resize_shrink; lia|].
  split; [apply contents_vec|].
  split; [unfold vec; cbn [size_]; rewrite length_take; lia|].
  split; [done|]. apply Inv_vec. rewrite length_take. lia.
Qed.

(** [X8] Resize to a size that is not smaller appends value-initialised
    elements behind the existing ones, which keep their values and order;
    the capacity becomes [new_size] when that exceeds it (Reserve, no
    doubling) and is kept otherwise.  Where [new_size] exceeds the
    capacity, operator new is taken to satisfy the request for
    new_size * sizeof(T) bytes (so the byte count does not wrap). *)
Theorem Resize_extends (v : Vector T) (new_size : nat) (d : T) :
  Inv v -> Size v <= new_size ->
  (Capacity v < new_size -> allocates new_size) ->
  relocatable (contents v) -> value_init = Some d ->
  exists v', Resize v new_size = Return (v', no_effects) /\
             contents v' = contents v ++ replicate (new_size - Size v) d /\
             Size v' = new_size /\
             Capacity v' = Nat.max (Capacity v) new_size /\ Inv v'.
Proof.
  intros Hv Hk Halloc Hok Hd. destruct (Inv_is_vec v Hv) as (Heq & Hlen & Hcap).
  unfold Size in *. rewrite <- Hlen in *.
  set (ys := contents v ++ replicate (new_size - length (contents v)) d).
  assert (Hys : length ys = new_size).
  { subst ys. rewrite length_app, length_replicate. lia. }
  exists (vec ys (Nat.max (Capacity v) new_size)).
  split; [rewrite Heq at 1; by apply Resize_grow|].
  split; [apply contents_vec|].
  split; [by unfold vec; cbn [size_]|].
  split; [done|]. apply Inv_vec. lia.
Qed.

Lemma Resize_value_init_fails xs c k :
  length xs <= c -> length xs < k -> (c < k -> allocates k) ->
  relocatable xs -> value_init = None ->
  Resize (vec xs c) k = Throw (vec xs (Nat.max c k), no_effects).
Proof.
  intros Hc Hk Halloc Hok Hd. unfold Resize.
  rewrite (proj2 (Nat.ltb_ge k (size_ (vec xs c)))) by (cbn; lia).
  assert (Hres : Reserve (vec xs c) k = Return (vec xs (Nat.max c k), no_effects)).
  { destruct (decide (k <= c)) as [Hle|Hgt].
    - rewrite Reserve_noop by done. by rewrite Nat.max_l.
    - rewrite Reserve_grow by (done || lia || apply Halloc; lia).
      by rewrite Nat.max_r by lia. }
  rewrite Hres. unfold uninitialized_value_construct_n.
  cbn [size_ vec].
  destruct (k - length xs) as [|m] eqn:Hm; [lia|].
  cbn [uninitialized_value_construct_from]. rewrite Hd, Nat.sub_diag.
  cbn [destroy_n stray_destroys leaked no_effects Nat.add].
  change (mkVector (mkRawMemory ((Some <$> xs)
            ++ replicate (Nat.max c k - length xs) None) (Nat.max c k)) (length xs))
    with (vec xs (Nat.max c k)).
  by rewrite with_buffer_same.
Qed.

(** [X9] When Resize has to add elements and T() throws, the exception
    propagates with the elements and the size as they were and nothing
    leaked; the capacity, however, has already been raised to [new_size]
    when that exceeded it.  Where [new_size] exceeds the capacity, operator
    new is taken to satisfy the request for new_size * sizeof(T) bytes (so
    the byte count does not wrap). *)
Theorem Resize_value_init_throws (v : Vector T) (new_size : nat) :
  Inv v -> Size v < new_size ->
  (Capacity v < new_size -> allocates new_size) ->
  relocatable (contents v) -> value_init = None ->
  exists v', Resize v new_size = Throw (v', no_effects) /\
             contents v' = contents v /\ Size v' = Size v /\
             Capacity v' = Nat.max (Capacity v) new_size /\ Inv v'.
Proof.
  intros Hv Hk Halloc Hok Hd. destruct (Inv_is_vec v Hv) as (Heq & Hlen & Hcap).
  unfold Size in *. rewrite <- Hlen in *.
  exists (vec (contents v) (Nat.max (Capacity v) new_size)).
  split; [rewrite Heq at 1; by apply Resize_value_init_fails|].
  split; [apply contents_vec|]. split; [done|]. split; [done|].
  apply Inv_vec. lia.
Qed.

(** *** Erase *)

Lemma Erase_out_of_range (v : Vector T) pos :
  size_ v <= pos -> Erase v pos = Undefined.
Proof.
  intros Hpos. unfold Erase.
  destruct (bool_decide (pos <= size_ v)); [|done].
  by rewrite bool_decide_false by lia.
Qed.

(** [X10] Erase at a position before the end removes that element: the
    elements before it stay, the ones behind it move one slot down, the
    capacity is kept and the returned iterator is the position.  At
    [end()], which the assertion admits, and beyond it the behaviour is
    undefined. *)
Theorem Erase_removes_element (v : Vector T) (pos : nat) :
  Inv v ->
  (pos < Size v ->
   Forall (fun x => move_assign_throws x = false) (drop (S pos) (contents v)) ->
   exists v', Erase v pos = Return (pos, v', no_effects) /\
              contents v' = take pos (contents v) ++ drop (S pos) (contents v) /\
              Size v' = Size v - 1 /\ Capacity v' = Capacity v /\ Inv v') /\
  (Size v <= pos -> Erase v pos = Undefined).
Proof.
  intros Hv. split; [|apply Erase_out_of_range].
  intros Hpos Hok. destruct (Inv_is_vec v Hv) as (Heq & Hlen & Hcap).
  unfold Size in *. rewrite <- Hlen in *.
  destruct (lookup_lt_is_Some_2 (contents v) pos Hpos) as [y Hy].
  pose proof (take_drop_middle (contents v) pos y Hy) as Hsplit.
  set (pre := take pos (contents v)) in *.
  set (post := drop (S pos) (contents v)) in *.
  assert (Hpre : length pre = pos) by (subst pre; rewrite length_take; lia).
  assert (Hn : length (contents v) = pos + S (length post)).
  { rewrite <- Hsplit at 1. rewrite length_app. cbn. lia. }
  exists (vec (pre ++ post) (Capacity v)).
  split.
  { rewrite Heq, <- Hsplit at 1. rewrite <- Hpre at 1 2.
    apply Erase_removes; [rewrite Hsplit; lia | done]. }
  split; [apply contents_vec|].
  split; [unfold vec; cbn [size_]; rewrite length_app; lia|].
  split; [done|]. apply Inv_vec. rewrite length_app. lia.
Qed.


(** *** Emplace on the paths that construct into raw storage *)

Lemma Emplace_inserts_vec xs c pos x :
  length xs <= c -> pos <= length xs ->
  (Z.of_nat pos < 2 ^ 31)%Z ->
  length xs = c \/ pos = length xs ->
  (length xs = c -> relocatable xs /\ allocates (Nat.max 1 (2 * c))) ->
  Emplace (vec xs c) pos (Some x)
  = Return (pos, vec (take pos xs ++ x :: drop pos xs)
                     (if length xs =? c then Nat.max 1 (2 * c) else c),
            no_effects).
Proof.
  intros Hc Hpos Hint Hpath Hgrow.
  assert (Hpre : length (take pos xs) = pos) by (rewrite length_take; lia).
  destruct (Nat.eqb_spec (length xs) c) as [Hfull|Hroom].
  - destruct (Hgrow Hfull) as [Hok Hsmall]. subst c.
    pose proof (Emplace_grow_split (take pos xs) (drop pos xs) x) as Hsplit.
    rewrite take_drop, Hpre in Hsplit. by apply Hsplit.
  - destruct Hpath as [Hfull|Hend]; [done|]. subst pos.
    rewrite firstn_all, drop_all.
    apply Emplace_in_place_end; lia.
Qed.

(** [X11] Emplace (and so Insert) at a position [pos] that fits [int]
    (below 2^31) yields the elements before [pos], the new element, then
    the elements from [pos] on, whenever it constructs into raw storage:
    when the vector is full (the block is replaced by one of
    max(1, 2 * size) slots, which operator new is taken to provide) or
    when [pos] is the end (the capacity is kept). *)
Theorem Emplace_inserts_when_growing_or_at_end
    (v : Vector T) (pos : nat) (x : T) :
  Inv v -> pos <= Size v -> (Z.of_nat pos < 2 ^ 31)%Z ->
  Size v = Capacity v \/ pos = Size v ->
  (Size v = Capacity v ->
   relocatable (contents v) /\ allocates (Nat.max 1 (2 * Size v))) ->
  exists v', Emplace v pos (Some x) = Return (pos, v', no_effects) /\
             contents v' = take pos (contents v) ++ x :: drop pos (contents v) /\
             Size v' = Size v + 1 /\
             Capacity v' = (if Size v =? Capacity v
                            then Nat.max 1 (2 * Size v) else Capacity v) /\
             Inv v'.
Proof.
  intros Hv Hpos Hint Hpath Hgrow.
  destruct (Inv_is_vec v Hv) as (Heq & Hlen & Hcap).
  unfold Size in *. rewrite <- Hlen in *.
  set (c' := if length (contents v) =? Capacity v
             then Nat.max 1 (2 * Capacity v) else Capacity v).
  set (ys := take pos (contents v) ++ x :: drop pos (contents v)).
  assert (Hys : length ys = length (contents v) + 1).
  { subst ys. rewrite length_app, length_take. cbn [length].
    rewrite length_drop. lia. }
  assert (Hc' : length ys <= c').
  { subst c'. destruct (Nat.eqb_spec (length (contents v)) (Capacity v)); [lia|].
    destruct Hpath; lia. }
  exists (vec ys c').
  split.
  { rewrite Heq at 1. apply Emplace_inserts_vec; try done.
    intros Hfull. destruct (Hgrow Hfull) as [Hok Hsmall].
    split; [done|]. by rewrite <- Hfull. }
  split; [apply contents_vec|]. split; [by unfold vec; cbn [size_]|].
  split.
  { subst c'. unfold Capacity at 1, vec; cbn [data_ capacity_].
    destruct (Nat.eqb_spec (length (contents v)) (Capacity v)) as [->|]; done. }
  by apply Inv_vec.
Qed.

(** [X12] On those paths, and for a position that fits [int] (below
    2^31), Insert followed by Erase at the same position gives back the
    elements the vector had. *)
Theorem Emplace_Erase_round_trip (v : Vector T) (pos : nat) (x : T) :
  Inv v -> pos <= Size v -> (Z.of_nat pos < 2 ^ 31)%Z ->
  Size v = Capacity v \/ pos = Size v ->
  (Size v = Capacity v ->
   relocatable (contents v) /\ allocates (Nat.max 1 (2 * Size v))) ->
  Forall (fun y => move_assign_throws y = false) (drop pos (contents v)) ->
  exists v1 v2,
    Emplace v pos (Some x) = Return (pos, v1, no_effects) /\
    Erase v1 pos = Return (pos, v2, no_effects) /\
    contents v2 = contents v /\ Size v2 = Size v /\ Inv v2.
Proof.
  intros Hv Hpos Hint Hpath Hgrow Hmove.
  destruct (Inv_is_vec v Hv) as (Heq & Hlen & Hcap).
  unfold Size in *. rewrite <- Hlen in *.
  set (c' := if length (contents v) =? Capacity v
             then Nat.max 1 (2 * Capacity v) else Capacity v).
  set (pre := take pos (contents v)). set (post := drop pos (contents v)).
  assert (Hpre : length pre = pos) by (subst pre; rewrite length_take; lia).
  assert (Hsplit : pre ++ post = contents v) by apply take_drop.
  assert (Hc' : length (pre ++ x :: post) <= c').
  { rewrite length_app. cbn [length]. rewrite <- Hsplit, length_app in Hcap, Hpath.
    subst c'. rewrite <- Hsplit, length_app.
    destruct (Nat.eqb_spec (length pre + length post) (Capacity v)); [lia|].
    destruct Hpath; lia. }
  exists (vec (pre ++ x :: post) c'), (vec (pre ++ post) c').
  split.
  { rewrite Heq at 1. apply Emplace_inserts_vec; try done.
    intros Hfull. destruct (Hgrow Hfull) as [Hok Hsmall].
    split; [done|]. by rewrite <- Hfull. }
  split.
  { pose proof (Erase_removes pre x post c' Hc' Hmove) as Herase.
    by rewrite Hpre in Herase. }
  rewrite Hsplit. split; [apply contents_vec|]. split; [done|].
  apply Inv_vec. rewrite length_app in Hc'. cbn in Hc'.
  rewrite <- Hsplit, length_app. lia.
Qed.


(** [X14] Growth-triggered Emplace with copy relocation at a position
    that fits [int] (below 2^31), the new block obtained: when the copy of
    an element before the position throws, the copies made so far and the
    new element are destroyed, and the exception propagates with the
    vector exactly as it was, nothing leaked and no destructor run on a
    slot without a live object. *)
Theorem Emplace_prefix_copy_throw_changes_nothing
    (v : Vector T) (pos : nat) (x : T) :
  Inv v -> Size v = Capacity v -> pos <= Size v ->
  (Z.of_nat pos < 2 ^ 31)%Z -> allocates (Nat.max 1 (2 * Size v)) ->
  takes_move_path = false ->
  Exists (fun y => copy_throws y = true) (take pos (contents v)) ->
  Emplace v pos (Some x) = Throw (v, no_effects).
Proof.
  intros Hv Hfull Hpos Hint Hsmall Hpath Hex.
  destruct (Inv_is_vec v Hv) as (Heq & Hlen & Hcap).
  unfold Size in *. rewrite <- Hlen in *.
  assert (Hpre : length (take pos (contents v)) = pos)
    by (rewrite length_take; lia).
  pose proof (Emplace_prefix_copy_throws (take pos (contents v))
                (drop pos (contents v)) x) as Hthrow.
  rewrite take_drop, Hpre in Hthrow.
  rewrite Heq, <- Hfull at 1. rewrite Hthrow by done.
  by rewrite Hfull, <- Heq.
Qed.

Lemma EmplaceBack_construction_throws (v : Vector T) :
  EmplaceBack v None = Throw (v, no_effects).
Proof.
  unfold EmplaceBack, RawMemory_release, RawMemory_new.
  destruct (size_ v =? Capacity v); [|done].
  destruct (Allocate _) as [b|] eqn:Hb; [|done]. cbn [buffer_].
  by rewrite (Allocate_raw _ _ Hb), live_objects_raw.
Qed.

Lemma Emplace_construction_throws (v : Vector T) (pos : nat) :
  pos <= Size v -> (Z.of_nat pos < 2 ^ 31)%Z ->
  Emplace v pos None = Throw (v, no_effects).
Proof.
  intros Hpos Hint. unfold Size in Hpos.
  unfold Emplace, RawMemory_release, RawMemory_new.
  rewrite to_int_small by lia.
  rewrite bool_decide_true by done.
  replace (Z.of_nat pos <? 0)%Z with false by lia.
  destruct (size_ v =? Capacity v); [|by destruct (pos =? size_ v)].
  destruct (Allocate _) as [b|] eqn:Hb; [|done]. cbn [buffer_].
  by rewrite (Allocate_raw _ _ Hb), live_objects_raw.
Qed.

(** [X15] When the constructor of the new element throws, EmplaceBack and
    Emplace (so also PushBack and Insert of a value whose copy throws)
    propagate the exception with the vector untouched and nothing leaked,
    with or without growth. *)
Theorem failed_construction_changes_nothing :
  (forall v : Vector T, EmplaceBack v None = Throw (v, no_effects)) /\
  (forall (v : Vector T) (pos : nat),
     pos <= Size v -> (Z.of_nat pos < 2 ^ 31)%Z ->
     Emplace v pos None = Throw (v, no_effects)) /\
  (forall (v : Vector T) (value : T),
     copy_throws value = true -> PushBack v value = Throw (v, no_effects)) /\
  (forall (v : Vector T) (pos : nat) (value : T),
     pos <= Size v -> (Z.of_nat pos < 2 ^ 31)%Z ->
     copy_throws value = true -> Insert v pos value = Throw (v, no_effects)).
Proof.
  split; [exact EmplaceBack_construction_throws|].
  split; [exact Emplace_construction_throws|]. split.
  - intros v value Hc. unfold PushBack. rewrite Hc.
    apply EmplaceBack_construction_throws.
  - intros v pos value Hpos Hint Hc. unfold Insert. rewrite Hc.
    by apply Emplace_construction_throws.
Qed.

(** *** Appending within the reserved capacity *)

Lemma push_all_in_place ys : forall xs c,
  length xs + length ys <= c ->
  push_all (vec xs c) ys = Some (vec (xs ++ ys) c, replicate (length ys) c).
Proof.
  induction ys as [|y ys IH]; intros xs c Hc.
  - cbn. by rewrite app_nil_r.
  - cbn [length] in Hc. cbn [push_all].
    rewrite EmplaceBack_in_place by lia.
    rewrite IH by (rewrite length_app; cbn; lia).
    by rewrite <- app_assoc.
Qed.

(** [X16] Appends that fit the capacity never replace the block.
    EmplaceBack of elements whose construction succeeds keeps the capacity
    at every step and relocates nothing, so it returns whatever the copy
    and move constructors of the elements already stored would do.
    PushBack copies (or, from an rvalue, moves) the value it is given: when
    that construction succeeds it appends in the same way, and when it
    throws the exception propagates with the vector untouched, although
    there was room. *)
Theorem appends_within_capacity_keep_block (v : Vector T) (ys : list T) :
  Inv v -> Size v + length ys <= Capacity v ->
  (exists v', push_all v ys = Some (v', replicate (length ys) (Capacity v)) /\
              contents v' = contents v ++ ys /\
              Capacity v' = Capacity v /\ Inv v') /\
  (forall value : T, Size v < Capacity v ->
     PushBack v value
     = (if copy_throws value then Throw (v, no_effects)
        else Return (Size v, vec (contents v ++ [value]) (Capacity v),
                     no_effects)) /\
     PushBack_rvalue v value
     = (if move_throws value then Throw (v, no_effects)
        else Return (Size v, vec (contents v ++ [value]) (Capacity v),
                     no_effects))).
Proof.
  intros Hv Hfit. destruct (Inv_is_vec v Hv) as (Heq & Hlen & Hcap).
  unfold Size in *. rewrite <- Hlen in *. split.
  - exists (vec (contents v ++ ys) (Capacity v)).
    split; [rewrite Heq at 1; by apply push_all_in_place|].
    split; [apply contents_vec|]. split; [done|].
    apply Inv_vec. rewrite length_app. lia.
  - intros value Hroom. unfold PushBack, PushBack_rvalue.
    assert (Hin : EmplaceBack v (Some value)
                  = Return (length (contents v),
                            vec (contents v ++ [value]) (Capacity v),
                            no_effects))
      by (rewrite Heq at 1; by apply EmplaceBack_in_place).
    split; [destruct (copy_throws value) | destruct (move_throws value)];
      first [apply EmplaceBack_construction_throws | exact Hin].
Qed.


(** *** operator[] *)

Lemma Vector_subscript_vec xs c i :
  length xs <= c ->
  Vector_subscript (vec xs c) i
  = match xs !! i with Some x => Return x | None => Undefined end.
Proof.
  intros Hc. unfold Vector_subscript, RawMemory_subscript, vec;
    cbn [data_ size_ buffer_ capacity_].
  destruct (xs !! i) as [x|] eqn:Hx.
  - pose proof (lookup_lt_Some _ _ _ Hx) as Hi.
    rewrite !bool_decide_true by lia.
    rewrite lookup_app_l by (by rewrite length_fmap).
    by rewrite list_lookup_fmap, Hx.
  - apply lookup_ge_None in Hx. by rewrite bool_decide_false by lia.
Qed.

(** [X17] operator[] on a vector that satisfies the invariant reads the
    element at that index, for every index below the size; at the size and
    beyond its assertion fails, also where the slot lies inside the
    capacity. *)
Theorem subscript_reads_elements (v : Vector T) (index : nat) :
  Inv v ->
  (forall x, Vector_subscript v index = Return x <-> contents v !! index = Some x) /\
  (index < Size v -> exists x, Vector_subscript v index = Return x) /\
  (Size v <= index -> Vector_subscript v index = Undefined).
Proof.
  intros Hv. destruct (Inv_is_vec v Hv) as (Heq & Hlen & Hcap).
  unfold Size. rewrite <- Hlen.
  assert (Hsub : Vector_subscript v index
                 = match contents v !! index with
                   | Some x => Return x | None => Undefined end).
  { rewrite Heq at 1. apply Vector_subscript_vec. lia. }
  rewrite Hsub. split; [|split].
  - intros x. destruct (contents v !! index) as [y|]; split; congruence.
  - intros Hi. destruct (lookup_lt_is_Some_2 _ _ Hi) as [x Hx].
    exists x. by rewrite Hx.
  - intros Hi. by rewrite (proj2 (lookup_ge_None _ _) Hi).
Qed.

(** [X18] After an EmplaceBack that returns, operator[] at the old size
    reads the new element and at every smaller index reads what it read
    before, whether or not the block was replaced.  Where the block is
    replaced, operator new is taken to satisfy the request for the new
    block. *)
Theorem subscript_after_EmplaceBack (v : Vector T) (x : T) :
  Inv v ->
  (Size v = Capacity v ->
   relocatable (contents v) /\ allocates (Nat.max 1 (2 * Size v))) ->
  exists v', EmplaceBack v (Some x) = Return (Size v, v', no_effects) /\
             Vector_subscript v' (Size v) = Return x /\
             forall i, i < Size v ->
                       Vector_subscript v' i = Vector_subscript v i.
Proof.
  intros Hv Hgrow. destruct (Inv_is_vec v Hv) as (Heq & Hlen & Hcap).
  unfold Size in *. rewrite <- Hlen in *.
  set (c' := if length (contents v) =? Capacity v
             then Nat.max 1 (2 * Capacity v) else Capacity v).
  assert (Hc' : length (contents v) < c').
  { subst c'. destruct (Nat.eqb_spec (length (contents v)) (Capacity v)); lia. }
  assert (Hlen' : length (contents v ++ [x]) <= c')
    by (rewrite length_app; cbn; lia).
  exists (vec (contents v ++ [x]) c').
  split; [|split].
  - rewrite Heq at 1. apply EmplaceBack_ok; [lia|].
    intros Hfull. destruct (Hgrow Hfull) as [Hok Hsmall].
    split; [done|]. by rewrite <- Hfull.
  - rewrite Vector_subscript_vec by done.
    by rewrite lookup_app_r, Nat.sub_diag by lia.
  - intros i Hi. rewrite Heq at 2. rewrite !Vector_subscript_vec by (done || lia).
    by rewrite lookup_app_l by done.
Qed.


(** *** What a failing operation leaves alone *)

Lemma Reserve_throw_keeps_size (v : Vector T) c v' e :
  Reserve v c = Throw (v', e) ->
  size_ v' = size_ v /\ capacity_ (data_ v') = capacity_ (data_ v).
Proof.
  unfold Reserve, with_buffer, RawMemory_Swap. intros Hthrow.
  repeat case_match; simplify_eq; cbn [size_ data_ capacity_]; done.
Qed.

Lemma Reserve_return_keeps_size (v : Vector T) c v' e :
  Reserve v c = Return (v', e) ->
  size_ v' = size_ v /\ capacity_ (data_ v) <= capacity_ (data_ v').
Proof.
  unfold Reserve, with_buffer, RawMemory_Swap, RawMemory_new. intros Hret.
  repeat case_match; simplify_eq; cbn [size_ data_ capacity_];
    (split; [done|]);
    repeat match goal with
           | Hle : (_ <=? _) = false |- _ => apply Nat.leb_gt in Hle
           end; lia.
Qed.

Lemma Resize_throw_keeps_size (v : Vector T) k v' e :
  Resize v k = Throw (v', e) -> size_ v' = size_ v.
Proof.
  unfold Resize, with_buffer. intros Hthrow.
  destruct (k <? size_ v); [by destruct (destroy_n _ _ _)|].
  destruct (Reserve v k) as [[v1 e1]|[v1 e1]|] eqn:Hres; [| |done].
  - apply Reserve_return_keeps_size in Hres as [Hsize _].
    repeat case_match; simplify_eq. by cbn.
  - simplify_eq. by eapply Reserve_throw_keeps_size.
Qed.

Lemma EmplaceBack_throw_keeps_size (v : Vector T) arg v' e :
  EmplaceBack v arg = Throw (v', e) ->
  size_ v' = size_ v /\ capacity_ (data_ v') = capacity_ (data_ v).
Proof.
  unfold EmplaceBack, with_buffer, RawMemory_Swap. intros Hthrow.
  repeat case_match; simplify_eq; cbn [size_ data_ capacity_]; done.
Qed.

Lemma Emplace_throw_keeps_size (v : Vector T) pos arg v' e :
  Emplace v pos arg = Throw (v', e) ->
  size_ v' = size_ v /\ capacity_ (data_ v') = capacity_ (data_ v).
Proof.
  unfold Emplace, with_buffer, RawMemory_Swap. intros Hthrow.
  repeat case_match; simplify_eq; cbn [size_ data_ capacity_]; done.
Qed.

Lemma Erase_throw_keeps_size (v : Vector T) pos v' e :
  Erase v pos = Throw (v', e) ->
  size_ v' = size_ v /\ capacity_ (data_ v') = capacity_ (data_ v).
Proof.
  unfold Erase, PopBack, with_buffer. intros Hthrow.
  repeat case_match; simplify_eq; cbn [size_ data_ capacity_]; done.
Qed.

Lemma copy_assign_throw_keeps_size (a b : Vector T) a' e :
  copy_assign a b = Throw (a', e) ->
  size_ a' = size_ a /\ capacity_ (data_ a') = capacity_ (data_ a).
Proof.
  unfold copy_assign, with_buffer, Swap, RawMemory_Swap. intros Hthrow.
  repeat case_match; simplify_eq; cbn [size_ data_ capacity_]; done.
Qed.

(** [X19] Whenever Reserve, Resize, EmplaceBack, Emplace, Erase or copy
    assignment ends in an exception, the size of the vector is what it was
    before the call; for all of them but Resize the capacity is, too. *)
Theorem throw_keeps_size :
  (forall (v : Vector T) c v' e,
     Reserve v c = Throw (v', e) -> Size v' = Size v /\ Capacity v' = Capacity v) /\
  (forall (v : Vector T) k v' e,
     Resize v k = Throw (v', e) -> Size v' = Size v) /\
  (forall (v : Vector T) arg v' e,
     EmplaceBack v arg = Throw (v', e) ->
     Size v' = Size v /\ Capacity v' = Capacity v) /\
  (forall (v : Vector T) pos arg v' e,
     Emplace v pos arg = Throw (v', e) ->
     Size v' = Size v /\ Capacity v' = Capacity v) /\
  (forall (v : Vector T) pos v' e,
     Erase v pos = Throw (v', e) -> Size v' = Size v /\ Capacity v' = Capacity v) /\
  (forall (a b : Vector T) a' e,
     copy_assign a b = Throw (a', e) ->
     Size a' = Size a /\ Capacity a' = Capacity a).
Proof.
  unfold Size, Capacity.
  split; [exact Reserve_throw_keeps_size|].
  split; [exact Resize_throw_keeps_size|].
  split; [exact EmplaceBack_throw_keeps_size|].
  split; [exact Emplace_throw_keeps_size|].
  split; [exact Erase_throw_keeps_size | exact copy_assign_throw_keeps_size].
Qed.


(** *** The capacity never shrinks *)

Lemma to_int_le (z : Z) : (0 <= z)%Z -> (to_int z <= z)%Z.
Proof.
  intros Hz. unfold to_int.
  pose proof (Z.mod_le (z + 2 ^ 31) (2 ^ 32)). lia.
Qed.

(* a batch construction that returns stayed inside the destination *)
Lemma uninitialized_copy_from_bounds (src : list (option T)) n :
  forall first dst d_start d_first d,
  uninitialized_copy_from src first n dst d_start d_first = Return d ->
  length d = length dst /\ (n = 0 \/ d_first + n <= length dst).
Proof.
  induction n as [|n IH]; intros first dst d_start d_first d Hret.
  - injection Hret as <-. split; [done | by left].
  - cbn [uninitialized_copy_from] in Hret.
    repeat case_match; simplify_eq.
    apply IH in Hret as [Hlen Hn]. rewrite length_insert in Hlen, Hn.
    split; [done|]. right.
    match goal with Hb : bool_decide _ = true |- _ =>
      apply bool_decide_eq_true_1 in Hb end.
    destruct Hn as [->|Hn]; lia.
Qed.

Lemma uninitialized_move_from_bounds n :
  forall (src : list (option T)) first dst d_start d_first s d,
  uninitialized_move_from src first n dst d_start d_first = Return (s, d) ->
  length d = length dst /\ (n = 0 \/ d_first + n <= length dst).
Proof.
  induction n as [|n IH]; intros src first dst d_start d_first s d Hret.
  - injection Hret as <- <-. split; [done | by left].
  - cbn [uninitialized_move_from] in Hret.
    repeat case_match; simplify_eq.
    apply IH in Hret as [Hlen Hn]. rewrite length_insert in Hlen, Hn.
    split; [done|]. right.
    match goal with Hb : bool_decide _ = true |- _ =>
      apply bool_decide_eq_true_1 in Hb end.
    destruct Hn as [->|Hn]; lia.
Qed.

Lemma EmplaceBack_return_capacity (v : Vector T) arg i v' e :
  EmplaceBack v arg = Return (i, v', e) ->
  capacity_ (data_ v) <= capacity_ (data_ v').
Proof.
  unfold EmplaceBack, Capacity, with_buffer, RawMemory_Swap, RawMemory_new.
  intros Hret.
  repeat case_match; simplify_eq; cbn [size_ data_ capacity_ buffer_] in *;
    [|done].
  repeat match goal with
         | Hb : bool_decide _ = true |- _ => apply bool_decide_eq_true_1 in Hb
         | Hb : (_ =? _) = true |- _ => apply Nat.eqb_eq in Hb
         | Hb : Allocate _ = Some _ |- _ => apply Allocate_length in Hb
         end.
  lia.
Qed.

Lemma Emplace_return_capacity (v : Vector T) pos arg i v' e :
  Emplace v pos arg = Return (i, v', e) ->
  capacity_ (data_ v) <= capacity_ (data_ v').
Proof.
  unfold Emplace, Capacity, with_buffer, RawMemory_Swap, RawMemory_new,
    uninitialized_move_n, uninitialized_copy_n.
  intros Hret.
  destruct (bool_decide (pos <= size_ v)) eqn:Hpos; [|done].
  apply bool_decide_eq_true_1 in Hpos.
  destruct (to_int (Z.of_nat pos) <? 0)%Z eqn:Hneg; [done|].
  pose proof (to_int_le (Z.of_nat pos) ltac:(lia)) as Hle.
  set (n := Z.to_nat (to_int (Z.of_nat pos))) in *.
  assert (Hn : n <= size_ v) by lia.
  clearbody n.
  repeat case_match; simplify_eq; cbn [size_ data_ capacity_ buffer_] in *;
    try done;
    repeat match goal with
           | Hb : bool_decide _ = true |- _ => apply bool_decide_eq_true_1 in Hb
           | Hb : (_ =? _) = true |- _ => apply Nat.eqb_eq in Hb
           | Hb : Allocate _ = Some _ |- _ => apply Allocate_length in Hb
           | Hm : uninitialized_move_from _ _ _ _ _ _ = Return _ |- _ =>
               apply uninitialized_move_from_bounds in Hm as [? ?]
           | Hc : uninitialized_copy_from _ _ _ _ _ _ = Return _ |- _ =>
               apply uninitialized_copy_from_bounds in Hc as [? ?]
           end;
    rewrite ?length_insert, ?length_replicate in *; lia.
Qed.


Lemma Resize_return_capacity (v : Vector T) k v' e :
  Resize v k = Return (v', e) ->
  size_ v' = k /\ capacity_ (data_ v) <= capacity_ (data_ v').
Proof.
  unfold Resize, with_buffer. intros Hret.
  destruct (k <? size_ v).
  - destruct (destroy_n _ _ _). by simplify_eq.
  - destruct (Reserve v k) as [[v1 e1]|[v1 e1]|] eqn:Hres; [|done..].
    apply Reserve_return_keeps_size in Hres as [_ Hcap].
    repeat case_match; simplify_eq. by cbn.
Qed.

Lemma Erase_return_capacity (v : Vector T) pos i v' e :
  Erase v pos = Return (i, v', e) ->
  i = pos /\ size_ v' = size_ v - 1 /\
  capacity_ (data_ v') = capacity_ (data_ v).
Proof.
  unfold Erase, PopBack, with_buffer. intros Hret.
  repeat case_match; simplify_eq; cbn [size_ data_ capacity_]; done.
Qed.

Lemma PopBack_return_capacity (v : Vector T) v' e :
  PopBack v = Return (v', e) ->
  size_ v' = size_ v - 1 /\ capacity_ (data_ v') = capacity_ (data_ v).
Proof.
  unfold PopBack, with_buffer. intros Hret.
  repeat case_match; simplify_eq; cbn [size_ data_ capacity_]; done.
Qed.

Lemma copy_assign_return_capacity (a b : Vector T) a' e :
  copy_assign a b = Return (a', e) ->
  size_ a' = size_ b /\ capacity_ (data_ a) <= capacity_ (data_ a').
Proof.
  unfold copy_assign, Vector_copy, with_buffer, Swap, RawMemory_Swap, RawMemory_new.
  intros Hret.
  repeat case_match; simplify_eq; cbn [size_ data_ capacity_];
    (split; [done|]);
    repeat match goal with
           | Hlt : (_ <? _) = true |- _ => apply Nat.ltb_lt in Hlt
           end; lia.
Qed.

(** [X20] No call of Reserve, Resize, EmplaceBack, Emplace, PopBack, Erase
    or copy assignment that returns leaves the vector with a smaller
    capacity than it had, on any vector; PopBack and Erase keep the
    capacity as it is (nothing ever gives storage back). *)
Theorem capacity_never_shrinks :
  (forall (v : Vector T) c v' e,
     Reserve v c = Return (v', e) -> Capacity v <= Capacity v') /\
  (forall (v : Vector T) k v' e,
     Resize v k = Return (v', e) -> Capacity v <= Capacity v') /\
  (forall (v : Vector T) arg i v' e,
     EmplaceBack v arg = Return (i, v', e) -> Capacity v <= Capacity v') /\
  (forall (v : Vector T) pos arg i v' e,
     Emplace v pos arg = Return (i, v', e) -> Capacity v <= Capacity v') /\
  (forall (v : Vector T) v' e,
     PopBack v = Return (v', e) -> Capacity v' = Capacity v) /\
  (forall (v : Vector T) pos i v' e,
     Erase v pos = Return (i, v', e) -> Capacity v' = Capacity v) /\
  (forall (a b : Vector T) a' e,
     copy_assign a b = Return (a', e) -> Capacity a <= Capacity a').
Proof.
  unfold Capacity.
  split; [intros v c v' e Hret; by apply Reserve_return_keeps_size in Hret as [_ ?]|].
  split; [intros v k v' e Hret; by apply Resize_return_capacity in Hret as [_ ?]|].
  split; [exact EmplaceBack_return_capacity|].
  split; [exact Emplace_return_capacity|].
  split; [intros v v' e Hret; by apply PopBack_return_capacity in Hret as [_ ?]|].
  split; [intros v pos i v' e Hret;
          by apply Erase_return_capacity in Hret as (_ & _ & ?)|].
  intros a b a' e Hret. by apply copy_assign_return_capacity in Hret as [_ ?].
Qed.


(** *** The basic guarantee of the shifting operations *)

Lemma occupancy_lookup (b : list (option T)) i :
  occupancy b !! i
  = (fun s => match s with Some _ => true | None => false end) <$> (b !! i).
Proof. unfold occupancy. apply list_lookup_fmap. Qed.

Lemma occupancy_live (b b' : list (option T)) i x :
  occupancy b' = occupancy b -> b !! i = Some (Some x) ->
  exists y, b' !! i = Some (Some y).
Proof.
  intros Hocc Hb. pose proof (occupancy_lookup b' i) as Hi.
  rewrite Hocc, occupancy_lookup, Hb in Hi. cbn in Hi.
  destruct (b' !! i) as [[y|]|]; simplify_eq. by exists y.
Qed.

Lemma occupancy_raw (b b' : list (option T)) i :
  occupancy b' = occupancy b -> b !! i = Some None -> b' !! i = Some None.
Proof.
  intros Hocc Hb. pose proof (occupancy_lookup b' i) as Hi.
  rewrite Hocc, occupancy_lookup, Hb in Hi. cbn in Hi.
  by destruct (b' !! i) as [[y|]|]; simplify_eq.
Qed.

Lemma occupancy_length (b b' : list (option T)) :
  occupancy b' = occupancy b -> length b' = length b.
Proof.
  intros Hocc. apply (f_equal length) in Hocc.
  unfold occupancy in Hocc. by rewrite !length_fmap in Hocc.
Qed.

(* the invariant speaks about which slots are live only *)
Lemma Inv_same_occupancy (v v' : Vector T) :
  Inv v -> size_ v' = size_ v ->
  capacity_ (data_ v') = capacity_ (data_ v) ->
  occupancy (buffer_ (data_ v')) = occupancy (buffer_ (data_ v)) ->
  Inv v'.
Proof.
  intros (Hlen & Hsize & Hlive & Hraw) Hs Hc Hocc. unfold Inv.
  rewrite Hs, Hc. split; [by rewrite (occupancy_length _ _ Hocc)|].
  split; [done|]. split.
  - intros i Hi. destruct (Hlive i Hi) as [x Hx]. by eapply occupancy_live.
  - intros i Hi Hic. eapply occupancy_raw; [done | by apply Hraw].
Qed.

Lemma occupancy_assign (b : list (option T)) i x y :
  b !! i = Some (Some y) -> occupancy (<[i := Some x]> b) = occupancy b.
Proof.
  intros Hb. unfold occupancy. rewrite list_fmap_insert.
  apply list_insert_id. by rewrite list_lookup_fmap, Hb.
Qed.

Lemma move_assign_slot_occupancy (b : list (option T)) s d r :
  move_assign_slot b s d = Return r \/ move_assign_slot b s d = Throw r ->
  occupancy r = occupancy b.
Proof.
  unfold move_assign_slot. intros Hr.
  destruct (b !! s) as [[x|]|] eqn:Hs; try (by destruct Hr).
  destruct (b !! d) as [[y|]|] eqn:Hd; try (by destruct Hr).
  destruct (move_assign_throws x); destruct Hr as [Hr|Hr]; simplify_eq; [done|].
  destruct (decide (d = s)) as [->|Hne].
  - rewrite list_insert_insert_eq. by eapply occupancy_assign.
  - erewrite occupancy_assign; [by eapply occupancy_assign|].
    by rewrite list_lookup_insert_ne.
Qed.

Lemma move_occupancy n : forall (b : list (option T)) first d_first r,
  move b first n d_first = Return r \/ move b first n d_first = Throw r ->
  occupancy r = occupancy b.
Proof.
  induction n as [|n IH]; intros b first d_first r Hr.
  - cbn in Hr. by destruct Hr; simplify_eq.
  - cbn [move] in Hr.
    destruct (move_assign_slot b first d_first) as [b'|b'|] eqn:Hslot.
    + apply IH in Hr. rewrite Hr.
      eapply move_assign_slot_occupancy. by left.
    + destruct Hr as [Hr|Hr]; simplify_eq.
      eapply move_assign_slot_occupancy. by right.
    + by destruct Hr.
Qed.

Lemma move_backward_occupancy n : forall (b : list (option T)) last d_last r,
  move_backward b last n d_last = Return r \/
  move_backward b last n d_last = Throw r ->
  occupancy r = occupancy b.
Proof.
  induction n as [|n IH]; intros b last d_last r Hr.
  - cbn in Hr. by destruct Hr; simplify_eq.
  - cbn [move_backward] in Hr.
    destruct last as [|last]; [by destruct Hr|].
    destruct d_last as [|d_last]; [by destruct Hr|].
    destruct (move_assign_slot b last d_last) as [b'|b'|] eqn:Hslot.
    + apply IH in Hr. rewrite Hr.
      eapply move_assign_slot_occupancy. by left.
    + destruct Hr as [Hr|Hr]; simplify_eq.
      eapply move_assign_slot_occupancy. by right.
    + by destruct Hr.
Qed.

(** [X21] Erase gives the basic guarantee: when a move assignment of the
    shift throws, the exception propagates with a vector that still
    satisfies the invariant, with the size and capacity it had and nothing
    leaked; only the values of the elements may be partly shifted. *)
Theorem Erase_throw_keeps_invariant (v : Vector T) (pos : nat) v' e :
  Inv v -> Erase v pos = Throw (v', e) ->
  Inv v' /\ Size v' = Size v /\ Capacity v' = Capacity v /\ e = no_effects.
Proof.
  intros Hv Hthrow.
  destruct (Erase_throw_keeps_size _ _ _ _ Hthrow) as [Hsize Hcap].
  revert Hthrow. unfold Erase, PopBack, with_buffer. intros Hthrow.
  repeat case_match; simplify_eq.
  split; [|done].
  eapply Inv_same_occupancy; [exact Hv | done | done |].
  cbn [data_ buffer_]. eapply move_occupancy. by right.
Qed.


Lemma occupancy_insert (b : list (option T)) i (s : option T) :
  occupancy (<[i := s]> b)
  = <[i := match s with Some _ => true | None => false end]> (occupancy b).
Proof. unfold occupancy. apply list_fmap_insert. Qed.

(** [X22] Emplace before the end without growth gives the basic guarantee
    for its shift: when the move construction from [data_[0]] or a move
    assignment inside std::move_backward throws, the object constructed at
    [end()] is destroyed again and the vector still satisfies the
    invariant with the size and capacity it had, nothing leaked.  (The
    final assignment of the new value lies outside the try block; it is
    assumed here not to throw.) *)
Theorem Emplace_shift_throw_keeps_invariant
    (v : Vector T) (pos : nat) (t : T) v' e :
  Inv v -> Size v < Capacity v ->
  move_assign_throws t = false ->
  Emplace v pos (Some t) = Throw (v', e) ->
  Inv v' /\ Size v' = Size v /\ Capacity v' = Capacity v /\ e = no_effects.
Proof.
  intros Hv Hroom Ht Hthrow.
  destruct (Emplace_throw_keeps_size _ _ _ _ _ Hthrow) as [Hsize Hcap].
  unfold Size, Capacity in *.
  split; [|split; [done|split; [done|]]]; revert Hthrow;
    unfold Emplace, Capacity, with_buffer;
    rewrite (proj2 (Nat.eqb_neq (size_ v) (capacity_ (data_ v)))) by lia;
    intros Hthrow; repeat case_match; simplify_eq; try done.
  - (* the shift threw *)
    match goal with
    | Hmb : move_backward _ _ _ _ = Throw ?b2,
      Hd : destroy_at ?b2 _ = _,
      H0 : buffer_ (data_ v) !! 0 = Some (Some _) |- _ =>
        assert (Hocc : occupancy b2
                       = <[size_ v := true]> (occupancy (buffer_ (data_ v))));
        [ erewrite (move_backward_occupancy _ _ _ _ b2) by (right; exact Hmb);
          rewrite !occupancy_insert;
          f_equal; apply list_insert_id;
          by rewrite occupancy_lookup, H0
        | unfold destroy_at in Hd ]
    end.
    destruct Hv as (Hlen & Hle & Hlive & Hraw).
    match goal with
    | Hd : match ?b2 !! size_ v with _ => _ end = _ |- _ =>
        assert (Hend : exists y, b2 !! size_ v = Some (Some y));
        [ pose proof (occupancy_lookup b2 (size_ v)) as Hi;
          rewrite Hocc, list_lookup_insert_eq in Hi
            by (unfold occupancy; rewrite length_fmap; lia);
          destruct (b2 !! size_ v) as [[y|]|]; simplify_eq; by exists y
        | destruct Hend as [y Hy]; rewrite Hy in Hd; simplify_eq ]
    end.
    eapply Inv_same_occupancy; [by repeat split | done | done |].
    cbn [data_ buffer_]. rewrite occupancy_insert, Hocc, list_insert_insert_eq.
    apply list_insert_id. rewrite occupancy_lookup, Hraw by lia. done.
  - (* the shift threw: no stray destructor call *)
    match goal with
    | Hmb : move_backward _ _ _ _ = Throw ?b2,
      Hd : destroy_at ?b2 _ = _,
      H0 : buffer_ (data_ v) !! 0 = Some (Some _) |- _ =>
        assert (Hocc : occupancy b2
                       = <[size_ v := true]> (occupancy (buffer_ (data_ v))));
        [ erewrite (move_backward_occupancy _ _ _ _ b2) by (right; exact Hmb);
          rewrite !occupancy_insert;
          f_equal; apply list_insert_id;
          by rewrite occupancy_lookup, H0
        | unfold destroy_at in Hd ]
    end.
    destruct Hv as (Hlen & Hle & Hlive & Hraw).
    match goal with
    | Hd : match ?b2 !! size_ v with _ => _ end = _ |- _ =>
        pose proof (occupancy_lookup b2 (size_ v)) as Hi;
        rewrite Hocc, list_lookup_insert_eq in Hi
          by (unfold occupancy; rewrite length_fmap; lia);
        destruct (b2 !! size_ v) as [[y|]|]; by simplify_eq
    end.
Qed.


(** *** The basic guarantee of copy assignment in place *)

Lemma copy_occupancy n : forall (src : list (option T)) first dst d_first r,
  copy src first n dst d_first = Return r \/
  copy src first n dst d_first = Throw r ->
  occupancy r = occupancy dst.
Proof.
  induction n as [|n IH]; intros src first dst d_first r Hr.
  - cbn in Hr. by destruct Hr; simplify_eq.
  - cbn [copy] in Hr.
    destruct (src !! first) as [[x|]|]; try (by destruct Hr).
    destruct (dst !! d_first) as [[y|]|] eqn:Hd; try (by destruct Hr).
    destruct (copy_assign_throws x).
    + by destruct Hr; simplify_eq.
    + apply IH in Hr. rewrite Hr. by eapply occupancy_assign.
Qed.

(* whatever the source block holds, a batch copy that throws has destroyed
   exactly the copies it made *)
Lemma uninitialized_copy_from_rollback n :
  forall (src : list (option T)) first ys dpre rest d s,
  uninitialized_copy_from src first n (dpre ++ (Some <$> ys) ++ rest)
    (length dpre) (length dpre + length ys) = Throw (d, s) ->
  exists k, k <= length rest /\
            d = dpre ++ replicate (length ys + k) None ++ drop k rest /\
            s = 0.
Proof.
  induction n as [|n IH]; intros src first ys dpre rest d s Hthrow; [done|].
  cbn [uninitialized_copy_from] in Hthrow.
  destruct (src !! first) as [[x|]|]; [|done..].
  destruct (copy_throws x).
  - replace (length dpre + length ys - length dpre) with (length ys) in Hthrow by lia.
    rewrite destroy_n_live in Hthrow. simplify_eq.
    exists 0. rewrite Nat.add_0_r, drop_0. split; [lia | done].
  - destruct (bool_decide (length dpre + length ys
                           < length (dpre ++ (Some <$> ys) ++ rest))) eqn:Hin;
      [|done].
    apply bool_decide_eq_true_1 in Hin.
    rewrite !length_app, length_fmap in Hin.
    destruct rest as [|r rest]; [cbn in Hin; lia|].
    replace (<[length dpre + length ys := Some x]>
               (dpre ++ (Some <$> ys) ++ r :: rest))
      with (dpre ++ (Some <$> (ys ++ [x])) ++ rest) in Hthrow.
    + replace (S (length dpre + length ys))
        with (length dpre + length (ys ++ [x])) in Hthrow
        by (rewrite length_app; cbn; lia).
      apply IH in Hthrow as (k & Hk & -> & ->).
      exists (S k). cbn [length drop]. split; [lia|]. split; [|done].
      rewrite length_app. cbn [length].
      by replace (length ys + 1 + k) with (length ys + S k) by lia.
    + rewrite (app_assoc dpre (Some <$> ys) (r :: rest)).
      replace (length dpre + length ys) with (length (dpre ++ (Some <$> ys)))
        by (by rewrite length_app, length_fmap).
      rewrite insert_after, fmap_app, <- !app_assoc. done.
Qed.

Lemma occupancy_app (b1 b2 : list (option T)) :
  occupancy (b1 ++ b2) = occupancy b1 ++ occupancy b2.
Proof. unfold occupancy. apply fmap_app. Qed.

Lemma occupancy_replicate_raw n :
  occupancy (replicate n (@None T)) = replicate n false.
Proof. unfold occupancy. apply fmap_replicate. Qed.

(* a batch copy into raw slots that throws leaves the block as occupied
   as it was *)
Lemma uninitialized_copy_n_throw_occupancy
    (src dst : list (option T)) first n d_first d s :
  d_first <= length dst ->
  (forall i, d_first <= i -> i < length dst -> dst !! i = Some None) ->
  uninitialized_copy_n src first n dst d_first = Throw (d, s) ->
  occupancy d = occupancy dst /\ s = 0.
Proof.
  intros Hle Hraw Hthrow. unfold uninitialized_copy_n in Hthrow.
  assert (Hrest : drop d_first dst = replicate (length dst - d_first) None).
  { rewrite <- length_drop. apply all_raw, Forall_lookup.
    intros i r Hr. rewrite lookup_drop in Hr.
    pose proof (lookup_lt_Some _ _ _ Hr) as Hi.
    rewrite Hraw in Hr by lia. by simplify_eq. }
  pose proof (uninitialized_copy_from_rollback n src first []
                (take d_first dst) (drop d_first dst) d s) as Hroll.
  cbn [fmap list_fmap app length] in Hroll.
  rewrite take_drop, length_take, Nat.add_0_r in Hroll.
  replace (d_first `min` length dst) with d_first in Hroll by lia.
  destruct (Hroll Hthrow) as (k & Hk & -> & ->). clear Hroll Hthrow.
  split; [|done]. cbn [Nat.add].
  rewrite Hrest, length_replicate in Hk.
  rewrite Hrest, drop_replicate, <- replicate_add.
  replace (k + (length dst - d_first - k)) with (length dst - d_first) by lia.
  by rewrite <- Hrest, take_drop.
Qed.

(** [X23] Copy assignment into existing storage (the source fits the
    capacity) gives the basic guarantee: when an element assignment or a
    copy construction throws, the exception propagates with a vector that
    still satisfies the invariant, with the size and capacity it had and
    nothing leaked; elements already assigned keep their new values. *)
Theorem copy_assign_in_place_throw_keeps_invariant (a b : Vector T) a' e :
  Inv a -> Size b <= Capacity a ->
  copy_assign a b = Throw (a', e) ->
  Inv a' /\ Size a' = Size a /\ Capacity a' = Capacity a /\ e = no_effects.
Proof.
  intros Ha Hfits Hthrow.
  destruct (copy_assign_throw_keeps_size _ _ _ _ Hthrow) as [Hsize Hcap].
  unfold Size, Capacity in *.
  assert (Hgoal : occupancy (buffer_ (data_ a')) = occupancy (buffer_ (data_ a))
                  /\ e = no_effects).
  { revert Hthrow. unfold copy_assign, with_buffer.
    rewrite (proj2 (Nat.ltb_ge (capacity_ (data_ a)) (size_ b))) by done.
    intros Hthrow.
    destruct (size_ b <? size_ a).
    - destruct (copy _ _ _ _ _) as [r|r|] eqn:Hcopy; [| |done].
      + by destruct (destroy_n _ _ _).
      + simplify_eq. split; [|done]. eapply copy_occupancy. by right.
    - destruct (copy _ _ _ _ _) as [r|r|] eqn:Hcopy; [| |done].
      + assert (Hr : occupancy r = occupancy (buffer_ (data_ a)))
          by (eapply copy_occupancy; by left).
        destruct (uninitialized_copy_n _ _ _ r _) as [d|[d s]|] eqn:Hrest;
          [done| |done].
        simplify_eq. cbn [data_ buffer_].
        destruct Ha as (Hlen & Hle & Hlive & Hraw).
        apply uninitialized_copy_n_throw_occupancy in Hrest as [Hd ->].
        * split; [by rewrite Hd | done].
        * rewrite (occupancy_length _ _ Hr). lia.
        * intros i Hi Hic. rewrite (occupancy_length _ _ Hr) in Hic.
          eapply occupancy_raw; [exact Hr|]. apply Hraw; lia.
      + simplify_eq. split; [|done]. eapply copy_occupancy. by right. }
  destruct Hgoal as [Hocc ->].
  split; [by eapply Inv_same_occupancy|done].
Qed.


(** *** Relocation by copy never touches the vector when it fails *)

Lemma not_Exists_throws (f : T -> bool) xs :
  ~ Exists (fun y => f y = true) xs -> Forall (fun y => f y = false) xs.
Proof.
  intros Hno. apply Forall_forall. intros y Hy.
  destruct (f y) eqn:Hf; [|done].
  exfalso. apply Hno, Exists_exists. by exists y.
Qed.

Lemma existsb_Exists (f : T -> bool) xs :
  existsb f xs = true <-> Exists (fun y => f y = true) xs.
Proof.
  induction xs as [|a xs IH]; cbn [existsb].
  - split; [done | by intros ?%Exists_nil].
  - rewrite Bool.orb_true_iff, Exists_cons, IH. done.
Qed.

(** [X24] Growth-triggered Emplace with copy relocation at a position
    that fits [int] (below 2^31), the new block obtained: when an element
    copy throws, the exception propagates with the vector exactly as it was
    (block, size and capacity) and no destructor has run on a slot without
    a live object.  Of the objects constructed in the new block only the
    new element can be alive when the block is given back: it is, exactly
    when no copy of an element before the position throws, so that the copy
    that throws is one of an element at or behind the position. *)
Theorem Emplace_growth_copy_throw_leaves_vector_unchanged
    (v : Vector T) (pos : nat) (x : T) :
  Inv v -> Size v = Capacity v -> pos <= Size v ->
  (Z.of_nat pos < 2 ^ 31)%Z -> allocates (Nat.max 1 (2 * Size v)) ->
  takes_move_path = false ->
  Exists (fun y => copy_throws y = true) (contents v) ->
  Emplace v pos (Some x)
  = Throw (v, mkEffects 0
                (if existsb copy_throws (take pos (contents v))
                 then [] else [x])).
Proof.
  intros Hv Hfull Hpos Hint Halloc Hpath Hex.
  destruct (Inv_is_vec v Hv) as (Heq & Hlen & Hcap).
  unfold Size in *. rewrite <- Hlen in *.
  assert (Hpre : length (take pos (contents v)) = pos)
    by (rewrite length_take; lia).
  destruct (existsb copy_throws (take pos (contents v))) eqn:Hb.
  - apply existsb_Exists in Hb as Hin.
    pose proof (Emplace_prefix_copy_throws (take pos (contents v))
                  (drop pos (contents v)) x) as Hthrow.
    rewrite take_drop, Hpre in Hthrow.
    rewrite Heq, <- Hfull at 1. rewrite Hthrow by done.
    by rewrite Hfull, <- Heq.
  - pose proof (Emplace_suffix_copy_throws (take pos (contents v))
                  (drop pos (contents v)) x) as Hthrow.
    rewrite take_drop, Hpre in Hthrow.
    assert (Hout : ~ Exists (fun y => copy_throws y = true)
                       (take pos (contents v)))
      by (intros Hin%existsb_Exists; congruence).
    rewrite Heq, <- Hfull at 1. rewrite Hthrow; [by rewrite Hfull, <- Heq|..].
    + done.
    + by apply not_Exists_throws.
    + rewrite <- (take_drop pos (contents v)) in Hex.
      by apply Exists_app in Hex as [?|?].
    + done.
    + done.
Qed.

(** *** When operator new fails, and when the byte count wraps *)

Lemma Allocate_fails_iff (n : nat) :
  Allocate n = None
  <-> n <> 0 /\ (max_request < (Z.of_nat n * sizeof_T) mod 2 ^ 64)%Z.
Proof.
  unfold Allocate.
  destruct (Nat.eqb_spec n 0) as [->|Hn]; [by split; [|intros [? _]]|].
  destruct (Z.leb_spec ((Z.of_nat n * sizeof_T) mod 2 ^ 64) max_request);
    split; try done; intros [_ ?]; lia.
Qed.

(** [X26] When operator new throws std::bad_alloc, which it does exactly
    for a non-empty request whose byte count, reduced modulo 2^64, exceeds
    what the heap gives, every operation that allocates propagates the
    exception with the vector exactly as it was and nothing constructed,
    destroyed or leaked: the two allocating constructors, Reserve, Resize
    beyond the capacity, EmplaceBack and Emplace (at a position that fits
    [int], below 2^31) on a full vector (before the new element is
    constructed, so whatever its constructor would do), and copy
    assignment from a vector that does not fit. *)
Theorem failed_allocation_changes_nothing :
  (forall n : nat,
     Allocate n = None
     <-> n <> 0 /\ (max_request < (Z.of_nat n * sizeof_T) mod 2 ^ 64)%Z) /\
  (forall n : nat, Allocate n = None -> Vector_sized n = Throw no_effects) /\
  (forall other : Vector T,
     Allocate (Size other) = None -> Vector_copy other = Throw no_effects) /\
  (forall (v : Vector T) (c : nat),
     Capacity v < c -> Allocate c = None -> Reserve v c = Throw (v, no_effects)) /\
  (forall (v : Vector T) (k : nat),
     Size v <= k -> Capacity v < k -> Allocate k = None ->
     Resize v k = Throw (v, no_effects)) /\
  (forall (v : Vector T) (arg : option T),
     Size v = Capacity v -> Allocate (grown_capacity (Size v)) = None ->
     EmplaceBack v arg = Throw (v, no_effects)) /\
  (forall (v : Vector T) (pos : nat) (arg : option T),
     pos <= Size v -> (Z.of_nat pos < 2 ^ 31)%Z ->
     Size v = Capacity v -> Allocate (grown_capacity (Size v)) = None ->
     Emplace v pos arg = Throw (v, no_effects)) /\
  (forall a b : Vector T,
     Capacity a < Size b -> Allocate (Size b) = None ->
     copy_assign a b = Throw (a, no_effects)).
Proof.
  assert (Hreserve : forall (v : Vector T) (c : nat),
            Capacity v < c -> Allocate c = None ->
            Reserve v c = Throw (v, no_effects)).
  { intros v c Hc Hnone. unfold Reserve, RawMemory_new, Capacity in *.
    by rewrite (proj2 (Nat.leb_gt _ _) Hc), Hnone. }
  assert (Hcopy : forall other : Vector T,
            Allocate (Size other) = None -> Vector_copy other = Throw no_effects).
  { intros other Hnone. unfold Vector_copy, RawMemory_new, Size in *.
    by rewrite Hnone. }
  split; [exact Allocate_fails_iff|]. split; [|split; [exact Hcopy|]].
  { intros n Hnone. unfold Vector_sized, RawMemory_new. by rewrite Hnone. }
  split; [exact Hreserve|]. split; [|split; [|split]].
  - intros v k Hsize Hc Hnone. unfold Resize, Size in *.
    rewrite (proj2 (Nat.ltb_ge _ _) Hsize). by rewrite Hreserve.
  - intros v arg Hfull Hnone. unfold EmplaceBack, RawMemory_new, Size in *.
    by rewrite (proj2 (Nat.eqb_eq _ _) Hfull), Hnone.
  - intros v pos arg Hpos Hint Hfull Hnone.
    unfold Emplace, RawMemory_new, Size in *.
    rewrite to_int_small by lia. rewrite bool_decide_true by done.
    replace (Z.of_nat pos <? 0)%Z with false by lia.
    by rewrite (proj2 (Nat.eqb_eq _ _) Hfull), Hnone.
  - intros a b Hc Hnone. unfold copy_assign, Capacity, Size in *.
    rewrite (proj2 (Nat.ltb_lt _ _) Hc). by rewrite Hcopy.
Qed.

(* a request that wraps yields fewer slots than were asked for *)
Lemma Allocate_wraps (n : nat) b :
  (2 ^ 64 <= Z.of_nat n * sizeof_T)%Z -> Allocate n = Some b -> length b < n.
Proof.
  unfold Allocate. intros Hwrap Hb. pose proof sizeof_T_pos as Hpos.
  destruct (Nat.eqb_spec n 0) as [->|Hn]; [lia|].
  destruct (_ <=? _)%Z; simplify_eq. rewrite length_replicate.
  apply Nat2Z.inj_lt. rewrite Z2Nat.id by (apply Z.div_pos; [|done];
    by apply Z.mod_pos_bound).
  apply Z.div_lt_upper_bound; [done|].
  pose proof (Z.mod_pos_bound (Z.of_nat n * sizeof_T) (2 ^ 64) eq_refl). nia.
Qed.

Lemma relocate_n_bounds (old new : list (option T)) first n d_first s d :
  relocate_n old first n new d_first = Return (s, d) ->
  length d = length new /\ (n = 0 \/ d_first + n <= length new).
Proof.
  unfold relocate_n, uninitialized_move_n, uninitialized_copy_n.
  intros Hret. destruct takes_move_path.
  - by eapply uninitialized_move_from_bounds.
  - destruct (uninitialized_copy_from _ _ _ _ _ _) as [d'|[]|] eqn:Hcopy;
      simplify_eq.
    by eapply uninitialized_copy_from_bounds.
Qed.

Lemma uninitialized_value_construct_from_bounds n :
  forall (b : list (option T)) start first d,
  uninitialized_value_construct_from b start first n = Return d ->
  length d = length b /\ (n = 0 \/ first + n <= length b).
Proof.
  induction n as [|n IH]; intros b start first d Hret.
  - injection Hret as <-. split; [done | by left].
  - cbn [uninitialized_value_construct_from] in Hret.
    repeat case_match; simplify_eq.
    apply IH in Hret as [Hlen Hn]. rewrite length_insert in Hlen, Hn.
    split; [done|]. right.
    match goal with Hb : bool_decide _ = true |- _ =>
      apply bool_decide_eq_true_1 in Hb end.
    destruct Hn as [->|Hn]; lia.
Qed.

(** [X27] A request for [n] objects whose byte count [n * sizeof(T)] does
    not fit [size_t] wraps, and when operator new satisfies the wrapped
    request the block has fewer than [n] slots.  Reserve with such a
    capacity never yields a vector that satisfies the invariant: when it
    returns, the vector reports the capacity asked for over a block that
    is shorter.  Vector(n) with such a size never returns. *)
Theorem wrapped_request_gives_short_block (n : nat) :
  (2 ^ 64 <= Z.of_nat n * sizeof_T)%Z ->
  (forall b, Allocate n = Some b -> length b < n) /\
  (forall (v v' : Vector T) e,
     Capacity v < n -> Reserve v n = Return (v', e) ->
     Capacity v' = n /\ length (buffer_ (data_ v')) < n /\ ~ Inv v') /\
  (forall r, Vector_sized n <> Return r).
Proof.
  intros Hwrap. split; [intros b; by apply Allocate_wraps|]. split.
  - intros v v' e Hc. unfold Reserve, RawMemory_new, Capacity in *.
    rewrite (proj2 (Nat.leb_gt _ _) Hc).
    destruct (Allocate n) as [b|] eqn:Hb; [|done].
    apply Allocate_wraps in Hb; [|done]. cbn [buffer_ capacity_].
    destruct (relocate_n _ _ _ _ _) as [[old new]|[[old new] s]|] eqn:Hrel;
      [|done..].
    apply relocate_n_bounds in Hrel as [Hlen _].
    destruct (destroy_n old 0 (size_ v)) as [old' s]. cbn.
    intros [= <- <-]. cbn [data_ buffer_ capacity_].
    split; [done|]. split; [lia|].
    intros (Hblock & _). cbn in Hblock. lia.
  - intros r. unfold Vector_sized, RawMemory_new, uninitialized_value_construct_n.
    destruct (Allocate n) as [b|] eqn:Hb; [|done].
    apply Allocate_wraps in Hb; [|done]. cbn [buffer_ capacity_].
    destruct (uninitialized_value_construct_from _ _ _ _) as [d|[]|] eqn:Hctor;
      [|done..].
    apply uninitialized_value_construct_from_bounds in Hctor as [_ [->|Hn]]; lia.
Qed.

End Coverage.

(** ** Instances of the properties above *)

Section IntInstances.
#[local] Existing Instance int_element.
#[local] Existing Instance roomy_heap.

Lemma Vector_destroy_releases_everything_witness :
  Inv (vec [1; 2] 4) /\ Vector_destroy (vec [1; 2] 4) = no_effects.
Proof.
  assert (Hv : Inv (vec [1; 2] 4)) by (apply Inv_vec; cbn; lia).
  split; [exact Hv|]. exact (Vector_destroy_releases_everything _ Hv).
Defined.

Lemma Vector_move_transfers_witness :
  Vector_move (vec [1; 2] 4) = (vec [1; 2] 4, Vector_default) /\
  Inv (vec [1; 2] 4) /\ Inv (@Vector_default nat) /\
  Vector_destroy (vec [1; 2] 4) = no_effects /\
  Vector_destroy (@Vector_default nat) = no_effects.
Proof.
  assert (Hv : Inv (vec [1; 2] 4)) by (apply Inv_vec; cbn; lia).
  destruct (Vector_move_transfers (vec [1; 2] 4) Hv)
    as (Hmove & Ha & Hb & _ & _ & Hda & Hdb).
  split; [exact Hmove|]. split; [exact Ha|]. split; [exact Hb|].
  split; [exact Hda | exact Hdb].
Defined.

Lemma PopBack_drops_last_witness :
  (exists v', PopBack (vec [1; 2; 3] 4) = Return (v', no_effects) /\
              contents v' = [1; 2] /\ Capacity v' = 4 /\ Inv v') /\
  PopBack (vec ([] : list nat) 4) = Undefined.
Proof.
  split.
  - apply (proj1 (PopBack_drops_last (vec [1; 2; 3] 4)
                    ltac:(apply Inv_vec; cbn; lia))). cbn; lia.
  - apply (proj2 (PopBack_drops_last (vec [] 4)
                    ltac:(apply Inv_vec; cbn; lia))). reflexivity.
Defined.

Lemma EmplaceBack_PopBack_round_trip_witness :
  exists v1 v2,
    EmplaceBack (vec [1; 2] 2) (Some 3) = Return (2, v1, no_effects) /\
    PopBack v1 = Return (v2, no_effects) /\
    contents v2 = [1; 2] /\ Size v2 = 2 /\ 2 <= Capacity v2 /\ Inv v2.
Proof.
  apply (EmplaceBack_PopBack_round_trip (vec [1; 2] 2) 3).
  - apply Inv_vec; cbn; lia.
  - intros _. split; [repeat constructor | by vm_compute].
Defined.

Lemma Resize_truncates_witness :
  exists v', Resize (vec [1; 2; 3] 4) 1 = Return (v', no_effects) /\
             contents v' = [1] /\ Size v' = 1 /\ Capacity v' = 4 /\ Inv v'.
Proof.
  apply (Resize_truncates (vec [1; 2; 3] 4) 1);
    [apply Inv_vec; cbn; lia | cbn; lia].
Defined.

Lemma Resize_extends_witness :
  exists v', Resize (vec [1; 2] 2) 4 = Return (v', no_effects) /\
             contents v' = [1; 2; 0; 0] /\ Size v' = 4 /\
             Capacity v' = 4 /\ Inv v'.
Proof.
  apply (Resize_extends (vec [1; 2] 2) 4 0);
    [apply Inv_vec; cbn; lia | cbn; lia | intros _; by vm_compute
    | repeat constructor | reflexivity].
Defined.

Lemma Erase_removes_element_witness :
  (exists v', Erase (vec [1; 3; 2; 4] 4) 1 = Return (1, v', no_effects) /\
              contents v' = [1; 2; 4] /\ Size v' = 3 /\
              Capacity v' = 4 /\ Inv v') /\
  Erase (vec [1; 3; 2; 4] 4) 4 = Undefined.
Proof.
  assert (Hv : Inv (vec [1; 3; 2; 4] 4)) by (apply Inv_vec; cbn; lia).
  split.
  - apply (proj1 (Erase_removes_element (vec [1; 3; 2; 4] 4) 1 Hv));
      [cbn; lia | repeat constructor].
  - apply (proj2 (Erase_removes_element (vec [1; 3; 2; 4] 4) 4 Hv)). cbn; lia.
Defined.

Lemma Emplace_inserts_when_growing_or_at_end_witness :
  (exists v', Emplace (vec [1; 2; 4] 3) 1 (Some 3) = Return (1, v', no_effects) /\
              contents v' = [1; 3; 2; 4] /\ Size v' = 4 /\
              Capacity v' = 6 /\ Inv v') /\
  (exists v', Emplace (vec [1; 2; 4] 5) 3 (Some 3) = Return (3, v', no_effects) /\
              contents v' = [1; 2; 4; 3] /\ Size v' = 4 /\
              Capacity v' = 5 /\ Inv v').
Proof.
  split.
  - apply (Emplace_inserts_when_growing_or_at_end (vec [1; 2; 4] 3) 1 3);
      [apply Inv_vec; cbn; lia | cbn; lia | cbn; lia | by left
      | intros _; split; [repeat constructor | by vm_compute]].
  - apply (Emplace_inserts_when_growing_or_at_end (vec [1; 2; 4] 5) 3 3);
      [apply Inv_vec; cbn; lia | cbn; lia | cbn; lia | by right
      | intros Hfull; discriminate Hfull].
Defined.

Lemma Emplace_Erase_round_trip_witness :
  exists v1 v2,
    Emplace (vec [1; 2; 4] 3) 1 (Some 3) = Return (1, v1, no_effects) /\
    Erase v1 1 = Return (1, v2, no_effects) /\
    contents v2 = [1; 2; 4] /\ Size v2 = 3 /\ Inv v2.
Proof.
  apply (Emplace_Erase_round_trip (vec [1; 2; 4] 3) 1 3);
    [apply Inv_vec; cbn; lia | cbn; lia | cbn; lia | by left
    | intros _; split; [repeat constructor | by vm_compute]
    | repeat constructor].
Defined.


Lemma subscript_reads_elements_witness :
  Vector_subscript (vec [1; 2; 3] 5) 1 = Return 2 /\
  Vector_subscript (vec [1; 2; 3] 5) 3 = Undefined.
Proof.
  assert (Hv : Inv (vec [1; 2; 3] 5)) by (apply Inv_vec; cbn; lia).
  split.
  - apply (proj1 (subscript_reads_elements (vec [1; 2; 3] 5) 1 Hv)). reflexivity.
  - apply (proj2 (proj2 (subscript_reads_elements (vec [1; 2; 3] 5) 3 Hv))).
    cbn; lia.
Defined.

Lemma subscript_after_EmplaceBack_witness :
  exists v', EmplaceBack (vec [1; 2] 2) (Some 3) = Return (2, v', no_effects) /\
             Vector_subscript v' 2 = Return 3 /\
             forall i, i < 2 ->
                       Vector_subscript v' i = Vector_subscript (vec [1; 2] 2) i.
Proof.
  apply (subscript_after_EmplaceBack (vec [1; 2] 2) 3);
    [apply Inv_vec; cbn; lia
    | intros _; split; [repeat constructor | by vm_compute]].
Defined.

End IntInstances.

Section ThrowingInstances.
#[local] Existing Instance throwing_copy_element.
#[local] Existing Instance roomy_heap.

Lemma appends_within_capacity_keep_block_witness :
  (exists v', push_all (vec [1] 4) [13; 13; 2] = Some (v', [4; 4; 4]) /\
              contents v' = [1; 13; 13; 2] /\ Capacity v' = 4 /\ Inv v') /\
  PushBack (vec [1] 4) 2 = Return (1, vec [1; 2] 4, no_effects) /\
  PushBack (vec [1] 4) 13 = Throw (vec [1] 4, no_effects).
Proof.
  destruct (appends_within_capacity_keep_block (vec [1] 4) [13; 13; 2]
              ltac:(apply Inv_vec; cbn; lia) ltac:(cbn; lia))
    as [Hall Hpush].
  split; [exact Hall|]. split.
  - exact (proj1 (Hpush 2 ltac:(cbn; lia))).
  - exact (proj1 (Hpush 13 ltac:(cbn; lia))).
Defined.

Lemma Emplace_prefix_copy_throw_changes_nothing_witness :
  Emplace (vec [13; 2; 1] 3) 1 (Some 3) = Throw (vec [13; 2; 1] 3, no_effects).
Proof.
  apply (Emplace_prefix_copy_throw_changes_nothing (vec [13; 2; 1] 3) 1 3);
    [apply Inv_vec; cbn; lia | reflexivity | cbn; lia | cbn; lia
    | by vm_compute | reflexivity | apply Exists_cons_hd; reflexivity].
Defined.

Lemma Erase_throw_keeps_invariant_witness :
  Inv (mkVector (mkRawMemory [Some 2; Some 0; Some 13] 3) 3) /\
  Size (mkVector (mkRawMemory [Some 2; Some 0; Some 13] 3) 3)
  = Size (vec [1; 2; 13] 3).
Proof.
  destruct (Erase_throw_keeps_invariant (vec [1; 2; 13] 3) 0
              (mkVector (mkRawMemory [Some 2; Some 0; Some 13] 3) 3) no_effects
              ltac:(apply Inv_vec; cbn; lia) eq_refl)
    as (Hinv & Hsize & _ & _).
  split; [exact Hinv | exact Hsize].
Defined.

Lemma Emplace_shift_throw_keeps_invariant_witness :
  Inv (mkVector (mkRawMemory [Some 0; Some 13; Some 4; None] 4) 3) /\
  Size (mkVector (mkRawMemory [Some 0; Some 13; Some 4; None] 4) 3)
  = Size (vec [1; 13; 4] 4).
Proof.
  destruct (Emplace_shift_throw_keeps_invariant (vec [1; 13; 4] 4) 1 7
              (mkVector (mkRawMemory [Some 0; Some 13; Some 4; None] 4) 3)
              no_effects
              ltac:(apply Inv_vec; cbn; lia) ltac:(cbn; lia) eq_refl eq_refl)
    as (Hinv & Hsize & _ & _).
  split; [exact Hinv | exact Hsize].
Defined.

Lemma copy_assign_in_place_throw_keeps_invariant_witness :
  Inv (mkVector (mkRawMemory [Some 5; Some 2; None; None] 4) 2) /\
  Inv (mkVector (mkRawMemory [Some 5; Some 6; None; None] 4) 2).
Proof.
  destruct (copy_assign_in_place_throw_keeps_invariant
              (vec [1; 2] 4) (vec [5; 13; 7] 3)
              (mkVector (mkRawMemory [Some 5; Some 2; None; None] 4) 2) no_effects
              ltac:(apply Inv_vec; cbn; lia) ltac:(cbn; lia) eq_refl)
    as (Hassign & _).
  destruct (copy_assign_in_place_throw_keeps_invariant
              (vec [1; 2] 4) (vec [5; 6; 13] 3)
              (mkVector (mkRawMemory [Some 5; Some 6; None; None] 4) 2) no_effects
              ltac:(apply Inv_vec; cbn; lia) ltac:(cbn; lia) eq_refl)
    as (Hconstruct & _).
  split; [exact Hassign | exact Hconstruct].
Defined.

Lemma Emplace_growth_copy_throw_leaves_vector_unchanged_witness :
  Emplace (vec [1; 13; 2] 3) 2 (Some 3) = Throw (vec [1; 13; 2] 3, no_effects) /\
  Emplace (vec [1; 13; 2] 3) 1 (Some 3)
  = Throw (vec [1; 13; 2] 3, mkEffects 0 [3]).
Proof.
  assert (Hv : Inv (vec [1; 13; 2] 3)) by (apply Inv_vec; cbn; lia).
  assert (Halloc : allocates (Nat.max 1 (2 * Size (vec [1; 13; 2] 3))))
    by (by vm_compute).
  assert (Hex : Exists (fun y => copy_throws y = true)
                  (contents (vec [1; 13; 2] 3)))
    by (apply Exists_cons_tl, Exists_cons_hd; reflexivity).
  split.
  - exact (Emplace_growth_copy_throw_leaves_vector_unchanged
             (vec [1; 13; 2] 3) 2 3 Hv eq_refl ltac:(cbn; lia) ltac:(cbn; lia)
             Halloc eq_refl Hex).
  - exact (Emplace_growth_copy_throw_leaves_vector_unchanged
             (vec [1; 13; 2] 3) 1 3 Hv eq_refl ltac:(cbn; lia) ltac:(cbn; lia)
             Halloc eq_refl Hex).
Defined.

End ThrowingInstances.

Lemma Vector_sized_value_constructs_witness :
  (exists v, @Vector_sized nat int_element roomy_heap 3 = Return (v, no_effects) /\
             Size v = 3 /\ Capacity v = 3 /\ contents v = [0; 0; 0] /\ Inv v) /\
  @Vector_sized nat no_default_element roomy_heap 3 = Throw no_effects /\
  @Vector_sized nat no_default_element roomy_heap 0
  = Return (Vector_default, no_effects).
Proof.
  split; [|split].
  - apply (proj1 (@Vector_sized_value_constructs nat int_element roomy_heap 3) 0);
      [reflexivity | by vm_compute].
  - apply (proj2 (@Vector_sized_value_constructs nat no_default_element
                    roomy_heap 3)). reflexivity.
  - apply (proj2 (@Vector_sized_value_constructs nat no_default_element
                    roomy_heap 0)). reflexivity.
Defined.

Lemma failed_allocation_changes_nothing_witness :
  @Reserve nat int_element cramped_heap (vec [1; 2] 2) 5
  = Throw (vec [1; 2] 2, no_effects) /\
  @EmplaceBack nat int_element cramped_heap (vec [1; 2; 3] 3) (Some 4)
  = Throw (vec [1; 2; 3] 3, no_effects) /\
  @copy_assign nat int_element cramped_heap (vec [1] 1) (vec [1; 2; 3; 4; 5] 5)
  = Throw (vec [1] 1, no_effects).
Proof.
  destruct (@failed_allocation_changes_nothing nat int_element cramped_heap)
    as (_ & _ & _ & Hreserve & _ & Hback & _ & Hassign).
  split; [|split].
  - apply (Hreserve (vec [1; 2] 2) 5); [cbn; lia | reflexivity].
  - apply (Hback (vec [1; 2; 3] 3) (Some 4)); reflexivity.
  - apply (Hassign (vec [1] 1) (vec [1; 2; 3; 4; 5] 5)); [cbn; lia | reflexivity].
Defined.

Lemma wrapped_request_gives_short_block_witness :
  (forall b, @Allocate nat int_element roomy_heap (Z.to_nat (2 ^ 62)) = Some b ->
             length b < Z.to_nat (2 ^ 62)) /\
  (forall r, @Vector_sized nat int_element roomy_heap (Z.to_nat (2 ^ 62))
             <> Return r).
Proof.
  assert (Hwrap : (2 ^ 64 <= Z.of_nat (Z.to_nat (2 ^ 62))
                             * @sizeof_T nat int_element)%Z)
    by (rewrite Z2Nat.id by lia; done).
  destruct (@wrapped_request_gives_short_block nat int_element roomy_heap
              (Z.to_nat (2 ^ 62)) Hwrap) as (Hshort & _ & Hsized).
  split; [exact Hshort | exact Hsized].
Defined.

Lemma Vector_copy_deep_copies_witness :
  (exists w, @Vector_copy nat int_element roomy_heap (vec [1; 2] 4)
             = Return (w, no_effects) /\
             contents w = [1; 2] /\ Size w = 2 /\ Capacity w = 2 /\ Inv w) /\
  @Vector_copy nat throwing_copy_element roomy_heap (vec [1; 13] 2)
  = Throw no_effects.
Proof.
  split.
  - apply (proj1 (@Vector_copy_deep_copies nat int_element roomy_heap
                    (vec [1; 2] 4) ltac:(apply Inv_vec; cbn; lia)
                    ltac:(by vm_compute))). repeat constructor.
  - apply (proj2 (@Vector_copy_deep_copies nat throwing_copy_element roomy_heap
                    (vec [1; 13] 2) ltac:(apply Inv_vec; cbn; lia)
                    ltac:(by vm_compute))).
    apply Exists_cons_tl, Exists_cons_hd. reflexivity.
Defined.

Lemma Resize_value_init_throws_witness :
  exists v', @Resize nat no_default_element roomy_heap (vec [1; 2] 2) 4
             = Throw (v', no_effects) /\
             contents v' = [1; 2] /\ Size v' = 2 /\ Capacity v' = 4 /\ Inv v'.
Proof.
  apply (@Resize_value_init_throws nat no_default_element roomy_heap
           (vec [1; 2] 2) 4);
    [apply Inv_vec; cbn; lia | cbn; lia | intros _; by vm_compute
    | repeat constructor | reflexivity].
Defined.

Lemma throw_keeps_size_witness :
  Size (vec [1; 13] 2) = Size (vec [1; 13] 2) /\
  Size (mkVector (mkRawMemory [Some 2; Some 0; Some 13] 3) 3)
  = Size (vec [1; 2; 13] 3).
Proof.
  destruct (@throw_keeps_size nat throwing_copy_element roomy_heap)
    as (Hreserve & _ & _ & _ & Herase & _).
  split.
  - exact (proj1 (Hreserve (vec [1; 13] 2) 5 (vec [1; 13] 2) no_effects eq_refl)).
  - exact (proj1 (Herase (vec [1; 2; 13] 3) 0
                    (mkVector (mkRawMemory [Some 2; Some 0; Some 13] 3) 3)
                    no_effects eq_refl)).
Defined.

Lemma capacity_never_shrinks_witness :
  Capacity (vec [1; 2] 2) <= Capacity (vec [1; 2; 3] 4) /\
  Capacity (vec [1; 2; 4] 3) <= Capacity (vec [1; 3; 2; 4] 6) /\
  Capacity (vec [5; 6; 7] 3) >= Capacity (vec [1; 2] 2).
Proof.
  destruct (@capacity_never_shrinks nat int_element roomy_heap)
    as (_ & _ & Hback & Hat & _ & _ & Hassign).
  split; [|split].
  - exact (Hback (vec [1; 2] 2) (Some 3) 2 (vec [1; 2; 3] 4) no_effects eq_refl).
  - exact (Hat (vec [1; 2; 4] 3) 1 (Some 3) 1 (vec [1; 3; 2; 4] 6) no_effects eq_refl).
  - exact (Hassign (vec [1; 2] 2) (vec [5; 6; 7] 4) (vec [5; 6; 7] 3) no_effects eq_refl).
Defined.
